(** * The YouTube channel-download job pipeline of chiyi-chatbot

    A shallow embedding of [server/youtubeDownloader.js] (enumeration,
    per-video fetch, the sequential batch loop) and of the job registry,
    the server-sent-event broadcaster and the job endpoints of
    [server/index.js], with the properties of the job lifecycle proved
    about them.

    - [Js]: the JavaScript values the code handles and the built-ins it
      calls ([String], [Number.parseInt], truthiness, property reads,
      [Number] and the arithmetic of doubles, [Math.round], [new Date]
      and [Date.prototype.toISOString]), each with the exception it
      can throw.
    - [Downloader]: [youtubeDownloader.js].
    - [Server]: the YouTube part of [index.js] as a labelled transition
      system over the two process-wide maps.
    - [Reply]: what [POST /api/youtube/jobs] answers.
    - [Wire]: the text [sseSend] writes for an event, with
      [JSON.stringify].
    - [Client]: the helpers of [src/components/YouTubeDownload.js] and
      the stream URL of [src/services/mongoApi.js].
    - [Retry]: [fetchWithRetry], the retry loop around the calls to the
      Gemini API, with [getRetryDelayMs] and [parseDurationToMs].
    - [Chat]: the user names and the messages of the chat endpoints of
      [index.js]. *)

From Stdlib Require Import ZArith Ascii Lia.
From stdpp Require Import base option list strings gmap.

Local Open Scope Z_scope.
#[local] Set Warnings "-register-all".

(** ** JavaScript values and built-ins *)
Module Js.

(** A JavaScript number, finite ones in the decimal form that
    [Number::toString] works on: [Finite neg ds n] is the number
    [± s × 10^(n-k)] where [ds] are the [k] decimal digits of [s], most
    significant first, with [k] as small as possible (no trailing zero
    digit).  Every finite non-zero double has exactly one such form. *)
Inductive JsNumber : Type :=
  | NaN
  | Infinity (neg : bool)
  | Zero (neg : bool)
  | Finite (neg : bool) (ds : list nat) (n : Z).

(** The decimal form is well formed: digits below ten, at least one, the
    first and the last not zero. *)
Definition digits_wf (ds : list nat) : bool :=
  forallb (λ d, Nat.ltb d 10) ds
  && match ds with [] => false | d :: _ => negb (Nat.eqb d 0) end
  && match last ds with None => false | Some d => negb (Nat.eqb d 0) end.

Definition number_wf (x : JsNumber) : bool :=
  match x with
  | Finite _ ds _ => digits_wf ds
  | _ => true
  end.

(** Values as [JSON.parse] builds them, [undefined] (a missing property
    or argument), and built-in methods reached through a prototype
    ([JNative], e.g. [Array.prototype.entries]).  An object is its list of
    own properties. *)
Inductive JsValue : Type :=
  | JUndefined
  | JNull
  | JBool (b : bool)
  | JNum (x : JsNumber)
  | JStr (s : string)
  | JArr (xs : list JsValue)
  | JObj (fields : list (string * JsValue))
  | JNative (name : string).

(** [Error] instances: what the external calls reject with and what the
    built-ins throw. *)
Record JsError : Type := { err_name : string; err_message : string }.

Definition TypeError (m : string) : JsError := {| err_name := "TypeError"; err_message := m |}.
Definition RangeError (m : string) : JsError := {| err_name := "RangeError"; err_message := m |}.

(** The outcome of an expression that may throw, or of an awaited promise
    that may reject. *)
Inductive Completion (A : Type) : Type :=
  | Throw (e : JsError)
  | Return (a : A).
Arguments Throw {A} e.
Arguments Return {A} a.

Definition bind {A B : Type} (c : Completion A) (f : A → Completion B) : Completion B :=
  match c with
  | Throw e => Throw e
  | Return a => f a
  end.

Notation "'let*' x ':=' c 'in' k" := (bind c (λ x, k))
  (at level 10, x name, c at level 100, k at level 200).

(** *** Strings *)

Definition digit_char (d : nat) : ascii := ascii_of_nat (48 + d).

Definition digit_of_char (c : ascii) : option nat :=
  let n := nat_of_ascii c in
  if Nat.leb 48 n && Nat.leb n 57 then Some (n - 48)%nat else None.

Fixpoint digits_string (ds : list nat) : string :=
  match ds with
  | [] => ""
  | d :: r => String (digit_char d) (digits_string r)
  end.

Fixpoint zeros (n : nat) : string :=
  match n with
  | O => ""
  | S m => String "0" (zeros m)
  end.

(** The value of a digit sequence read in radix 10. *)
Definition digits_value (ds : list nat) : Z :=
  fold_left (λ acc d, 10 * acc + Z.of_nat d) ds 0.

(** The decimal digits of a natural number, most significant first
    ([fuel] bounds the number of digits). *)
Fixpoint nat_digits (fuel : nat) (n : Z) (acc : list nat) : list nat :=
  match fuel with
  | O => acc
  | S f =>
      let acc' := Z.to_nat (n mod 10) :: acc in
      if n <? 10 then acc' else nat_digits f (n / 10) acc'
  end.

Definition decimal (n : Z) : string :=
  digits_string (nat_digits (S (Z.to_nat (Z.log2 n))) n []).

(** [width] digits of [n], padded with zeros on the left. *)
Fixpoint pad_digits (width : nat) (n : Z) : list nat :=
  match width with
  | O => []
  | S w => pad_digits w (n / 10) ++ [Z.to_nat (n mod 10)]
  end.

Definition padded (width : nat) (n : Z) : string := digits_string (pad_digits width n).

(** White space and line terminators that [String.prototype.trim] and
    [parseInt] skip, among the code units a [string] here can hold. *)
Definition StrWhiteSpaceChar (c : ascii) : bool :=
  let n := nat_of_ascii c in
  Nat.eqb n 9 || Nat.eqb n 10 || Nat.eqb n 11 || Nat.eqb n 12 || Nat.eqb n 13
  || Nat.eqb n 32 || Nat.eqb n 160.

Fixpoint trimStart (s : string) : string :=
  match s with
  | String c r => if StrWhiteSpaceChar c then trimStart r else s
  | EmptyString => EmptyString
  end.

Definition trimEnd (s : string) : string := String.rev (trimStart (String.rev s)).

Definition trim (s : string) : string := trimEnd (trimStart s).

(** *** [Number::toString] (radix 10) and [ToString] *)

Definition sign_prefix (neg : bool) : string := if neg then "-" else "".

Definition Number_toString (x : JsNumber) : string :=
  match x with
  | NaN => "NaN"
  | Zero _ => "0"
  | Infinity neg => sign_prefix neg +:+ "Infinity"
  | Finite neg ds n =>
      let k := Z.of_nat (length ds) in
      sign_prefix neg +:+
      (if (-5 <=? n) && (n <=? 21) then
         if k <=? n then digits_string ds +:+ zeros (Z.to_nat (n - k))
         else if 0 <? n then
           digits_string (take (Z.to_nat n) ds) +:+ "." +:+ digits_string (drop (Z.to_nat n) ds)
         else "0." +:+ zeros (Z.to_nat (- n)) +:+ digits_string ds
       else
         let e := n - 1 in
         let exponent := (if e <? 0 then "-" else "+") +:+ decimal (Z.abs e) in
         match ds with
         | [] => ""
         | [d] => digits_string [d] +:+ "e" +:+ exponent
         | d :: r => digits_string [d] +:+ "." +:+ digits_string r +:+ "e" +:+ exponent
         end)
  end.

(** The object has a property [toString] of its own.  It hides
    [Object.prototype.toString], and its value, a JSON value, cannot be
    called. *)
Definition own_toString (fields : list (string * JsValue)) : bool :=
  existsb (λ f, String.eqb f.1 "toString") fields.

(** [String(v)]: arrays join their elements with commas, [null] and
    [undefined] elements printing as nothing; an object prints as
    [[object Object]], unless it has a [toString] of its own: then
    neither that nor [valueOf] gives a primitive and the conversion
    throws. *)
Definition cannot_convert : JsError :=
  TypeError "Cannot convert object to primitive value".

Fixpoint ToString (v : JsValue) : Completion string :=
  match v with
  | JUndefined => Return "undefined"
  | JNull => Return "null"
  | JBool b => Return (if b then "true" else "false")
  | JNum x => Return (Number_toString x)
  | JStr s => Return s
  | JArr xs =>
      (fix join (l : list JsValue) : Completion string :=
         match l with
         | [] => Return ""
         | x :: r =>
             let* sx := match x with JUndefined | JNull => Return "" | _ => ToString x end in
             match r with
             | [] => Return sx
             | _ => let* sr := join r in Return (sx +:+ "," +:+ sr)
             end
         end) xs
  | JObj fields =>
      if own_toString fields then Throw cannot_convert else Return "[object Object]"
  | JNative name => Return ("function " +:+ name +:+ "() { [native code] }")
  end.

(** *** [Number.parseInt(v, 10)] *)

(** The number [parseInt] returns: [NaN], an infinity, or the double
    nearest to an integer [z]; [IntFinite z] stands for that double, which
    is [z] itself up to [2^53] and compares with such bounds as [z] does
    (rounding is monotone).  Both zeros are [IntFinite 0]. *)
Inductive IntResult : Type :=
  | IntNaN
  | IntInfinity (neg : bool)
  | IntFinite (z : Z).

(** Integers from here on round to an infinite double: half way between
    the largest double and [2^1024]. *)
Definition double_overflow : Z := 2 ^ 1024 - 2 ^ 970.

Fixpoint radix10_prefix (s : string) : list nat :=
  match s with
  | String c r =>
      match digit_of_char c with
      | Some d => d :: radix10_prefix r
      | None => []
      end
  | EmptyString => []
  end.

Definition strip_sign (s : string) : bool * string :=
  match s with
  | String "-" r => (true, r)
  | String "+" r => (false, r)
  | _ => (false, s)
  end.

Definition parseInt_string (input : string) : IntResult :=
  let '(neg, rest) := strip_sign (trimStart input) in
  match radix10_prefix rest with
  | [] => IntNaN
  | ds =>
      let mathInt := digits_value ds in
      if double_overflow <=? mathInt then IntInfinity neg
      else IntFinite (if neg then - mathInt else mathInt)
  end.

Definition parseInt10 (v : JsValue) : Completion IntResult :=
  let* inputString := ToString v in
  Return (parseInt_string inputString).

(** *** Truthiness, [typeof], [Array.isArray], property reads *)

Definition truthy (v : JsValue) : bool :=
  match v with
  | JUndefined | JNull => false
  | JBool b => b
  | JNum NaN | JNum (Zero _) => false
  | JNum _ => true
  | JStr s => negb (String.eqb s "")
  | JArr _ | JObj _ | JNative _ => true
  end.

(** [a || b] *)
Definition js_or (a b : JsValue) : JsValue := if truthy a then a else b.

Definition is_string (v : JsValue) : bool := match v with JStr _ => true | _ => false end.
Definition is_number (v : JsValue) : bool := match v with JNum _ => true | _ => false end.
Definition isArray (v : JsValue) : bool := match v with JArr _ => true | _ => false end.

(** How an error message names [null] and [undefined]. *)
Definition nullish_name (v : JsValue) : string :=
  match v with
  | JNull => "null"
  | _ => "undefined"
  end.

Fixpoint assoc (p : string) (fields : list (string * JsValue)) : JsValue :=
  match fields with
  | [] => JUndefined
  | (q, v) :: r => if String.eqb p q then v else assoc p r
  end.

(** [v.p] for the property names the code reads.  Reading a property of
    [null] or [undefined] throws; an array answers [entries] with the
    built-in method; nothing else but an object has one of the names. *)
Definition get (v : JsValue) (p : string) : Completion JsValue :=
  match v with
  | JUndefined | JNull =>
      Throw (TypeError ("Cannot read properties of " +:+ nullish_name v
                        +:+ " (reading '" +:+ p +:+ "')"))
  | JObj fields => Return (assoc p fields)
  | JArr _ => Return (if String.eqb p "entries" then JNative "entries" else JUndefined)
  | _ => Return JUndefined
  end.

(** [v?.p] *)
Definition get_opt (v : JsValue) (p : string) : JsValue :=
  match get v p with
  | Return x => x
  | Throw _ => JUndefined
  end.

(** [Error.prototype.toString] *)
Definition Error_toString (e : JsError) : string :=
  if String.eqb (err_name e) "" then err_message e
  else if String.eqb (err_message e) "" then err_name e
  else err_name e +:+ ": " +:+ err_message e.

(** [e?.message || String(e)] *)
Definition error_text (e : JsError) : string :=
  if negb (String.eqb (err_message e) "") then err_message e else Error_toString e.

(** *** Doubles and their arithmetic *)

(** A double: [DFin neg m e] is [± m × 2^e], in the form the format
    stores it: [2^52 ≤ m < 2^53] and [-1074 ≤ e ≤ 971], or, for a
    subnormal, [0 < m < 2^52] and [e = -1074]. *)
Inductive Double : Type :=
  | DNaN
  | DInf (neg : bool)
  | DZero (neg : bool)
  | DFin (neg : bool) (m : Z) (e : Z).

(** [num / den] rounded to the nearest integer, a tie to the even one. *)
Definition round_half_even (num den : Z) : Z :=
  let m := num / den in
  let r := num mod den in
  if 2 * r <? den then m
  else if den <? 2 * r then m + 1
  else if Z.even m then m else m + 1.

(** The integer part of the binary logarithm of [p / q]. *)
Definition floor_log2 (p q : Z) : Z :=
  let e := Z.log2 p - Z.log2 q in
  if (if 0 <=? e then q * 2 ^ e <=? p else q <=? p * 2 ^ (- e)) then e else e - 1.

(** The double nearest to [± p / q] (round to nearest, ties to even), for
    [0 ≤ p] and [0 < q]. *)
Definition round_double (neg : bool) (p q : Z) : Double :=
  if p <=? 0 then DZero neg
  else
    let e := Z.max (floor_log2 p q - 52) (-1074) in
    let m := if 0 <=? e then round_half_even p (q * 2 ^ e)
             else round_half_even (p * 2 ^ (- e)) q in
    if m =? 0 then DZero neg
    else if m =? 2 ^ 53 then (if 971 <=? e then DInf neg else DFin neg (2 ^ 52) (e + 1))
    else if 971 <? e then DInf neg
    else DFin neg m e.

(** The double nearest to [± p × 2^e]. *)
Definition round_scaled (neg : bool) (p e : Z) : Double :=
  if 0 <=? e then round_double neg (p * 2 ^ e) 1 else round_double neg p (2 ^ (- e)).

(** The double nearest to [± p × 10^e]. *)
Definition round_decimal (neg : bool) (p e : Z) : Double :=
  if 0 <=? e then round_double neg (p * 10 ^ e) 1 else round_double neg p (10 ^ (- e)).

Definition double_of_Z (z : Z) : Double := round_double (z <? 0) (Z.abs z) 1.

Definition isFinite (x : Double) : bool :=
  match x with
  | DNaN | DInf _ => false
  | DZero _ | DFin _ _ _ => true
  end.

(** [a * b] *)
Definition dmul (a b : Double) : Double :=
  match a, b with
  | DNaN, _ | _, DNaN => DNaN
  | DInf _, DZero _ | DZero _, DInf _ => DNaN
  | DInf s, DInf t | DInf s, DFin t _ _ | DFin s _ _, DInf t => DInf (xorb s t)
  | DZero s, DZero t | DZero s, DFin t _ _ | DFin s _ _, DZero t => DZero (xorb s t)
  | DFin s m e, DFin t n f => round_scaled (xorb s t) (m * n) (e + f)
  end.

(** [a / b] *)
Definition ddiv (a b : Double) : Double :=
  match a, b with
  | DNaN, _ | _, DNaN => DNaN
  | DInf _, DInf _ | DZero _, DZero _ => DNaN
  | DInf s, DZero t | DInf s, DFin t _ _ | DFin s _ _, DZero t => DInf (xorb s t)
  | DZero s, DInf t | DZero s, DFin t _ _ | DFin s _ _, DInf t => DZero (xorb s t)
  | DFin s m e, DFin t n f =>
      if f <=? e then round_double (xorb s t) (m * 2 ^ (e - f)) n
      else round_double (xorb s t) m (n * 2 ^ (f - e))
  end.

(** [a + b] *)
Definition dadd (a b : Double) : Double :=
  match a, b with
  | DNaN, _ | _, DNaN => DNaN
  | DInf s, DInf t => if Bool.eqb s t then DInf s else DNaN
  | DInf s, _ | _, DInf s => DInf s
  | DZero s, DZero t => DZero (s && t)
  | DZero _, x | x, DZero _ => x
  | DFin s m e, DFin t n f =>
      let g := Z.min e f in
      let sum := (if s then - m else m) * 2 ^ (e - g) + (if t then - n else n) * 2 ^ (f - g) in
      if sum =? 0 then DZero false else round_scaled (sum <? 0) (Z.abs sum) g
  end.

(** [Math.round(x)]: the nearest integer, a tie going up. *)
Definition Math_round (x : Double) : Double :=
  match x with
  | DFin neg m e =>
      if 0 <=? e then x
      else
        let r := (2 * (if neg then - m else m) + 2 ^ (- e)) / 2 ^ (1 - e) in
        if r =? 0 then DZero neg else double_of_Z r
  | _ => x
  end.

(** [Math.max(0, x)] *)
Definition Math_max_0 (x : Double) : Double :=
  match x with
  | DNaN => DNaN
  | DInf false | DFin false _ _ => x
  | DInf true | DFin true _ _ | DZero _ => DZero false
  end.

(** [2 ** n] for a natural number [n]. *)
Definition pow2 (n : nat) : Double := round_scaled false 1 (Z.of_nat n).

(** *** [StringToNumber] and [ToNumber] *)

(** The longest run of decimal digits a string begins with, and the rest. *)
Fixpoint span_digits (s : string) : list nat * string :=
  match s with
  | String c r =>
      match digit_of_char c with
      | Some d => let '(ds, rest) := span_digits r in (d :: ds, rest)
      | None => ([], s)
      end
  | EmptyString => ([], s)
  end.

(** The value of a digit in a radix up to 16. *)
Definition radix_digit (radix : nat) (c : ascii) : option nat :=
  let n := nat_of_ascii c in
  let d := if Nat.leb 48 n && Nat.leb n 57 then Some (n - 48)%nat
           else if Nat.leb 97 n && Nat.leb n 102 then Some (n - 87)%nat
           else if Nat.leb 65 n && Nat.leb n 70 then Some (n - 55)%nat
           else None in
  match d with
  | Some d => if Nat.ltb d radix then Some d else None
  | None => None
  end.

(** The value of a string of digits in [radix], [None] when another
    character is among them. *)
Fixpoint radix_value (radix : nat) (s : string) (acc : Z) : option Z :=
  match s with
  | EmptyString => Some acc
  | String c r =>
      match radix_digit radix c with
      | Some d => radix_value radix r (Z.of_nat radix * acc + Z.of_nat d)
      | None => None
      end
  end.

(** [0x], [0o] and [0b] literals: the digits after the prefix. *)
Definition nondecimal_literal (radix : nat) (digits : string) : Double :=
  match digits with
  | EmptyString => DNaN
  | _ =>
      match radix_value radix digits 0 with
      | Some z => double_of_Z z
      | None => DNaN
      end
  end.

(** The exponent part of a decimal literal, [Some 0] when there is none,
    [None] when what follows the digits is no exponent part. *)
Definition exponent_part (s : string) : option Z :=
  match s with
  | EmptyString => Some 0
  | String c r =>
      if Ascii.eqb c "e" || Ascii.eqb c "E" then
        let '(neg, r') := strip_sign r in
        match span_digits r' with
        | (d :: ds, EmptyString) =>
            Some (if neg then - digits_value (d :: ds) else digits_value (d :: ds))
        | _ => None
        end
      else None
  end.

(** An unsigned decimal literal: digits, a point, digits, an exponent
    part, with a digit before or after the point. *)
Definition decimal_literal (neg : bool) (s : string) : Double :=
  let '(ip, r1) := span_digits s in
  let '(fp, r2) := match r1 with
                   | String "." r => span_digits r
                   | _ => ([], r1)
                   end in
  match ip ++ fp with
  | [] => DNaN
  | ds =>
      match exponent_part r2 with
      | Some ex => round_decimal neg (digits_value ds) (ex - Z.of_nat (length fp))
      | None => DNaN
      end
  end.

(** [StringToNumber]: the number a string stands for, [NaN] when it is
    no numeric literal; the empty string and white space stand for 0. *)
Definition StringToNumber (s : string) : Double :=
  let t := trim s in
  match t with
  | EmptyString => DZero false
  | String "0" (String c r) =>
      if Ascii.eqb c "x" || Ascii.eqb c "X" then nondecimal_literal 16 r
      else if Ascii.eqb c "o" || Ascii.eqb c "O" then nondecimal_literal 8 r
      else if Ascii.eqb c "b" || Ascii.eqb c "B" then nondecimal_literal 2 r
      else decimal_literal false t
  | _ =>
      let '(neg, u) := strip_sign t in
      if String.eqb u "Infinity" then DInf neg else decimal_literal neg u
  end.

(** The double a number in decimal form is. *)
Definition double_of_number (x : JsNumber) : Double :=
  match x with
  | NaN => DNaN
  | Infinity neg => DInf neg
  | Zero neg => DZero neg
  | Finite neg ds n => round_decimal neg (digits_value ds) (n - Z.of_nat (length ds))
  end.

(** [ToNumber]: an object or an array goes through its string form. *)
Definition ToNumber (v : JsValue) : Completion Double :=
  match v with
  | JUndefined => Return DNaN
  | JNull => Return (DZero false)
  | JBool b => Return (if b then double_of_Z 1 else DZero false)
  | JNum x => Return (double_of_number x)
  | JStr s => Return (StringToNumber s)
  | JArr _ | JObj _ | JNative _ =>
      let* s := ToString v in
      Return (StringToNumber s)
  end.

(** *** [Date]: time values and [toISOString] *)

(** Largest magnitude, in milliseconds, [TimeClip] lets through. *)
Definition max_time_value : Z := 8640000000000000.

Definition TimeClip (t : Z) : option Z :=
  if Z.abs t <=? max_time_value then Some t else None.

(** Year, month and day of the day number [z] (days since 1970-01-01) in
    the proleptic Gregorian calendar. *)
Definition civil_from_days (z : Z) : Z * Z * Z :=
  let z := z + 719468 in
  let era := z / 146097 in
  let doe := z - era * 146097 in
  let yoe := (doe - doe / 1460 + doe / 36524 - doe / 146096) / 365 in
  let doy := doe - (365 * yoe + yoe / 4 - yoe / 100) in
  let mp := (5 * doy + 2) / 153 in
  let d := doy - (153 * mp + 2) / 5 + 1 in
  let m := if mp <? 10 then mp + 3 else mp - 9 in
  let y := yoe + era * 400 in
  (if m <=? 2 then y + 1 else y, m, d).

Definition year_string (y : Z) : string :=
  if (0 <=? y) && (y <=? 9999) then padded 4 y
  else (if y <? 0 then "-" else "+") +:+ padded 6 (Z.abs y).

(** [new Date(tv).toISOString()] for a valid time value [tv]. *)
Definition toISOString (tv : Z) : string :=
  let day := tv / 86400000 in
  let ms := tv mod 86400000 in
  let '(y, m, d) := civil_from_days day in
  year_string y +:+ "-" +:+ padded 2 m +:+ "-" +:+ padded 2 d +:+ "T"
  +:+ padded 2 (ms / 3600000) +:+ ":" +:+ padded 2 (ms / 60000 mod 60) +:+ ":"
  +:+ padded 2 (ms / 1000 mod 60) +:+ "." +:+ padded 3 (ms mod 1000) +:+ "Z".


(** The time value of [new Date(x)] for a number [x], [None] for an
    invalid date: the number cut to an integer, when it is finite and
    within the range.  (A double beyond [2^52] is an integer, so the
    integer part is in the range exactly when the number is.) *)
Definition time_value (x : Double) : option Z :=
  match x with
  | DNaN | DInf _ => None
  | DZero _ => Some 0
  | DFin neg m e =>
      let t := if 0 <=? e then m * 2 ^ e else m / 2 ^ (- e) in
      TimeClip (if neg then - t else t)
  end.

(** The time value of [new Date(ts * 1000)]; the product converts [ts]
    to a number, which throws for a value that has no string form. *)
Definition scaled_time_value (ts : JsValue) : Completion (option Z) :=
  let* x := ToNumber ts in
  Return (time_value (dmul x (double_of_Z 1000))).

(** The number with the integer value [z]. *)
Fixpoint strip_zeros (fuel : nat) (m : Z) : Z :=
  match fuel with
  | O => m
  | S f => if (m mod 10 =? 0) && negb (m =? 0) then strip_zeros f (m / 10) else m
  end.

Definition digits_of (m : Z) : list nat := nat_digits (S (Z.to_nat (Z.log2 m))) m [].

Definition number_of_Z (z : Z) : JsNumber :=
  if z =? 0 then Zero false
  else
    let m := Z.abs z in
    Finite (z <? 0) (digits_of (strip_zeros (Z.to_nat (Z.log2 m)) m))
           (Z.of_nat (length (digits_of m))).

End Js.

(** ** [server/youtubeDownloader.js] *)
Module Downloader.
Import Js.

(** The world outside the process, for one job: what the external calls
    answer.  Calls in the batch loop are told apart by the index of the
    unit they are made for.
    - [ensureYtDlp]: the call of [ensureYtDlp] that [listVideoIds]
      awaits; the path it resolves to goes to the wrapper only.
    - [exec_listing url max]: the flat-playlist run of yt-dlp on [url]
      with [--playlist-end max], and [JSON.parse] of its output; either
      of them throwing is a [Throw].
    - [exec_meta i videoId]: [ensureYtDlp], the metadata run on one
      video, and [JSON.parse] of its output.
    - [fetch_transcript i videoId]: [YoutubeTranscript.fetchTranscript]. *)
Record World : Type := {
  ensureYtDlp : Completion unit;
  exec_listing : string → Z → Completion JsValue;
  exec_meta : nat → string → Completion JsValue;
  fetch_transcript : nat → string → Completion JsValue;
}.

Definition clampInt (n : JsValue) (min max fallback : Z) : Completion Z :=
  let* x := parseInt10 n in
  Return match x with
         | IntFinite x => Z.max min (Z.min max x)
         | IntNaN | IntInfinity _ => fallback
         end.

Fixpoint includes (sub s : string) : bool :=
  String.prefix sub s
  || match s with
     | String _ r => includes sub r
     | EmptyString => false
     end.

(** [u.replace(/\/$/, '')] *)
Fixpoint strip_final_slash (s : string) : string :=
  match s with
  | EmptyString => EmptyString
  | String c r =>
      match r with
      | EmptyString => if Ascii.eqb c "/" then EmptyString else s
      | _ => String c (strip_final_slash r)
      end
  end.

Definition ensureVideosTabUrl (channelUrl : JsValue) : Completion string :=
  let* s := ToString (js_or channelUrl (JStr "")) in
  let u := trim s in
  Return (if String.eqb u "" then u
          else if includes "/videos" u then u
          else strip_final_slash u +:+ "/videos").

Definition normalizeVideoUrl (videoId : string) : string :=
  "https://www.youtube.com/watch?v=" +:+ videoId.

Definition parseUploadDate (uploadDate : JsValue) : JsValue :=
  match uploadDate with
  | JStr s =>
      if negb (Nat.eqb (String.length s) 8) then JNull
      else
        let y := String.substring 0 4 s in
        let m := String.substring 4 2 s in
        let d := String.substring 6 2 s in
        JStr (y +:+ "-" +:+ m +:+ "-" +:+ d)
  | _ => JNull
  end.

(** One transcript segment: [typeof t.text === 'string' ? t.text.trim() : ''] *)
Definition segment_text (t : JsValue) : Completion string :=
  let* text := get t "text" in
  Return (match text with JStr s => trim s | _ => "" end).

Fixpoint map_segments (items : list JsValue) : Completion (list string) :=
  match items with
  | [] => Return []
  | t :: r =>
      let* s := segment_text t in
      let* rest := map_segments r in
      Return (s :: rest)
  end.

Fixpoint join (sep : string) (l : list string) : string :=
  match l with
  | [] => ""
  | [s] => s
  | s :: r => s +:+ sep +:+ join sep r
  end.

Definition fetchTranscriptBestEffort (w : World) (i : nat) (videoId : string) : JsValue :=
  match fetch_transcript w i videoId with
  | Throw _ => JNull
  | Return items =>
      match items with
      | JArr [] => JNull
      | JArr xs =>
          match map_segments xs with
          | Throw _ => JNull
          | Return texts => JStr (join " " (filter (λ s, s ≠ "") texts))
          end
      | _ => JNull
      end
  end.

(** [e && typeof e.id === 'string' ? e.id : null] *)
Definition entry_id (e : JsValue) : JsValue :=
  if truthy e then
    match get_opt e "id" with
    | JStr s => JStr s
    | _ => JNull
    end
  else JNull.

(** [.filter(Boolean)] on the mapped entries, which are strings or null. *)
Fixpoint truthy_strings (l : list JsValue) : list string :=
  match l with
  | [] => []
  | JStr s :: r => if truthy (JStr s) then s :: truthy_strings r else truthy_strings r
  | _ :: r => truthy_strings r
  end.

Definition listVideoIds (w : World) (channelUrl maxVideos : JsValue) : Completion (list string) :=
  let* max := clampInt maxVideos 1 100 10 in
  let* _ := ensureYtDlp w in
  let* url := ensureVideosTabUrl channelUrl in
  let* parsed := exec_listing w url max in
  let* parsed_entries := get parsed "entries" in
  let entries := match parsed_entries with JArr xs => xs | _ => [] end in
  Return (take (Z.to_nat max) (truthy_strings (map entry_id entries))).

(** One result record.  [error] is [JUndefined] on a record that has no
    such property. *)
Record VideoItem : Type := {
  video_id : JsValue;
  title : JsValue;
  description : JsValue;
  transcript : JsValue;
  duration_seconds : JsValue;
  duration_iso : JsValue;
  release_date : JsValue;
  view_count : JsValue;
  like_count : JsValue;
  comment_count : JsValue;
  video_url : JsValue;
  thumbnail_url : JsValue;
  error : JsValue;
}.

(** [parseUploadDate(v.upload_date) ||
     (v.timestamp ? new Date(v.timestamp * 1000).toISOString() : null)] *)
Definition uploadDate_of (v : JsValue) : Completion JsValue :=
  let* upload_date := get v "upload_date" in
  let parsed := parseUploadDate upload_date in
  if truthy parsed then Return parsed
  else
    let* timestamp := get v "timestamp" in
    if truthy timestamp then
      let* tv := scaled_time_value timestamp in
      match tv with
      | Some tv => Return (JStr (toISOString tv))
      | None => Throw (RangeError "Invalid time value")
      end
    else Return JNull.

Definition thumb_of (v : JsValue) : Completion JsValue :=
  let* thumbnail := get v "thumbnail" in
  if truthy thumbnail then Return thumbnail
  else
    let* thumbnails := get v "thumbnails" in
    Return (match thumbnails with
            | JArr xs =>
                match last xs with
                | Some t => get_opt t "url"
                | None => JNull
                end
            | _ => JNull
            end).

Definition number_or_null (x : JsValue) : JsValue := if is_number x then x else JNull.
Definition string_or_null (x : JsValue) : JsValue := if is_string x then x else JNull.

Definition fetchVideoMeta (w : World) (i : nat) (videoId : string) : Completion VideoItem :=
  let url := normalizeVideoUrl videoId in
  let* v := exec_meta w i videoId in
  let* thumb := thumb_of v in
  let* uploadDate := uploadDate_of v in
  let* id := get v "id" in
  let* v_title := get v "title" in
  let* v_description := get v "description" in
  let* duration := get v "duration" in
  let* duration_string := get v "duration_string" in
  let* v_view_count := get v "view_count" in
  let* v_like_count := get v "like_count" in
  let* v_comment_count := get v "comment_count" in
  let* webpage_url := get v "webpage_url" in
  Return {|
    video_id := js_or id (JStr videoId);
    title := js_or v_title (JStr "");
    description := js_or v_description (JStr "");
    transcript := JNull;
    duration_seconds := number_or_null duration;
    duration_iso := string_or_null duration_string;
    release_date := uploadDate;
    view_count := number_or_null v_view_count;
    like_count := number_or_null v_like_count;
    comment_count := number_or_null v_comment_count;
    video_url := js_or webpage_url (JStr url);
    thumbnail_url := js_or thumb JNull;
    error := JUndefined;
  |}.

Definition set_transcript (item : VideoItem) (t : JsValue) : VideoItem :=
  {| video_id := video_id item; title := title item; description := description item;
     transcript := t;
     duration_seconds := duration_seconds item; duration_iso := duration_iso item;
     release_date := release_date item; view_count := view_count item;
     like_count := like_count item; comment_count := comment_count item;
     video_url := video_url item; thumbnail_url := thumbnail_url item;
     error := error item |}.

(** The record pushed in the [catch] branch of the loop. *)
Definition failure_record (videoId : string) (err : string) : VideoItem :=
  {| video_id := JStr videoId;
     title := JStr "";
     description := JStr "";
     transcript := JNull;
     duration_seconds := JNull;
     duration_iso := JNull;
     release_date := JNull;
     view_count := JNull;
     like_count := JNull;
     comment_count := JNull;
     video_url := JStr (normalizeVideoUrl videoId);
     thumbnail_url := JNull;
     error := JStr err |}.

(** The argument of [onProgress]. *)
Record Progress : Type := {
  p_completed : Z;
  p_total : Z;
  p_video_id : string;
  p_error : JsValue;
  p_item : option VideoItem;
}.

(** After [await fetchTranscriptBestEffort]: the record is pushed and
    reported. *)
Definition unit_success (total : Z) (i : nat) (videoId : string) (item : VideoItem)
    (t : JsValue) : VideoItem * Progress :=
  let item := set_transcript item t in
  (item,
   {| p_completed := Z.of_nat i + 1; p_total := total; p_video_id := videoId;
      p_error := JNull; p_item := Some item |}).

(** The [catch] branch. *)
Definition unit_failure (total : Z) (i : nat) (videoId : string) (e : JsError)
    : VideoItem * Progress :=
  let err := error_text e in
  (failure_record videoId err,
   {| p_completed := Z.of_nat i + 1; p_total := total; p_video_id := videoId;
      p_error := JStr err; p_item := None |}).

(** The body of the loop for the unit at index [i]: the record pushed
    onto [results] and the progress reported. *)
Definition process_unit (w : World) (total : Z) (i : nat) (videoId : string)
    : VideoItem * Progress :=
  match fetchVideoMeta w i videoId with
  | Return item => unit_success total i videoId item (fetchTranscriptBestEffort w i videoId)
  | Throw e => unit_failure total i videoId e
  end.

(** The [for] loop from index [i] on, [rest] being [ids] from there. *)
Fixpoint fetch_loop (w : World) (total : Z) (i : nat) (rest : list string)
    (results : list VideoItem) (reported : list Progress)
    : list VideoItem * list Progress :=
  match rest with
  | [] => (results, reported)
  | videoId :: rest' =>
      let '(item, p) := process_unit w total i videoId in
      fetch_loop w total (S i) rest' (results ++ [item]) (reported ++ [p])
  end.

(** [downloadChannelData]: what it returns, [{ total, results }], or
    throws, and the calls of [onProgress] it made, in order. *)
Definition downloadChannelData (w : World) (channelUrl maxVideos : JsValue)
    : Completion (Z * list VideoItem) * list Progress :=
  match listVideoIds w channelUrl maxVideos with
  | Throw e => (Throw e, [])
  | Return ids =>
      let total := Z.of_nat (length ids) in
      let '(results, reported) := fetch_loop w total 0 ids [] [] in
      (Return (total, results), reported)
  end.

End Downloader.

(** ** The YouTube job endpoints of [server/index.js] *)
Module Server.
Import Js.

Inductive Status : Type := Running | Done | Error.

(** A value of the [youtubeJobs] map. *)
Record Job : Type := {
  status : Status;
  total : Z;
  completed : Z;
  results : list Downloader.VideoItem;
  createdAt : string;
  error : option string;
  channelUrl : string;
  maxVideos : Z;
}.

(** The four event names, and the [data] objects sent with them. *)
Inductive EventName : Type := status_ev | progress_ev | done_ev | error_ev.

Inductive Data : Type :=
  | Starting
  | Snapshot (st : Status) (completed total : Z)
  | ProgressData (p : Downloader.Progress)
  | DoneData (jobId : string) (total : Z)
  | ErrorData (msg : string).

(** The response object of one stream request: the job id its handler
    closed over, the events written to it, and whether [res.end()] was
    called.  Responses are told apart by a number. *)
Record Response : Type := {
  req_jobId : string;
  written : list (EventName * Data);
  ended : bool;
}.

(** Where the asynchronous download of a job is suspended, with the local
    variables it resumes with. *)
Inductive Task : Type :=
  | AwaitListing (channelUrl : string) (max : Z)
  | AwaitMeta (ids : list string) (i : nat) (results : list Downloader.VideoItem)
  | AwaitTranscript (ids : list string) (i : nat) (results : list Downloader.VideoItem)
      (item : Downloader.VideoItem)
  | Settled.

Record State : Type := {
  youtubeJobs : gmap string Job;
  youtubeStreams : gmap string (list nat);
  responses : gmap nat Response;
  tasks : gmap string Task;
}.

Definition init : State :=
  {| youtubeJobs := ∅; youtubeStreams := ∅; responses := ∅; tasks := ∅ |}.

Definition set_jobs (f : gmap string Job → gmap string Job) (σ : State) : State :=
  {| youtubeJobs := f (youtubeJobs σ); youtubeStreams := youtubeStreams σ;
     responses := responses σ; tasks := tasks σ |}.

Definition set_streams (f : gmap string (list nat) → gmap string (list nat)) (σ : State) : State :=
  {| youtubeJobs := youtubeJobs σ; youtubeStreams := f (youtubeStreams σ);
     responses := responses σ; tasks := tasks σ |}.

Definition set_responses (f : gmap nat Response → gmap nat Response) (σ : State) : State :=
  {| youtubeJobs := youtubeJobs σ; youtubeStreams := youtubeStreams σ;
     responses := f (responses σ); tasks := tasks σ |}.

Definition set_task (jobId : string) (t : Task) (σ : State) : State :=
  {| youtubeJobs := youtubeJobs σ; youtubeStreams := youtubeStreams σ;
     responses := responses σ; tasks := <[jobId := t]> (tasks σ) |}.

(** [res.write] of one event; nothing reaches a response that was ended. *)
Definition write (m : EventName * Data) (res : Response) : Response :=
  if ended res then res
  else {| req_jobId := req_jobId res; written := written res ++ [m]; ended := ended res |}.

Definition end_response (res : Response) : Response :=
  {| req_jobId := req_jobId res; written := written res; ended := true |}.

Definition sseSend (r : nat) (event : EventName) (data : Data) (σ : State) : State :=
  set_responses (alter (write (event, data)) r) σ.

(** [Set.prototype.add] and [delete], the set kept in insertion order. *)
Definition set_add (r : nat) (set : list nat) : list nat :=
  if decide (r ∈ set) then set else set ++ [r].

Definition set_delete (r : nat) (set : list nat) : list nat :=
  filter (λ x, x ≠ r) set.

Definition attachStream (jobId : string) (r : nat) (σ : State) : State :=
  let σ :=
    match youtubeStreams σ !! jobId with
    | None => set_streams (insert jobId []) σ
    | Some _ => σ
    end in
  set_streams (alter (set_add r) jobId) σ.

Definition broadcast (jobId : string) (event : EventName) (data : Data) (σ : State) : State :=
  match youtubeStreams σ !! jobId with
  | None => σ
  | Some set => foldl (λ s r, sseSend r event data s) σ set
  end.

Definition closeStreams (jobId : string) (σ : State) : State :=
  match youtubeStreams σ !! jobId with
  | None => σ
  | Some set =>
      set_streams (delete jobId)
        (foldl (λ s r, set_responses (alter end_response r) s) σ set)
  end.

(** The assignments to a job: in the [onProgress] callback, after the
    download returned, and in the [catch] block. *)
Definition job_progress (job : Job) (p : Downloader.Progress) : Job :=
  {| status := status job; total := Downloader.p_total p;
     completed := Downloader.p_completed p; results := results job;
     createdAt := createdAt job; error := error job;
     channelUrl := channelUrl job; maxVideos := maxVideos job |}.

Definition job_done (job : Job) (total' : Z) (results' : list Downloader.VideoItem) : Job :=
  {| status := Done; total := total'; completed := total'; results := results';
     createdAt := createdAt job; error := error job;
     channelUrl := channelUrl job; maxVideos := maxVideos job |}.

Definition job_failed (job : Job) (e : JsError) : Job :=
  {| status := Error; total := total job; completed := completed job;
     results := results job; createdAt := createdAt job; error := Some (error_text e);
     channelUrl := channelUrl job; maxVideos := maxVideos job |}.

(** The [onProgress] callback the job handler passes. *)
Definition onProgress (jobId : string) (p : Downloader.Progress) (σ : State) : State :=
  match youtubeJobs σ !! jobId with
  | None => σ
  | Some job =>
      broadcast jobId progress_ev (ProgressData p)
        (set_jobs (insert jobId (job_progress job p)) σ)
  end.

(** After [downloadChannelData] returned [{ total, results }]: the rest of
    the [try] block, then [finally]. *)
Definition on_return (jobId : string) (total' : Z) (results' : list Downloader.VideoItem)
    (σ : State) : State :=
  let σ :=
    match youtubeJobs σ !! jobId with
    | None => σ
    | Some job =>
        broadcast jobId done_ev (DoneData jobId total')
          (set_jobs (insert jobId (job_done job total' results')) σ)
    end in
  set_task jobId Settled (closeStreams jobId σ).

(** After [downloadChannelData] threw [e]: [catch], then [finally]. *)
Definition on_throw (jobId : string) (e : JsError) (σ : State) : State :=
  let σ :=
    match youtubeJobs σ !! jobId with
    | None => σ
    | Some job => set_jobs (insert jobId (job_failed job e)) σ
    end in
  let σ := broadcast jobId error_ev (ErrorData (error_text e)) σ in
  set_task jobId Settled (closeStreams jobId σ).

(** The head of the [for] loop: suspend on the next fetch, or return. *)
Definition loop_head (jobId : string) (ids : list string) (i : nat)
    (results' : list Downloader.VideoItem) (σ : State) : State :=
  if decide (i < length ids)%nat then set_task jobId (AwaitMeta ids i results') σ
  else on_return jobId (Z.of_nat (length ids)) results' σ.

(** The end of one turn of the loop: push, report, go on. *)
Definition after_unit (jobId : string) (ids : list string) (i : nat)
    (results' : list Downloader.VideoItem)
    (pushed : Downloader.VideoItem * Downloader.Progress) (σ : State) : State :=
  loop_head jobId ids (S i) (results' ++ [pushed.1]) (onProgress jobId pushed.2 σ).

(** The download of job [jobId] runs on from where it is suspended, to
    its next suspension or to its end.  The awaits inside one external
    call are taken as one suspension: nothing of the state changes between
    them. *)
Definition resume (W : string → Downloader.World) (jobId : string) (σ : State) : option State :=
  let w := W jobId in
  match tasks σ !! jobId with
  | Some (AwaitListing url max) =>
      Some match Downloader.listVideoIds w (JStr url) (JNum (number_of_Z max)) with
           | Throw e => on_throw jobId e σ
           | Return ids => loop_head jobId ids 0 [] σ
           end
  | Some (AwaitMeta ids i results') =>
      videoId ← ids !! i;
      Some match Downloader.fetchVideoMeta w i videoId with
           | Return item => set_task jobId (AwaitTranscript ids i results' item) σ
           | Throw e =>
               after_unit jobId ids i results'
                 (Downloader.unit_failure (Z.of_nat (length ids)) i videoId e) σ
           end
  | Some (AwaitTranscript ids i results' item) =>
      videoId ← ids !! i;
      Some (after_unit jobId ids i results'
              (Downloader.unit_success (Z.of_nat (length ids)) i videoId item
                 (Downloader.fetchTranscriptBestEffort w i videoId)) σ)
  | Some Settled | None => None
  end.

(** The job a request creates. *)
Definition new_job (url : string) (max : Z) (now : string) : Job :=
  {| status := Running; total := max; completed := 0; results := [];
     createdAt := now; error := None; channelUrl := url; maxVideos := max |}.

(** [POST /api/youtube/jobs] with the parsed body, the id the handler
    generates and the time it reads: up to the first suspension of the
    download it starts.  A request without a usable [channelUrl] is
    answered 400 and changes nothing; nor does one whose [maxVideos]
    makes [clampInt] throw, which the handler catches and answers 500. *)
Definition post_jobs (jobId now : string) (body : JsValue) (σ : State) : State :=
  let body := js_or body (JObj []) in
  let channelUrl' := get_opt body "channelUrl" in
  let maxVideos' := get_opt body "maxVideos" in
  match channelUrl' with
  | JStr url =>
      if negb (truthy channelUrl') then σ
      else
        match Downloader.clampInt maxVideos' 1 100 10 with
        | Throw _ => σ
        | Return max =>
            let σ := set_jobs (insert jobId (new_job url max now)) σ in
            let σ := broadcast jobId status_ev Starting σ in
            set_task jobId (AwaitListing url max) σ
        end
  | _ => σ
  end.

(** [job.error || fallback] *)
Definition error_or (fallback : string) (err : option string) : string :=
  match err with
  | Some m => if String.eqb m "" then fallback else m
  | None => fallback
  end.

(** [GET /api/youtube/jobs/:jobId/stream], [r] being the new response. *)
Definition get_stream (jobId : string) (r : nat) (σ : State) : State :=
  let σ := set_responses (insert r {| req_jobId := jobId; written := []; ended := false |}) σ in
  let σ := attachStream jobId r σ in
  match youtubeJobs σ !! jobId with
  | Some job =>
      let σ := sseSend r status_ev (Snapshot (status job) (completed job) (total job)) σ in
      let σ := match status job with
               | Done => sseSend r done_ev (DoneData jobId (total job)) σ
               | _ => σ
               end in
      match status job with
      | Error => sseSend r error_ev (ErrorData (error_or "Unknown error" (error job))) σ
      | _ => σ
      end
  | None => sseSend r error_ev (ErrorData "Unknown jobId") σ
  end.

(** The [close] listener of a stream request. *)
Definition on_close (r : nat) (σ : State) : option State :=
  res ← responses σ !! r;
  Some match youtubeStreams σ !! req_jobId res with
       | Some _ => set_streams (alter (set_delete r) (req_jobId res)) σ
       | None => σ
       end.

(** [GET /api/youtube/jobs/:jobId/status] and [.../result]: the status
    code and what the JSON body is made from. *)
Inductive StatusReply : Type :=
  | StatusNotFound
  | StatusOk (st : Status) (completed total : Z) (err : option string).

Definition get_status (jobId : string) (σ : State) : StatusReply :=
  match youtubeJobs σ !! jobId with
  | None => StatusNotFound
  | Some job =>
      StatusOk (status job) (completed job) (total job)
        (match error job with
         | Some m => if String.eqb m "" then None else Some m
         | None => None
         end)
  end.

Inductive ResultReply : Type :=
  | ResultNotFound
  | ResultNotDone (st : Status)
  | ResultOk (results : list Downloader.VideoItem).

Definition get_result (jobId : string) (σ : State) : ResultReply :=
  match youtubeJobs σ !! jobId with
  | None => ResultNotFound
  | Some job =>
      match status job with
      | Done => ResultOk (results job)
      | st => ResultNotDone st
      end
  end.

(** What can happen to the server.  A job id is generated from the clock
    and a random number and is taken to be new; a response object is new
    when its request arrives; a download resumes only while it is
    suspended; only a request that was made can close. *)
Inductive Label : Type :=
  | PostJobs (jobId now : string) (body : JsValue)
  | Settle (jobId : string)
  | GetStream (jobId : string) (r : nat)
  | Close (r : nat).

Definition step (W : string → Downloader.World) (l : Label) (σ : State) : option State :=
  match l with
  | PostJobs jobId now body =>
      if decide (youtubeJobs σ !! jobId = None) then Some (post_jobs jobId now body σ) else None
  | Settle jobId => resume W jobId σ
  | GetStream jobId r =>
      if decide (responses σ !! r = None) then Some (get_stream jobId r σ) else None
  | Close r => on_close r σ
  end.

Fixpoint run (W : string → Downloader.World) (ls : list Label) (σ : State) : option State :=
  match ls with
  | [] => Some σ
  | l :: ls' => σ' ← step W l σ; run W ls' σ'
  end.

Definition reachable (W : string → Downloader.World) (σ : State) : Prop :=
  ∃ ls, run W ls init = Some σ.

End Server.

(** ** The answer of [POST /api/youtube/jobs] *)
Module Reply.
Import Js.

(** What [POST /api/youtube/jobs] answers: 400 with an error, the id
    and the clamped maximum of the job it created, or 500 with the
    message of what the handler caught. *)
Inductive JobsReply : Type :=
  | JobsBadRequest (error : string)
  | JobsAccepted (jobId : string) (maxVideos : Z)
  | JobsServerError (error : string).

Definition post_jobs_reply (jobId : string) (body : JsValue) : JobsReply :=
  let body := js_or body (JObj []) in
  let channelUrl' := get_opt body "channelUrl" in
  let maxVideos' := get_opt body "maxVideos" in
  if negb (truthy channelUrl') || negb (is_string channelUrl')
  then JobsBadRequest "channelUrl is required"
  else
    match Downloader.clampInt maxVideos' 1 100 10 with
    | Return max => JobsAccepted jobId max
    | Throw err => JobsServerError (err_message err)
    end.

End Reply.

(** ** [sseSend]: the text of an event *)
Module Wire.
Import Js.

Definition line_feed : ascii := ascii_of_nat 10.
Definition carriage_return : ascii := ascii_of_nat 13.
Definition double_quote : ascii := ascii_of_nat 34.
Definition backslash : ascii := ascii_of_nat 92.

Definition hex_lower (d : nat) : ascii :=
  ascii_of_nat (if Nat.ltb d 10 then 48 + d else 87 + d).

(** [QuoteJSONString], one code unit: the two-character escapes, [\u00xx]
    for the other control characters, the code unit itself otherwise.  (A
    backslash in a string here is one character.) *)
Definition quote_unit (c : ascii) : string :=
  let n := nat_of_ascii c in
  if Nat.eqb n 8 then "\b"
  else if Nat.eqb n 9 then "\t"
  else if Nat.eqb n 10 then "\n"
  else if Nat.eqb n 12 then "\f"
  else if Nat.eqb n 13 then "\r"
  else if Nat.eqb n 34 then String backslash (String double_quote "")
  else if Nat.eqb n 92 then String backslash (String backslash "")
  else if Nat.ltb n 32 then
    "\u00" +:+ String (hex_lower (n / 16)) (String (hex_lower (n mod 16)) "")
  else String c "".

Fixpoint quote_units (s : string) : string :=
  match s with
  | EmptyString => EmptyString
  | String c r => quote_unit c +:+ quote_units r
  end.

Definition QuoteJSONString (s : string) : string :=
  String double_quote (quote_units s) +:+ String double_quote "".

(** [JSON.stringify(v)], [None] for [undefined].  A number that is not
    finite is written [null]; so is an array element that has no JSON
    text; an object member that has none is left out. *)
Fixpoint stringify (v : JsValue) : option string :=
  match v with
  | JUndefined | JNative _ => None
  | JNull => Some "null"
  | JBool b => Some (if b then "true" else "false")
  | JNum x =>
      Some match x with
           | NaN | Infinity _ => "null"
           | _ => Number_toString x
           end
  | JStr s => Some (QuoteJSONString s)
  | JArr xs =>
      Some ("[" +:+ Downloader.join ","
              ((fix elements (l : list JsValue) : list string :=
                  match l with
                  | [] => []
                  | x :: r => default "null" (stringify x) :: elements r
                  end) xs) +:+ "]")
  | JObj fields =>
      Some ("{" +:+ Downloader.join ","
              ((fix members (l : list (string * JsValue)) : list string :=
                  match l with
                  | [] => []
                  | (k, x) :: r =>
                      match stringify x with
                      | Some s => (QuoteJSONString k +:+ ":" +:+ s) :: members r
                      | None => members r
                      end
                  end) fields) +:+ "}")
  end.

Definition event_name (e : Server.EventName) : string :=
  match e with
  | Server.status_ev => "status"
  | Server.progress_ev => "progress"
  | Server.done_ev => "done"
  | Server.error_ev => "error"
  end.

Definition status_name (st : Server.Status) : string :=
  match st with
  | Server.Running => "running"
  | Server.Done => "done"
  | Server.Error => "error"
  end.

(** A result record as an object; [error] is there when it is not
    [undefined]. *)
Definition item_object (item : Downloader.VideoItem) : JsValue :=
  JObj [("video_id", Downloader.video_id item);
        ("title", Downloader.title item);
        ("description", Downloader.description item);
        ("transcript", Downloader.transcript item);
        ("duration_seconds", Downloader.duration_seconds item);
        ("duration_iso", Downloader.duration_iso item);
        ("release_date", Downloader.release_date item);
        ("view_count", Downloader.view_count item);
        ("like_count", Downloader.like_count item);
        ("comment_count", Downloader.comment_count item);
        ("video_url", Downloader.video_url item);
        ("thumbnail_url", Downloader.thumbnail_url item);
        ("error", Downloader.error item)].

(** The [data] objects of the events. *)
Definition data_object (d : Server.Data) : JsValue :=
  match d with
  | Server.Starting => JObj [("status", JStr "starting")]
  | Server.Snapshot st completed total =>
      JObj [("status", JStr (status_name st));
            ("completed", JNum (number_of_Z completed));
            ("total", JNum (number_of_Z total))]
  | Server.ProgressData p =>
      JObj [("completed", JNum (number_of_Z (Downloader.p_completed p)));
            ("total", JNum (number_of_Z (Downloader.p_total p)));
            ("video_id", JStr (Downloader.p_video_id p));
            ("error", Downloader.p_error p);
            ("item", match Downloader.p_item p with
                     | Some item => item_object item
                     | None => JNull
                     end)]
  | Server.DoneData jobId total =>
      JObj [("ok", JBool true); ("jobId", JStr jobId); ("total", JNum (number_of_Z total))]
  | Server.ErrorData msg => JObj [("error", JStr msg)]
  end.

(** The two [res.write] calls of [sseSend], one after the other. *)
Definition sse_text (m : Server.EventName * Server.Data) : string :=
  ("event: " +:+ event_name m.1 +:+ String line_feed "")
  +:+ ("data: " +:+ default "undefined" (stringify (data_object m.2))
       +:+ String line_feed (String line_feed "")).

(** *** Definitions the statements use *)

(** The numbers in a value are in decimal form: every digit is below
    ten. *)
Fixpoint digits_ok (v : JsValue) : Prop :=
  match v with
  | JNum (Finite _ ds _) => Forall (λ d, (d < 10)%nat) ds
  | JArr xs => (fix all (l : list JsValue) : Prop :=
                  match l with
                  | [] => True
                  | x :: r => digits_ok x ∧ all r
                  end) xs
  | JObj fields => (fix all (l : list (string * JsValue)) : Prop :=
                      match l with
                      | [] => True
                      | (_, x) :: r => digits_ok x ∧ all r
                      end) fields
  | _ => True
  end.

(** No line ends inside the text. *)
Definition one_line (s : string) : Prop :=
  Forall (λ c, c ≠ line_feed ∧ c ≠ carriage_return) (String.list_ascii_of_string s).

End Wire.

(** ** [src/components/YouTubeDownload.js] and [src/services/mongoApi.js] *)
Module Client.
Import Js.


(** [\w] *)
Definition word_char (c : ascii) : bool :=
  let n := nat_of_ascii c in
  (Nat.leb 48 n && Nat.leb n 57) || (Nat.leb 65 n && Nat.leb n 90)
  || (Nat.leb 97 n && Nat.leb n 122) || Nat.eqb n 95.

(** [[\w.-]] *)
Definition safe_char (c : ascii) : bool :=
  word_char c || Ascii.eqb c "." || Ascii.eqb c "-".

(** [s.replace(/^https?:\/\//, '')] *)
Definition strip_scheme (s : string) : string :=
  match s with
  | String "h" (String "t" (String "t" (String "p" (String ":" (String "/" (String "/" r)))))) =>
      r
  | String "h" (String "t" (String "t" (String "p" (String "s" (String ":"
      (String "/" (String "/" r))))))) => r
  | _ => s
  end.

(** [s.replace(/[^\w.-]+/g, '_')]: every maximal run of other characters
    becomes one underscore; [in_run] tells that the character before was
    one of them. *)
Fixpoint replace_unsafe (in_run : bool) (s : string) : string :=
  match s with
  | EmptyString => EmptyString
  | String c r =>
      if safe_char c then String c (replace_unsafe false r)
      else if in_run then replace_unsafe true r
      else String "_" (replace_unsafe true r)
  end.

Definition safeFilename (s : JsValue) : Completion string :=
  let* name := ToString (js_or s (JStr "channel")) in
  Return (String.substring 0 60 (replace_unsafe false (strip_scheme name))).


(** [encodeURIComponent], on the code units a [string] here can hold:
    the unreserved characters stay, every other is escaped as the bytes
    of its UTF-8 encoding. *)
Definition uri_unreserved (c : ascii) : bool :=
  let n := nat_of_ascii c in
  (Nat.leb 48 n && Nat.leb n 57) || (Nat.leb 65 n && Nat.leb n 90)
  || (Nat.leb 97 n && Nat.leb n 122)
  || Nat.eqb n 45 || Nat.eqb n 95 || Nat.eqb n 46 || Nat.eqb n 33 || Nat.eqb n 126
  || Nat.eqb n 42 || Nat.eqb n 39 || Nat.eqb n 40 || Nat.eqb n 41.

Definition hex_digit (d : nat) : ascii :=
  ascii_of_nat (if Nat.ltb d 10 then 48 + d else 55 + d).

Definition percent (byte : nat) : string :=
  String "%" (String (hex_digit (byte / 16)) (String (hex_digit (byte mod 16)) "")).

Definition encode_unit (c : ascii) : string :=
  let n := nat_of_ascii c in
  if uri_unreserved c then String c ""
  else if Nat.ltb n 128 then percent n
  else percent (192 + n / 64) +:+ percent (128 + n mod 64).

Fixpoint encodeURIComponent (s : string) : string :=
  match s with
  | EmptyString => EmptyString
  | String c r => encode_unit c +:+ encodeURIComponent r
  end.

(** [getYouTubeStreamUrl], [API] being the configured prefix. *)
Definition getYouTubeStreamUrl (API jobId : string) : string :=
  API +:+ "/api/youtube/jobs/" +:+ encodeURIComponent jobId +:+ "/stream".

(** *** Definitions the statements use *)

Definition chars (s : string) : list ascii := String.list_ascii_of_string s.

(** A character of an escape sequence or an unreserved one. *)
Definition uri_char (c : ascii) : bool :=
  uri_unreserved c || Ascii.eqb c "%".

Definition all_safe (s : string) : Prop := Forall (λ c, safe_char c = true) (chars s).

End Client.

(** ** [fetchWithRetry], the retry loop of the calls to the Gemini API *)
Module Retry.
Import Js.

(** A [fetch] response: [resp.ok], [resp.status], what
    [resp.headers.get('retry-after')] answers ([None] for null), and what
    [resp.json()] resolves to or rejects with. *)
Record HttpResponse : Type := {
  ok : bool;
  status : Z;
  retry_after : option string;
  body : Completion JsValue;
}.

(** The network, for one call of [fetchWithRetry] (the URL and the
    options are the same at every attempt): what the [fetch] of each
    attempt resolves to or rejects with. *)
Record Net : Type := {
  fetch : nat → Completion HttpResponse;
}.

(** [Math.max(0, Math.round(s * 1000))] *)
Definition seconds_to_ms (s : Double) : Double :=
  Math_max_0 (Math_round (dmul s (double_of_Z 1000))).

Definition letter_s (c : ascii) : bool := Ascii.eqb c "s" || Ascii.eqb c "S".

(** The first group of the match of [/^(\d+(?:\.\d+)?)s$/i] with [t],
    [None] when there is no match: digits, with or without a point and
    more digits, then one letter s, which is left off. *)
Definition duration_match (t : string) : option string :=
  let '(ip, r1) := span_digits t in
  let matched :=
    match ip with
    | [] => false
    | _ =>
        match r1 with
        | String c EmptyString => letter_s c
        | String "." r =>
            match span_digits r with
            | (_ :: _, String c EmptyString) => letter_s c
            | _ => false
            end
        | _ => false
        end
    end in
  if matched then Some (String.substring 0 (String.length t - 1) t) else None.

(** [parseDurationToMs], [None] for null. *)
Definition parseDurationToMs (dur : JsValue) : Completion (option Double) :=
  if negb (truthy dur) then Return None
  else
    match dur with
    | JStr text =>
        Return match duration_match (trim text) with
               | None => None
               | Some m1 =>
                   let s := StringToNumber m1 in
                   if isFinite s then Some (seconds_to_ms s) else None
               end
    | JObj _ | JArr _ =>
        let* seconds := ToNumber (js_or (get_opt dur "seconds") (JNum (Zero false))) in
        let* nanos := ToNumber (js_or (get_opt dur "nanos") (JNum (Zero false))) in
        Return (if negb (isFinite seconds) || negb (isFinite nanos) then None
                else Some (Math_max_0 (Math_round
                             (dadd (dmul seconds (double_of_Z 1000))
                                   (ddiv nanos (double_of_Z 1000000))))))
    | _ => Return None
    end.

(** The callback of [details.find]. *)
Definition is_retry_info (d : JsValue) : bool :=
  match get_opt d "@type" with
  | JStr type => Downloader.includes "google.rpc.RetryInfo" type
  | _ => false
  end.

(** [getRetryDelayMs]: the delay the [Retry-After] header tells, or else
    the [RetryInfo] detail of the body, or else [fallbackMs]. *)
Definition getRetryDelayMs (resp : HttpResponse) (json : JsValue) (fallbackMs : Double)
    : Completion Double :=
  let told :=
    match retry_after resp with
    | Some retryAfter =>
        if truthy (JStr retryAfter) then
          let s := StringToNumber retryAfter in
          if isFinite s then Some (seconds_to_ms s) else None
        else None
    | None => None
    end in
  match told with
  | Some ms => Return ms
  | None =>
      match get_opt (get_opt json "error") "details" with
      | JArr details =>
          let retryInfo := default JUndefined (List.find is_retry_info details) in
          let* ms := parseDurationToMs (get_opt retryInfo "retryDelay") in
          Return (default fallbackMs ms)
      | _ => Return fallbackMs
      end
  end.

(** What the function does to the outside, in order. *)
Inductive Effect : Type :=
  | Fetch (attempt : nat)
  | Sleep (ms : Double).

(** The object it returns. *)
Record Outcome : Type := {
  out_ok : bool;
  out_status : Z;
  out_json : JsValue;
}.

(** [json = await resp.json()], [{}] when that throws. *)
Definition json_of (resp : HttpResponse) : JsValue :=
  match body resp with
  | Return j => j
  | Throw _ => JObj []
  end.

(** The [return] after the loop: [lastStatus || 429], [lastJson || {}]. *)
Definition gave_up (last : option (Z * JsValue)) : Outcome :=
  match last with
  | Some (lastStatus, lastJson) =>
      {| out_ok := false;
         out_status := if lastStatus =? 0 then 429 else lastStatus;
         out_json := js_or lastJson (JObj []) |}
  | None => {| out_ok := false; out_status := 429; out_json := JObj [] |}
  end.

(** [baseDelayMs * 2 ** attempt] *)
Definition fallback_ms (baseDelayMs : Z) (attempt : nat) : Double :=
  dmul (double_of_Z baseDelayMs) (pow2 attempt).

(** The [for] loop with [remaining] turns to go, [attempt] being the
    loop counter and [last] the two variables set by the turn before. *)
Fixpoint retry_loop (net : Net) (baseDelayMs : Z) (remaining attempt : nat)
    (last : option (Z * JsValue)) : Completion Outcome * list Effect :=
  match remaining with
  | O => (Return (gave_up last), [])
  | S remaining' =>
      match fetch net attempt with
      | Throw e => (Throw e, [Fetch attempt])
      | Return resp =>
          let json := json_of resp in
          if ok resp then
            (Return {| out_ok := true; out_status := status resp; out_json := json |},
             [Fetch attempt])
          else if negb (status resp =? 429) then
            (Return {| out_ok := false; out_status := status resp; out_json := json |},
             [Fetch attempt])
          else
            match getRetryDelayMs resp json (fallback_ms baseDelayMs attempt) with
            | Throw e => (Throw e, [Fetch attempt])
            | Return delayMs =>
                let '(outcome, effects) :=
                  retry_loop net baseDelayMs remaining' (S attempt) (Some (status resp, json)) in
                (outcome, Fetch attempt :: Sleep delayMs :: effects)
            end
      end
  end.

(** [fetchWithRetry(url, options, { maxRetries, baseDelayMs })], both
    numbers being integers (the one caller passes 3 and 1000).  The call
    of [console.error] before each sleep is left out: it throws nothing. *)
Definition fetchWithRetry (net : Net) (maxRetries baseDelayMs : Z)
    : Completion Outcome * list Effect :=
  retry_loop net baseDelayMs (Z.to_nat maxRetries) 0 None.

(** *** Definitions the statements use *)

(** The attempt is answered 429, which is retried. *)
Definition rate_limited (net : Net) (attempt : nat) : Prop :=
  ∃ resp, fetch net attempt = Return resp ∧ ok resp = false ∧ status resp = 429.

(** The delay [getRetryDelayMs] computes for the answer to [attempt]. *)
Definition delay (net : Net) (baseDelayMs : Z) (attempt : nat) : Completion Double :=
  match fetch net attempt with
  | Return resp => getRetryDelayMs resp (json_of resp) (fallback_ms baseDelayMs attempt)
  | Throw e => Throw e
  end.

(** The attempt is retried: it is answered 429 and the delay can be
    computed. *)
Definition retried (net : Net) (baseDelayMs : Z) (attempt : nat) : Prop :=
  rate_limited net attempt ∧ ∃ ms, delay net baseDelayMs attempt = Return ms.

(** What the function returns or throws when the answer to [attempt] is
    not retried. *)
Definition answer (net : Net) (attempt : nat) : Completion Outcome :=
  match fetch net attempt with
  | Throw e => Throw e
  | Return resp =>
      Return {| out_ok := ok resp; out_status := status resp; out_json := json_of resp |}
  end.

(** One retried attempt: the request, then the sleep. *)
Definition round (net : Net) (baseDelayMs : Z) (attempt : nat) : list Effect :=
  match delay net baseDelayMs attempt with
  | Return ms => [Fetch attempt; Sleep ms]
  | Throw _ => [Fetch attempt]
  end.

Definition rounds (net : Net) (baseDelayMs : Z) (first n : nat) : list Effect :=
  flat_map (round net baseDelayMs) (seq first n).

Definition last_json (net : Net) (attempt : nat) : JsValue :=
  match fetch net attempt with
  | Return resp => json_of resp
  | Throw _ => JObj []
  end.

Definition is_fetch (e : Effect) : bool :=
  match e with Fetch _ => true | Sleep _ => false end.

(** The answer tells no delay the function can read: no [Retry-After]
    header and a body that is no JSON. *)
Definition no_hint (net : Net) (attempt : nat) : Prop :=
  ∃ resp e, fetch net attempt = Return resp ∧ retry_after resp = None ∧ body resp = Throw e.

(** A network that answers 429 twice, the first time with a
    [Retry-After] header of a second and a half, the second time with a
    [RetryInfo] detail of two seconds, then 200. *)
Definition busy_twice : Net := {|
  fetch := λ attempt,
    Return {| ok := negb (Nat.ltb attempt 2);
              status := if Nat.ltb attempt 2 then 429 else 200;
              retry_after := if Nat.eqb attempt 0 then Some "1.5" else None;
              body :=
                Return (if Nat.eqb attempt 1
                        then JObj [("error", JObj [("details", JArr [
                               JObj [("@type", JStr "type.googleapis.com/google.rpc.RetryInfo");
                                     ("retryDelay", JStr "2s")]])])]
                        else JObj []) |};
|}.

(** A network that always answers 429, telling no delay. *)
Definition always_busy : Net := {|
  fetch := λ _, Return {| ok := false; status := 429; retry_after := None;
                          body := Throw (TypeError "not JSON") |};
|}.

(** A network whose 429 answer carries a [RetryInfo] delay with a
    [seconds] that has no string form. *)
Definition bad_hint : Net := {|
  fetch := λ _,
    Return {| ok := false; status := 429; retry_after := None;
              body := Return (JObj [("error", JObj [("details", JArr [
                        JObj [("@type", JStr "type.googleapis.com/google.rpc.RetryInfo");
                              ("retryDelay",
                               JObj [("seconds", JObj [("toString", JNum (Zero false))])])]])])]) |};
|}.

End Retry.

(** ** The user and message endpoints of [server/index.js] *)
Module Chat.
Import Js.

(** [String.prototype.toLowerCase], on the code units a [string] here
    can hold: the letters A to Z and the capital letters of Latin-1. *)
Definition lower_char (c : ascii) : ascii :=
  let n := nat_of_ascii c in
  if (Nat.leb 65 n && Nat.leb n 90)
     || (Nat.leb 192 n && Nat.leb n 222 && negb (Nat.eqb n 215))
  then ascii_of_nat (n + 32) else c.

Fixpoint toLowerCase (s : string) : string :=
  match s with
  | EmptyString => EmptyString
  | String c r => String (lower_char c) (toLowerCase r)
  end.

(** [POST /api/users]: [String(username).trim().toLowerCase()], the name
    a user is registered under. *)
Definition register_name (username : JsValue) : Completion string :=
  let* name := ToString username in
  Return (toLowerCase (trim name)).

(** [POST /api/users/login]: [username.trim().toLowerCase()], the name
    that is looked up, for a truthy [username]; a value that is no string
    has no [trim] method. *)
Definition login_name (username : JsValue) : Completion string :=
  match username with
  | JStr s => Return (toLowerCase (trim s))
  | _ => Throw (TypeError "username.trim is not a function")
  end.

(** [x?.length] of a JSON value. *)
Definition length_opt (v : JsValue) : JsValue :=
  match v with
  | JStr s => JNum (number_of_Z (Z.of_nat (String.length s)))
  | JArr xs => JNum (number_of_Z (Z.of_nat (length xs)))
  | JObj fields => assoc "length" fields
  | _ => JUndefined
  end.

(** [Array.isArray(x) ? x : [x]] *)
Definition as_array (v : JsValue) : list JsValue :=
  match v with
  | JArr xs => xs
  | _ => [v]
  end.

(** [...(cond && { name: value })] *)
Definition spread_if (cond : JsValue) (name : string) (value : JsValue)
    : list (string * JsValue) :=
  if truthy cond then [(name, value)] else [].

(** [const { p } = req.body] *)
Definition destructure (body : JsValue) (p : string) : Completion JsValue :=
  match body with
  | JUndefined | JNull =>
      Throw (TypeError ("Cannot destructure property '" +:+ p +:+ "' of 'req.body' as it is "
                        +:+ nullish_name body +:+ "."))
  | _ => get body p
  end.

(** [POST /api/messages], up to the database update: 400 ([None]) or the
    message pushed onto the session, [now] being the time read. *)
Definition new_message (now : string) (body : JsValue) : Completion (option JsValue) :=
  let* session_id := destructure body "session_id" in
  let* role := destructure body "role" in
  let* content := destructure body "content" in
  let* imageData := destructure body "imageData" in
  let* charts := destructure body "charts" in
  let* toolCalls := destructure body "toolCalls" in
  if negb (truthy session_id) || negb (truthy role)
     || match content with JUndefined => true | _ => false end
  then Return None
  else
    Return (Some (JObj ([("role", role); ("content", content); ("timestamp", JStr now)]
                        ++ spread_if imageData "imageData" (JArr (as_array imageData))
                        ++ spread_if (length_opt charts) "charts" charts
                        ++ spread_if (length_opt toolCalls) "toolCalls" toolCalls))).

(** [(img) => ({ data: img.data, mimeType: img.mimeType })] *)
Definition image_view (img : JsValue) : Completion JsValue :=
  let* data := get img "data" in
  let* mimeType := get img "mimeType" in
  Return (JObj [("data", data); ("mimeType", mimeType)]).

Fixpoint map_images (imgs : list JsValue) : Completion (list JsValue) :=
  match imgs with
  | [] => Return []
  | img :: r =>
      let* v := image_view img in
      let* rest := map_images r in
      Return (v :: rest)
  end.

(** [x?.length ? x : undefined] *)
Definition if_length (v : JsValue) : JsValue :=
  if truthy (length_opt v) then v else JUndefined.

(** [GET /api/messages]: the callback of [raw.map], for the stored
    message [m] at index [i] of the session [docId]. *)
Definition message_view (docId : string) (i : nat) (m : JsValue) : Completion JsValue :=
  let* imageData := get m "imageData" in
  let arr := if truthy imageData then as_array imageData else [] in
  let* role := get m "role" in
  let* content := get m "content" in
  let* timestamp := get m "timestamp" in
  let* images :=
    match arr with
    | [] => Return JUndefined
    | _ => let* views := map_images arr in Return (JArr views)
    end in
  let* charts := get m "charts" in
  let* toolCalls := get m "toolCalls" in
  Return (JObj [("id", JStr (docId +:+ "-" +:+ decimal (Z.of_nat i)));
                ("role", role); ("content", content); ("timestamp", timestamp);
                ("images", images);
                ("charts", if_length charts);
                ("toolCalls", if_length toolCalls)]).

(** *** Definitions the statements use *)

(** The images [GET /api/messages] shows for the [imageData] of a
    request. *)
Definition posted_images (imageData : JsValue) : list JsValue :=
  if truthy imageData then as_array imageData else [].

End Chat.

(** * Properties *)

Section Properties.
Import Js Downloader Server.
#[local] Set Default Proof Using "Type".

(** The world each job runs in. *)
Variable W : string → World.

(** ** Definitions the statements use *)

Arguments digit_char : simpl never.
Arguments digit_of_char : simpl never.
Arguments StrWhiteSpaceChar : simpl never.

Definition below_ten (ds : list nat) : Prop := Forall (λ d, (d < 10)%nat) ds.

(** What [parseInt] makes of a digit sequence and a sign. *)
Definition int_result (neg : bool) (m : Z) : IntResult :=
  if double_overflow <=? m then IntInfinity neg else IntFinite (if neg then - m else m).

(** The integer prefix of a string, as the words go: after any leading
    white space and one optional sign, the longest run of decimal digits,
    which must not be empty.  [neg] tells a minus sign, [ds] are the
    digits. *)
Definition no_digit_ahead (rest : string) : Prop :=
  match rest with
  | String c _ => digit_of_char c = None
  | EmptyString => True
  end.

Inductive integer_prefix (s : string) (neg : bool) (ds : list nat) : Prop :=
  | IntegerPrefix (ws sign rest : string) :
      s = ws +:+ sign +:+ digits_string ds +:+ rest →
      Forall (λ c, StrWhiteSpaceChar c = true) (String.list_ascii_of_string ws) →
      (sign = "-" ∧ neg = true) ∨ ((sign = "+" ∨ sign = "") ∧ neg = false) →
      below_ten ds → ds ≠ [] →
      no_digit_ahead rest →
      integer_prefix s neg ds.

(** The integer part of a number, cut towards zero. *)
Definition number_trunc (x : JsNumber) : Z :=
  match x with
  | Finite neg ds n =>
      let k := Z.of_nat (length ds) in
      let m := if k <=? n then digits_value ds * 10 ^ (n - k)
               else digits_value ds / 10 ^ (k - n) in
      if neg then - m else m
  | _ => 0
  end.

(** [Number::toString] writes the number without an exponent. *)
Definition plain_notation (x : JsNumber) : Prop :=
  match x with
  | Finite _ _ n => -5 ≤ n ≤ 21
  | Zero _ => True
  | _ => False
  end.

Definition no_integer_prefix (s : string) : Prop := ∀ neg ds, ¬ integer_prefix s neg ds.

(** The value has no string form: it is an object with a [toString]
    property of its own, or an array that holds such a value. *)
Fixpoint unprintable (v : JsValue) : bool :=
  match v with
  | JObj fields => own_toString fields
  | JArr xs =>
      (fix any (l : list JsValue) : bool :=
         match l with
         | [] => false
         | x :: r => unprintable x || any r
         end) xs
  | _ => false
  end.

Definition signed (neg : bool) (m : Z) : Z := if neg then - m else m.

(** [Math.max(1, Math.min(100, x))] *)
Definition clamp_1_100 (x : Z) : Z := Z.max 1 (Z.min 100 x).

(** [upload_date] is a string of eight characters, the one shape
    [parseUploadDate] looks for. *)
Definition eight_chars (u : JsValue) : Prop :=
  ∃ s, u = JStr s ∧ String.length s = 8%nat.

(** A world for examples: the channel lists three videos, the metadata
    of the second one cannot be fetched, no video has a transcript. *)
Definition entry (id : string) : JsValue := JObj [("id", JStr id)].

Definition three_videos : World := {|
  ensureYtDlp := Return tt;
  exec_listing := λ _ _, Return (JObj [("entries", JArr [entry "a1"; entry "b2"; entry "c3"])]);
  exec_meta := λ i videoId,
    if Nat.eqb i 1 then Throw {| err_name := "Error"; err_message := "Video unavailable" |}
    else Return (JObj [("id", JStr videoId); ("title", JStr "A title");
                       ("upload_date", JStr "20240229")]);
  fetch_transcript := λ _ _, Throw {| err_name := "Error"; err_message := "Transcript is disabled" |};
|}.

(** The records and the reports of the loop, unit by unit. *)
Definition pushed (w : World) (total : Z) (ids : list string) : list VideoItem :=
  imap (λ i videoId, (process_unit w total i videoId).1) ids.

Definition reports (w : World) (total : Z) (ids : list string) : list Progress :=
  imap (λ i videoId, (process_unit w total i videoId).2) ids.

(** A record carries an error: the [error] property is there and holds
    a value other than null. *)
Definition has_error (item : VideoItem) : bool :=
  match Downloader.error item with
  | JUndefined | JNull => false
  | _ => true
  end.

(** The responses attached to a job id. *)
Definition audience (σ : State) (jobId : string) : list nat :=
  default [] (youtubeStreams σ !! jobId).

Definition alter_all (f : Response → Response) (set : list nat)
    (m : gmap nat Response) : gmap nat Response :=
  foldl (λ m r, alter f r m) m set.

(** The stream handler's replay to a new response. *)
Definition replay (jobId : string) (job : option Job) : list (EventName * Data) :=
  match job with
  | Some job =>
      (status_ev, Snapshot (status job) (completed job) (total job))
      :: match status job with
         | Running => []
         | Done => [(done_ev, DoneData jobId (total job))]
         | Error => [(error_ev, ErrorData (error_or "Unknown error" (error job)))]
         end
  | None => [(error_ev, ErrorData "Unknown jobId")]
  end.

(** The enumeration the download of a job makes, and all the records its
    loop pushes. *)
Definition enumeration (jobId : string) (job : Job) : Completion (list string) :=
  Downloader.listVideoIds (W jobId) (JStr (channelUrl job))
    (JNum (number_of_Z (maxVideos job))).

Definition all_pushed (jobId : string) (ids : list string) : list Downloader.VideoItem :=
  pushed (W jobId) (Z.of_nat (length ids)) ids.

(** The job while its download is in the loop, before the unit at [i]. *)
Definition fetching (jobId : string) (job : Job) (ids : list string) (i : nat)
    (results' : list Downloader.VideoItem) : Prop :=
  enumeration jobId job = Return ids
  ∧ (i < length ids)%nat
  ∧ results' = take i (all_pushed jobId ids)
  ∧ status job = Running
  ∧ completed job = Z.of_nat i
  ∧ total job = (if decide (i = 0%nat) then maxVideos job else Z.of_nat (length ids))
  ∧ results job = []
  ∧ error job = None.

Definition job_inv (jobId : string) (job : Job) (t : Task) : Prop :=
  1 ≤ maxVideos job ≤ 100
  ∧ match t with
    | AwaitListing url max =>
        url = channelUrl job ∧ max = maxVideos job ∧ status job = Running
        ∧ total job = max ∧ completed job = 0 ∧ results job = [] ∧ error job = None
    | AwaitMeta ids i results' => fetching jobId job ids i results'
    | AwaitTranscript ids i results' item =>
        fetching jobId job ids i results'
        ∧ ∃ videoId, ids !! i = Some videoId
                     ∧ Downloader.fetchVideoMeta (W jobId) i videoId = Return item
    | Settled =>
        match enumeration jobId job with
        | Throw e =>
            status job = Error ∧ error job = Some (error_text e) ∧ completed job = 0
            ∧ results job = [] ∧ total job = maxVideos job
        | Return ids =>
            status job = Done ∧ error job = None
            ∧ total job = Z.of_nat (length ids) ∧ completed job = Z.of_nat (length ids)
            ∧ results job = all_pushed jobId ids
        end
    end.

Definition jobs_ok (jobs : gmap string Job) (ts : gmap string Task) : Prop :=
  ∀ jobId,
    match jobs !! jobId, ts !! jobId with
    | Some job, Some t => job_inv jobId job t
    | None, None => True
    | _, _ => False
    end.

Definition streams_ok (streams : gmap string (list nat)) (resps : gmap nat Response) : Prop :=
  ∀ jobId set, streams !! jobId = Some set →
    NoDup set
    ∧ ∀ r, r ∈ set →
        ∃ res, resps !! r = Some res ∧ req_jobId res = jobId ∧ ended res = false.

Definition inv (σ : State) : Prop :=
  jobs_ok (youtubeJobs σ) (tasks σ) ∧ streams_ok (youtubeStreams σ) (responses σ).

(** What a [POST] does when it creates a job. *)
Definition created (jobId now url : string) (max : Z) (σ : State) : State :=
  {| youtubeJobs := <[jobId := new_job url max now]> (youtubeJobs σ);
     youtubeStreams := youtubeStreams σ;
     responses := alter_all (write (status_ev, Starting)) (audience σ jobId) (responses σ);
     tasks := <[jobId := AwaitListing url max]> (tasks σ) |}.

Definition send_all (msgs : list (EventName * Data)) (set : list nat)
    (resps : gmap nat Response) : gmap nat Response :=
  foldl (λ m msg, alter_all (write msg) set m) resps msgs.

(** What one resumption does to the job and what it broadcasts, in
    order; [closes] tells whether it ends with [closeStreams]. *)
Inductive transition (jobId : string) (job : Job) :
    Job → list (EventName * Data) → bool → Prop :=
  | T_quiet : transition jobId job job [] false
  | T_progress p :
      Downloader.p_completed p = completed job + 1 →
      completed job + 1 < Downloader.p_total p →
      transition jobId job (job_progress job p) [(progress_ev, ProgressData p)] false
  | T_last p results' :
      Downloader.p_completed p = completed job + 1 →
      Downloader.p_total p = completed job + 1 →
      transition jobId job (job_done (job_progress job p) (Downloader.p_total p) results')
        [(progress_ev, ProgressData p); (done_ev, DoneData jobId (Downloader.p_total p))] true
  | T_empty :
      completed job = 0 →
      transition jobId job (job_done job 0 []) [(done_ev, DoneData jobId 0)] true
  | T_throw e :
      completed job = 0 →
      transition jobId job (job_failed job e) [(error_ev, ErrorData (error_text e))] true.

(** The suspension a resumption leaves the download in. *)
Definition next_task (w : Downloader.World) (t : Task) : Task :=
  let next ids i results' item :=
    if decide (S i < length ids)%nat then AwaitMeta ids (S i) (results' ++ [item])
    else Settled in
  match t with
  | AwaitListing url max =>
      match Downloader.listVideoIds w (JStr url) (JNum (number_of_Z max)) with
      | Throw _ => Settled
      | Return ids => if decide (0 < length ids)%nat then AwaitMeta ids 0 [] else Settled
      end
  | AwaitMeta ids i results' =>
      match ids !! i with
      | Some videoId =>
          match Downloader.fetchVideoMeta w i videoId with
          | Return item => AwaitTranscript ids i results' item
          | Throw e =>
              next ids i results'
                (Downloader.unit_failure (Z.of_nat (length ids)) i videoId e).1
          end
      | None => t
      end
  | AwaitTranscript ids i results' item =>
      match ids !! i with
      | Some videoId =>
          next ids i results'
            (Downloader.unit_success (Z.of_nat (length ids)) i videoId item
               (Downloader.fetchTranscriptBestEffort w i videoId)).1
      | None => t
      end
  | Settled => Settled
  end.

Record summary (jobId : string) (σ σ' : State) (job job' : Job) (t : Task)
    (msgs : list (EventName * Data)) (closes : bool) : Prop := {
  sum_job : youtubeJobs σ !! jobId = Some job;
  sum_task : tasks σ !! jobId = Some t;
  sum_running : status job = Running;
  sum_jobs : youtubeJobs σ' = <[jobId := job']> (youtubeJobs σ);
  sum_tasks : tasks σ' = <[jobId := next_task (W jobId) t]> (tasks σ);
  sum_streams :
    youtubeStreams σ' = if closes then delete jobId (youtubeStreams σ) else youtubeStreams σ;
  sum_responses :
    responses σ'
    = (if closes then alter_all end_response (audience σ jobId) else id)
        (send_all msgs (audience σ jobId) (responses σ));
  sum_transition : transition jobId job job' msgs closes;
}.

(** A bound on the resumptions a download in the loop still needs. *)
Definition pending (t : Task) : nat :=
  match t with
  | AwaitListing _ _ | Settled => 0
  | AwaitMeta ids i _ => 2 * (length ids - i)
  | AwaitTranscript ids i _ _ => 2 * (length ids - i) - 1
  end.

Definition in_loop (t : Task) : Prop :=
  match t with AwaitListing _ _ => False | _ => True end.

(** The number of resumptions a download needs at most: one for the
    listing, two for each unit. *)
Definition resumptions_bound (jobId : string) (job : Job) : nat :=
  match enumeration jobId job with
  | Throw _ => 1
  | Return ids => 2 * length ids + 1
  end.

(** The fields of a job that are set once. *)
Definition same_request (job job' : Job) : Prop :=
  channelUrl job' = channelUrl job ∧ maxVideos job' = maxVideos job
  ∧ createdAt job' = createdAt job.

(** The fetches of a batch that fail, and the records that carry an error. *)
Definition fetch_fails (jobId : string) (i : nat) (videoId : string) : bool :=
  match Downloader.fetchVideoMeta (W jobId) i videoId with
  | Throw _ => true
  | Return _ => false
  end.

Definition failed_fetches (jobId : string) (ids : list string) : nat :=
  length (filter (λ b, b = true) (imap (fetch_fails jobId) ids)).

Definition error_entries (results' : list Downloader.VideoItem) : nat :=
  length (filter (λ item, has_error item = true) results').

Definition progress_msg (p : Downloader.Progress) : EventName * Data :=
  (progress_ev, ProgressData p).

(** The event that tells the end of a job, as it is broadcast. *)
Definition terminal_msg (jobId : string) (job : Job) : EventName * Data :=
  match status job with
  | Error => (error_ev, ErrorData (default "" (error job)))
  | _ => (done_ev, DoneData jobId (total job))
  end.

Definition is_close (r : nat) (l : Label) : bool :=
  match l with
  | Close r' => bool_decide (r' = r)
  | _ => false
  end.

(** A response attached to a running job, from the attachment on:
    [snapshot] is the replayed status event, [c0] the [completed] count it
    showed, [closed] whether the request has been closed since.  The
    response is live (attached, and it has every event so far), detached
    by its close, or has seen the job end. *)
Definition watching (jobId : string) (r : nat) (snapshot : EventName * Data) (c0 : Z)
    (closed : bool) (σ : State) : Prop :=
  ∃ res job ps term,
    responses σ !! r = Some res
    ∧ req_jobId res = jobId
    ∧ youtubeJobs σ !! jobId = Some job
    ∧ written res = snapshot :: (map progress_msg ps ++ term)
    ∧ map Downloader.p_completed ps = seqZ (c0 + 1) (Z.of_nat (length ps))
    ∧ ((status job = Running ∧ closed = false ∧ r ∈ audience σ jobId ∧ term = []
        ∧ c0 + Z.of_nat (length ps) = completed job)
       ∨ (closed = true ∧ (r ∉ audience σ jobId) ∧ term = [])
       ∨ (status job ≠ Running ∧ term = [terminal_msg jobId job]
          ∧ (status job = Done → c0 + Z.of_nat (length ps) = total job))).

(** A response requested under an id no job has: the registry has no job
    under the id, the response holds the one [error] event and is open,
    and it is in the stream set of the id unless its request was
    [closed]. *)
Definition unanswered (jobId : string) (r : nat) (closed : bool) (σ : State) : Prop :=
  youtubeJobs σ !! jobId = None
  ∧ responses σ !! r
    = Some {| req_jobId := jobId;
              written := [(error_ev, ErrorData "Unknown jobId")];
              ended := false |}
  ∧ (r ∈ audience σ jobId ↔ closed = false).

(** The terminal event the stream handler replays for a job. *)
Definition replayed_terminal (jobId : string) (job : Job) : list (EventName * Data) :=
  match status job with
  | Running => []
  | Done => [(done_ev, DoneData jobId (total job))]
  | Error => [(error_ev, ErrorData (error_or "Unknown error" (error job)))]
  end.

(** The order [status* progress* (done | error)], or the beginning of it
    as long as the terminal event has not come. *)
Definition is_event (e x : EventName) : bool :=
  match e, x with
  | status_ev, status_ev | progress_ev, progress_ev | done_ev, done_ev
  | error_ev, error_ev => true
  | _, _ => false
  end.

Fixpoint skip (e : EventName) (l : list EventName) : list EventName :=
  match l with
  | x :: l' => if is_event e x then skip e l' else l
  | [] => []
  end.

Definition in_sequence (l : list EventName) : bool :=
  match skip progress_ev (skip status_ev l) with
  | [] | [done_ev] | [error_ev] => true
  | _ => false
  end.

Definition request_body : JsValue :=
  JObj [("channelUrl", JStr "https://www.youtube.com/@ch")].

(** Every job sees the channel of [three_videos]. *)
Definition three_videos_each : string → Downloader.World := λ _, three_videos.

(** The external tool cannot be run. *)
Definition tool_down : string → Downloader.World := λ _, {|
  Downloader.ensureYtDlp := Return tt;
  Downloader.exec_listing := λ _ _,
    Throw {| err_name := "Error"; err_message := "yt-dlp exited with code 1" |};
  Downloader.exec_meta := λ _ _, Throw {| err_name := "Error"; err_message := "unreachable" |};
  Downloader.fetch_transcript := λ _ _, Return (JArr []);
|}.

(** The listing has no [entries]. *)
Definition empty_channel : string → Downloader.World := λ _, {|
  Downloader.ensureYtDlp := Return tt;
  Downloader.exec_listing := λ _ _, Return (JObj [("id", JStr "UC123")]);
  Downloader.exec_meta := λ _ _, Throw {| err_name := "Error"; err_message := "unreachable" |};
  Downloader.fetch_transcript := λ _ _, Return (JArr []);
|}.

(** The state after one job was created. *)
Definition one_job : State := post_jobs "job-1" "2026-01-01T00:00:00.000Z" request_body init.

Definition job_1 : Job :=
  new_job "https://www.youtube.com/@ch" 10 "2026-01-01T00:00:00.000Z".

(** *** For the properties of the helpers, the endpoints and the streams *)

(** The string does not begin, or does not end, with white space. *)
Definition starts_clean (s : string) : Prop :=
  match s with
  | String c _ => StrWhiteSpaceChar c = false
  | EmptyString => True
  end.

Definition ends_clean (s : string) : Prop := starts_clean (String.rev s).

(** [id] is the [id] of an entry of the listing [parsed]. *)
Definition listed (parsed : JsValue) (id : string) : Prop :=
  ∃ xs e, get parsed "entries" = Return (JArr xs) ∧ e ∈ xs ∧ get_opt e "id" = JStr id.

(** Neither [null] nor [undefined]. *)
Definition has_value (v : JsValue) : Prop := v ≠ JNull ∧ v ≠ JUndefined.

(** A value [x || ''] can be: truthy, or the empty string. *)
Definition truthy_or_empty (v : JsValue) : bool :=
  truthy v || match v with JStr s => String.eqb s "" | _ => false end.

Definition null_or (p : JsValue → bool) (v : JsValue) : bool :=
  match v with
  | JNull => true
  | _ => p v
  end.

(** The shape every record of a batch has. *)
Definition record_shape (item : VideoItem) : bool :=
  truthy (video_id item) && truthy (video_url item)
  && truthy_or_empty (title item) && truthy_or_empty (description item)
  && null_or is_string (transcript item)
  && null_or is_number (duration_seconds item)
  && null_or is_string (duration_iso item)
  && null_or is_string (release_date item)
  && null_or is_number (view_count item)
  && null_or is_number (like_count item)
  && null_or is_number (comment_count item)
  && null_or truthy (thumbnail_url item).

(** The metadata [v] has no usable [upload_date], and a truthy
    [timestamp] that is the number [x] when it is multiplied, or cannot
    be made a number and throws [e]. *)
Definition timestamp_number (v : JsValue) (x : Completion Double) : Prop :=
  ¬ eight_chars (get_opt v "upload_date")
  ∧ truthy (get_opt v "timestamp") = true
  ∧ ToNumber (get_opt v "timestamp") = x.

(** The steps that run code of the job [jobId]: its creation and the
    resumptions of its download. *)
Definition drives (l : Label) (jobId : string) : bool :=
  match l with
  | PostJobs j _ _ | Settle j => bool_decide (j = jobId)
  | GetStream _ _ | Close _ => false
  end.

(** No stream set holds the response [r]. *)
Definition detached (r : nat) (σ : State) : Prop := ∀ jobId, r ∉ audience σ jobId.

(** One job with one subscriber, and a second job beside it. *)
Definition watched_job : State := get_stream "job-1" 0 one_job.

Definition two_jobs : State :=
  post_jobs "job-2" "2026-01-01T00:00:01.000Z" request_body watched_job.

(** [job_1] after its enumeration failed in [tool_down]. *)
Definition job_1_failed : Job :=
  job_failed job_1 {| err_name := "Error"; err_message := "yt-dlp exited with code 1" |}.

(** ** Decimal digits, [parseInt] and [clampInt] *)

Lemma digits_wf_below_ten ds : digits_wf ds = true → below_ten ds ∧ ds ≠ [].
Proof.
  unfold digits_wf. rewrite !andb_true_iff. intros [[Hall Hhd] _]. split.
  - apply Forall_forall. intros d Hd.
    rewrite forallb_forall in Hall. apply Nat.ltb_lt, Hall. by apply list_elem_of_In.
  - by destruct ds.
Qed.

Lemma digit_char_spec d r :
  (d < 10)%nat →
  digit_of_char (digit_char d) = Some d
  ∧ StrWhiteSpaceChar (digit_char d) = false
  ∧ strip_sign (String (digit_char d) r) = (false, String (digit_char d) r).
Proof.
  intros Hd. do 10 (destruct d as [|d]; [by vm_compute|]). lia.
Qed.

Lemma digit_of_char_inv c d :
  digit_of_char c = Some d → c = digit_char d ∧ (d < 10)%nat.
Proof.
  unfold digit_of_char, digit_char. intros H.
  destruct (Nat.leb 48 (nat_of_ascii c) && Nat.leb (nat_of_ascii c) 57) eqn:E; [|done].
  apply andb_true_iff in E as [E1 E2].
  apply Nat.leb_le in E1, E2. injection H as <-. split; [|lia].
  replace (48 + (nat_of_ascii c - 48))%nat with (nat_of_ascii c) by lia.
  by rewrite ascii_nat_embedding.
Qed.

Lemma radix10_prefix_digits ds rest :
  below_ten ds → radix10_prefix (digits_string ds +:+ rest) = ds ++ radix10_prefix rest.
Proof.
  induction 1 as [|d ds Hd _ IH]; [done|].
  change (radix10_prefix (digits_string (d :: ds) +:+ rest))
    with (match digit_of_char (digit_char d) with
          | Some d' => d' :: radix10_prefix (digits_string ds +:+ rest)
          | None => []
          end).
  destruct (digit_char_spec d "" Hd) as (-> & _). by rewrite IH.
Qed.

Lemma radix10_prefix_zeros m : radix10_prefix (zeros m) = repeat 0%nat m.
Proof. induction m as [|m IH]; [done|]. simpl. by rewrite IH. Qed.

Lemma digits_value_snoc ds d : digits_value (ds ++ [d]) = 10 * digits_value ds + Z.of_nat d.
Proof. unfold digits_value. by rewrite fold_left_app. Qed.

Lemma digits_value_app a b :
  digits_value (a ++ b) = digits_value a * 10 ^ Z.of_nat (length b) + digits_value b.
Proof.
  induction b as [|d b IH] using rev_ind.
  - rewrite app_nil_r. simpl. unfold digits_value at 3. simpl. lia.
  - rewrite app_assoc, !digits_value_snoc, IH, length_app.
    rewrite Nat2Z.inj_add, Z.pow_add_r by lia. change (10 ^ Z.of_nat (length [d])) with 10. lia.
Qed.

Lemma digits_value_bound ds :
  below_ten ds → 0 ≤ digits_value ds < 10 ^ Z.of_nat (length ds).
Proof.
  induction ds as [|d ds IH] using rev_ind; intros H.
  - by vm_compute.
  - apply Forall_app in H as [Hds Hd]. apply Forall_inv in Hd.
    specialize (IH Hds). rewrite digits_value_snoc, length_app.
    rewrite Nat2Z.inj_add, Z.pow_add_r by lia. change (10 ^ Z.of_nat (length [d])) with 10. lia.
Qed.

Lemma digits_value_repeat_zero ds m :
  digits_value (ds ++ repeat 0%nat m) = digits_value ds * 10 ^ Z.of_nat m.
Proof.
  rewrite digits_value_app, repeat_length.
  assert (digits_value (repeat 0%nat m) = 0) as ->; [|lia].
  induction m as [|m IH]; [done|].
  replace (S m) with (m + 1)%nat by lia.
  rewrite repeat_app. simpl. rewrite digits_value_snoc, IH. lia.
Qed.

Lemma parseInt_string_unfold s :
  parseInt_string s =
  match radix10_prefix (strip_sign (trimStart s)).2 with
  | [] => IntNaN
  | ds => int_result (strip_sign (trimStart s)).1 (digits_value ds)
  end.
Proof. unfold parseInt_string, int_result. by destruct (strip_sign (trimStart s)). Qed.

Lemma no_digit_ahead_prefix rest : no_digit_ahead rest ↔ radix10_prefix rest = [].
Proof.
  destruct rest as [|c r]; simpl; [done|].
  by destruct (digit_of_char c).
Qed.

Lemma trimStart_cons c r :
  trimStart (String c r) = if StrWhiteSpaceChar c then trimStart r else String c r.
Proof. done. Qed.

Lemma radix10_prefix_cons c r :
  radix10_prefix (String c r)
  = match digit_of_char c with Some d => d :: radix10_prefix r | None => [] end.
Proof. done. Qed.

Lemma trimStart_whitespace ws t :
  Forall (λ c, StrWhiteSpaceChar c = true) (String.list_ascii_of_string ws) →
  trimStart (ws +:+ t) = trimStart t.
Proof.
  induction ws as [|c ws IH]; simpl; [done|].
  intros H. apply Forall_cons in H as [-> H]. by apply IH.
Qed.

Lemma trimStart_split s :
  ∃ ws, s = ws +:+ trimStart s
        ∧ Forall (λ c, StrWhiteSpaceChar c = true) (String.list_ascii_of_string ws).
Proof.
  induction s as [|c s (ws & IH & Hws)]; [by exists ""|].
  rewrite trimStart_cons. destruct (StrWhiteSpaceChar c) eqn:Hc.
  - exists (String c ws). split; [|by constructor].
    change (String c ws +:+ trimStart s) with (String c (ws +:+ trimStart s)).
    by rewrite <- IH.
  - by exists "".
Qed.

Lemma strip_sign_split t :
  ∃ sign, t = sign +:+ (strip_sign t).2
          ∧ ((sign = "-" ∧ (strip_sign t).1 = true)
             ∨ ((sign = "+" ∨ sign = "") ∧ (strip_sign t).1 = false)).
Proof.
  destruct t as [|c r]; [exists ""; simpl; (clear W; tauto)|].
  destruct (decide (c = "-"%char)) as [->|Hminus]; [exists "-"; simpl; (clear W; tauto)|].
  destruct (decide (c = "+"%char)) as [->|Hplus]; [exists "+"; simpl; (clear W; tauto)|].
  exists "". split; [|right; split; [(clear W; tauto)|]];
    destruct c as [[] [] [] [] [] [] [] []]; done.
Qed.

Lemma radix10_prefix_split t :
  ∃ rest, t = digits_string (radix10_prefix t) +:+ rest
          ∧ below_ten (radix10_prefix t) ∧ no_digit_ahead rest.
Proof.
  induction t as [|c t (rest & IH & Hds & Hrest)].
  - exists "". repeat split. constructor.
  - rewrite radix10_prefix_cons. destruct (digit_of_char c) as [d|] eqn:Hc.
    + apply digit_of_char_inv in Hc as [-> Hd].
      exists rest. split; [|split; [by constructor|done]].
      change (digits_string (d :: radix10_prefix t) +:+ rest)
        with (String (digit_char d) (digits_string (radix10_prefix t) +:+ rest)).
      by rewrite <- IH.
    + exists (String c t). repeat split; [constructor|done].
Qed.

Lemma trimStart_sign_digits sign d r :
  sign = "-" ∨ sign = "+" ∨ sign = "" → (d < 10)%nat →
  trimStart (sign +:+ String (digit_char d) r) = sign +:+ String (digit_char d) r.
Proof.
  intros Hsign Hd. destruct (digit_char_spec d r Hd) as (_ & Hws & _).
  destruct Hsign as [-> | [-> | ->]]; [reflexivity..|].
  change ("" +:+ String (digit_char d) r) with (String (digit_char d) r).
  by rewrite trimStart_cons, Hws.
Qed.

Theorem parseInt_string_integer_prefix s neg ds :
  integer_prefix s neg ds → parseInt_string s = int_result neg (digits_value ds).
Proof.
  intros [ws sign rest -> Hws Hsign Hds Hne Hrest].
  apply no_digit_ahead_prefix in Hrest.
  rewrite parseInt_string_unfold, trimStart_whitespace by done.
  destruct ds as [|d ds]; [done|]. pose proof (Forall_inv Hds) as Hd.
  change (digits_string (d :: ds) +:+ rest)
    with (String (digit_char d) (digits_string ds +:+ rest)).
  rewrite trimStart_sign_digits by (done || (clear W; tauto)).
  destruct (digit_char_spec d (digits_string ds +:+ rest) Hd) as (Hdig & _ & Hstrip).
  assert (strip_sign (sign +:+ String (digit_char d) (digits_string ds +:+ rest))
          = (neg, String (digit_char d) (digits_string ds +:+ rest))) as ->.
  { destruct Hsign as [[-> ->] | [[-> | ->] ->]]; [reflexivity..|exact Hstrip]. }
  simpl fst. simpl snd.
  change (String (digit_char d) (digits_string ds +:+ rest))
    with (digits_string (d :: ds) +:+ rest).
  by rewrite radix10_prefix_digits, Hrest, app_nil_r.
Qed.

Theorem parseInt_string_no_prefix s :
  (∀ neg ds, ¬ integer_prefix s neg ds) → parseInt_string s = IntNaN.
Proof.
  intros Hnone. rewrite parseInt_string_unfold.
  destruct (trimStart_split s) as (ws & Hs & Hws).
  destruct (strip_sign_split (trimStart s)) as (sign & Ht & Hsign).
  destruct (radix10_prefix_split (strip_sign (trimStart s)).2) as (rest & Hr & Hds & Hrest).
  destruct (radix10_prefix (strip_sign (trimStart s)).2) as [|d ds] eqn:Hprefix; [done|].
  exfalso. apply (Hnone (strip_sign (trimStart s)).1 (d :: ds)).
  apply IntegerPrefix with ws sign rest; try done.
  by rewrite <- Hr, <- Ht.
Qed.

Lemma parseInt_string_digits neg ds rest :
  below_ten ds → ds ≠ [] → radix10_prefix rest = [] →
  parseInt_string (sign_prefix neg +:+ digits_string ds +:+ rest)
  = int_result neg (digits_value ds).
Proof.
  intros Hds Hne Hrest. apply parseInt_string_integer_prefix.
  apply IntegerPrefix with "" (sign_prefix neg) rest; try done.
  - destruct neg; [left|right]; split; (done || by right).
  - by apply no_digit_ahead_prefix.
Qed.

Lemma digits_string_app a b : digits_string (a ++ b) = digits_string a +:+ digits_string b.
Proof. induction a as [|d a IH]; [done|]. simpl. by rewrite IH. Qed.

Lemma digits_string_repeat_zero m : digits_string (repeat 0%nat m) = zeros m.
Proof. induction m as [|m IH]; [done|]. simpl. by rewrite IH. Qed.

Lemma append_cons c a b : String c a +:+ b = String c (a +:+ b).
Proof. done. Qed.

Lemma append_empty_r s : s +:+ "" = s.
Proof. induction s as [|c s IH]; [done|]. by rewrite append_cons, IH. Qed.

Lemma below_ten_repeat_zero m : below_ten (repeat 0%nat m).
Proof. induction m as [|m IH]; constructor; [lia|done]. Qed.

Lemma ten_pow_21_no_overflow : 10 ^ 21 < double_overflow.
Proof. by vm_compute. Qed.

Lemma int_result_small neg m :
  m < 10 ^ 21 → int_result neg m = IntFinite (if neg then - m else m).
Proof.
  intros Hm. unfold int_result.
  pose proof ten_pow_21_no_overflow.
  destruct (Z.leb_spec double_overflow m); [lia|done].
Qed.

Lemma parseInt_string_plain neg ds n :
  digits_wf ds = true → -5 ≤ n ≤ 21 →
  parseInt_string (Number_toString (Finite neg ds n))
  = IntFinite (number_trunc (Finite neg ds n)).
Proof.
  intros Hwf Hn. destruct (digits_wf_below_ten ds Hwf) as [Hds Hne].
  pose proof (digits_value_bound ds Hds) as Hbound.
  assert (0 < length ds)%nat as Hlen by (destruct ds; [done|simpl; lia]).
  unfold Number_toString, number_trunc.
  assert ((-5 <=? n) && (n <=? 21) = true) as ->.
  { apply andb_true_iff. split; apply Z.leb_le; lia. }
  cbv zeta. set (k := Z.of_nat (length ds)) in *.
  destruct (Z.leb_spec k n) as [Hkn|Hkn].
  - (* an integer: the digits, then zeros *)
    rewrite <- digits_string_repeat_zero, <- digits_string_app.
    rewrite <- (append_empty_r (digits_string _)).
    rewrite parseInt_string_digits; [| |by destruct ds|done].
    + rewrite digits_value_repeat_zero, Z2Nat.id by lia.
      apply int_result_small.
      apply Z.lt_le_trans with (10 ^ k * 10 ^ (n - k)).
      * apply Z.mul_lt_mono_pos_r; [apply Z.pow_pos_nonneg|]; lia.
      * rewrite <- Z.pow_add_r by lia. apply Z.pow_le_mono_r; lia.
    + apply Forall_app. split; [done|apply below_ten_repeat_zero].
  - destruct (Z.ltb_spec 0 n) as [Hpos|Hnonpos].
    + (* the first [n] digits, a point, the others *)
      rewrite parseInt_string_digits; [| | |done].
      * assert (digits_value (take (Z.to_nat n) ds) = digits_value ds / 10 ^ (k - n)) as ->.
        { pose proof (digits_value_app (take (Z.to_nat n) ds) (drop (Z.to_nat n) ds)) as Happ.
          rewrite take_drop in Happ.
          assert (below_ten (drop (Z.to_nat n) ds)) as Hdrop by by apply Forall_drop.
          apply digits_value_bound in Hdrop.
          rewrite length_drop in Happ, Hdrop.
          replace (Z.of_nat (length ds - Z.to_nat n)) with (k - n) in Happ, Hdrop by lia.
          apply Z.div_unique with (digits_value (drop (Z.to_nat n) ds)); lia. }
        apply int_result_small.
        apply Z.lt_le_trans with (10 ^ n); [|apply Z.pow_le_mono_r; lia].
        apply Z.div_lt_upper_bound; [apply Z.pow_pos_nonneg; lia|].
        rewrite <- Z.pow_add_r by lia. replace (k - n + n) with k by lia. lia.
      * by apply Forall_take.
      * intros Htake. apply (f_equal length) in Htake.
        rewrite length_take in Htake. simpl in Htake. lia.
    + (* a zero, a point, zeros, the digits *)
      change ("0." +:+ ?s) with (digits_string [0%nat] +:+ ("." +:+ s)).
      rewrite parseInt_string_digits; [|by constructor; [lia|constructor]|done|done].
      rewrite Z.div_small.
      * rewrite int_result_small by by vm_compute. by destruct neg.
      * split; [lia|]. apply Z.lt_le_trans with (10 ^ k); [lia|].
        apply Z.pow_le_mono_r; lia.
Qed.

Lemma parseInt_string_exponent neg d ds n :
  digits_wf (d :: ds) = true → ¬ (-5 ≤ n ≤ 21) →
  parseInt_string (Number_toString (Finite neg (d :: ds) n))
  = IntFinite (if neg then - Z.of_nat d else Z.of_nat d).
Proof.
  intros Hwf Hn. destruct (digits_wf_below_ten _ Hwf) as [Hds _].
  pose proof (Forall_inv Hds) as Hd; simpl in Hd.
  unfold Number_toString.
  assert ((-5 <=? n) && (n <=? 21) = false) as ->.
  { apply andb_false_iff. destruct (Z.leb_spec (-5) n); [right|by left].
    apply Z.leb_gt. lia. }
  cbv zeta.
  assert (digits_value [d] = Z.of_nat d) as Hval by (unfold digits_value; simpl; lia).
  assert (digits_value [d] < 10 ^ 21) as Hsmall.
  { rewrite Hval. change (10 ^ 21) with 1000000000000000000000. lia. }
  assert (below_ten [d]) as Hone by (constructor; [done|constructor]).
  destruct ds as [|d' ds].
  - rewrite parseInt_string_digits; [|done..].
    by rewrite int_result_small, Hval.
  - rewrite parseInt_string_digits; [|done..].
    by rewrite int_result_small, Hval.
Qed.

Lemma ToString_cons x xs :
  ToString (JArr (x :: xs))
  = let* sx := match x with JUndefined | JNull => Return "" | _ => ToString x end in
    match xs with
    | [] => Return sx
    | _ => let* sr := ToString (JArr xs) in Return (sx +:+ "," +:+ sr)
    end.
Proof. done. Qed.

Lemma unprintable_cons x xs :
  unprintable (JArr (x :: xs)) = unprintable x || unprintable (JArr xs).
Proof. done. Qed.

(** A value has a string form unless it is [unprintable]. *)
Lemma ToString_unprintable :
  ∀ v, if unprintable v then ToString v = Throw cannot_convert
       else ∃ s, ToString v = Return s.
Proof.
  fix IH 1. intros [| |b|x|s|xs|fields|name]; try (simpl; by eauto).
  - induction xs as [|x xs IHxs]; [simpl; by eexists|].
    specialize (IH x). rewrite ToString_cons, unprintable_cons.
    destruct (unprintable x) eqn:Hx.
    + assert (match x with JUndefined | JNull => Return "" | _ => ToString x end
              = Throw cannot_convert) as ->; [|done].
      by destruct x.
    + destruct IH as [sx Hsx].
      assert (∃ sx', match x with JUndefined | JNull => Return "" | _ => ToString x end
                     = Return sx') as [sx' ->] by (destruct x; eauto).
      cbn [bind orb].
      destruct (unprintable (JArr xs)).
      * rewrite IHxs. by destruct xs.
      * destruct IHxs as [sr ->]. destruct xs; by eexists.
  - simpl. destruct (own_toString fields); eauto.
Qed.

Lemma ToString_Throw v e : ToString v = Throw e → unprintable v = true ∧ e = cannot_convert.
Proof.
  pose proof (ToString_unprintable v) as H. destruct (unprintable v).
  - rewrite H. by intros [= <-].
  - destruct H as [s ->]. done.
Qed.

Lemma ToString_Return v s : ToString v = Return s → unprintable v = false.
Proof.
  pose proof (ToString_unprintable v) as H. destruct (unprintable v); [|done].
  by rewrite H.
Qed.

Lemma clampInt_string v s :
  ToString v = Return s →
  clampInt v 1 100 10
  = Return match parseInt_string s with
           | IntFinite x => clamp_1_100 x
           | IntNaN | IntInfinity _ => 10
           end.
Proof. intros H. unfold clampInt, parseInt10. by rewrite H. Qed.

Lemma clampInt_Throw v e : ToString v = Throw e → clampInt v 1 100 10 = Throw e.
Proof. intros H. unfold clampInt, parseInt10. by rewrite H. Qed.

Lemma clampInt_Return v max :
  clampInt v 1 100 10 = Return max → 1 ≤ max ≤ 100 ∧ ∃ s, ToString v = Return s.
Proof.
  unfold clampInt, parseInt10. destruct (ToString v) as [e|s]; [done|].
  simpl. intros [= <-]. split; [|by eexists].
  destruct (parseInt_string s); lia.
Qed.

Lemma clampInt_range v max : clampInt v 1 100 10 = Return max → 1 ≤ max ≤ 100.
Proof. intros H. by apply clampInt_Return in H as [? _]. Qed.

Lemma clampInt_integer_prefix v s neg ds :
  ToString v = Return s → integer_prefix s neg ds →
  clampInt v 1 100 10
  = Return (if double_overflow <=? digits_value ds then 10
            else clamp_1_100 (signed neg (digits_value ds))).
Proof.
  intros Hs Hprefix. rewrite (clampInt_string _ _ Hs).
  rewrite (parseInt_string_integer_prefix _ _ _ Hprefix). unfold int_result.
  by destruct (double_overflow <=? digits_value ds).
Qed.

Lemma clampInt_no_prefix v s :
  ToString v = Return s → no_integer_prefix s → clampInt v 1 100 10 = Return 10.
Proof.
  intros Hs H. rewrite (clampInt_string _ _ Hs). by rewrite parseInt_string_no_prefix.
Qed.

Lemma clampInt_plain x :
  number_wf x = true → plain_notation x →
  clampInt (JNum x) 1 100 10 = Return (clamp_1_100 (number_trunc x)).
Proof.
  destruct x as [| |neg|neg ds n]; try done.
  intros Hwf Hn. rewrite (clampInt_string (JNum (Finite neg ds n)) _ eq_refl).
  by rewrite parseInt_string_plain.
Qed.

Lemma clampInt_negative ds n :
  digits_wf ds = true → clampInt (JNum (Finite true ds n)) 1 100 10 = Return 1.
Proof.
  intros Hwf. destruct (digits_wf_below_ten ds Hwf) as [Hds Hne].
  pose proof (digits_value_bound ds Hds) as Hbound.
  rewrite (clampInt_string (JNum (Finite true ds n)) _ eq_refl). f_equal.
  destruct (decide (-5 ≤ n ≤ 21)) as [Hn|Hn].
  - rewrite parseInt_string_plain by done. unfold number_trunc, clamp_1_100.
    assert (0 ≤ if Z.of_nat (length ds) <=? n
                then digits_value ds * 10 ^ (n - Z.of_nat (length ds))
                else digits_value ds / 10 ^ (Z.of_nat (length ds) - n)); [|lia].
    destruct (Z.leb_spec (Z.of_nat (length ds)) n).
    + apply Z.mul_nonneg_nonneg; [lia|]. apply Z.pow_nonneg. lia.
    + apply Z.div_pos; [lia|]. apply Z.pow_pos_nonneg; lia.
  - destruct ds as [|d ds]; [done|]. rewrite parseInt_string_exponent by done.
    unfold clamp_1_100. lia.
Qed.

Lemma clampInt_not_a_number v :
  match v with
  | JUndefined | JNull | JBool _ | JNative _ | JNum NaN | JNum (Infinity _) => True
  | JObj fields => own_toString fields = false
  | _ => False
  end → clampInt v 1 100 10 = Return 10.
Proof.
  destruct v as [| |[]|[|[]| |]| | |fields|]; try done.
  intros H. unfold clampInt, parseInt10. simpl. by rewrite H.
Qed.

(** The argument [downloadChannelData] is called with, the clamped
    maximum, is clamped to itself in [listVideoIds]. *)
Lemma clampInt_number_of_Z z :
  1 ≤ z ≤ 100 → clampInt (JNum (number_of_Z z)) 1 100 10 = Return z.
Proof.
  intros Hz.
  assert (forallb (λ z, match clampInt (JNum (number_of_Z z)) 1 100 10 with
                        | Return z' => z' =? z
                        | Throw _ => false
                        end) (seqZ 1 100) = true)
    as Hall by by vm_compute.
  rewrite forallb_forall in Hall.
  specialize (Hall z). destruct (clampInt (JNum (number_of_Z z)) 1 100 10) as [e|z'].
  - discriminate Hall. apply list_elem_of_In, elem_of_seqZ. lia.
  - f_equal. apply Z.eqb_eq, Hall. apply list_elem_of_In, elem_of_seqZ. lia.
Qed.

(** C8, as amended.  For every [maxVideos] input that has a string form
    the effective maximum [clampInt(maxVideos, 1, 100, 10)] lies in
    [1, 100]; a number that prints without an exponent (zero, or a
    magnitude from 1e-6 up to but not including 1e21) is cut to its
    integer part and then clamped to the nearest bound; an input whose
    string form has no leading integer yields the default 10, and so do
    absent, null, boolean, NaN and infinite inputs and objects without a
    [toString] property of their own.  An input that has no string form,
    an object with a [toString] property of its own or an array holding
    one, yields no maximum: [clampInt] throws a [TypeError]. *)
Theorem clampInt_effective_max (v : JsValue) :
  (if unprintable v then clampInt v 1 100 10 = Throw cannot_convert
   else ∃ max, clampInt v 1 100 10 = Return max ∧ 1 ≤ max ≤ 100)
  ∧ (∀ x, v = JNum x → number_wf x = true → plain_notation x →
       clampInt v 1 100 10 = Return (clamp_1_100 (number_trunc x))
       ∧ (number_trunc x < 1 → clampInt v 1 100 10 = Return 1)
       ∧ (100 < number_trunc x → clampInt v 1 100 10 = Return 100)
       ∧ (1 ≤ number_trunc x ≤ 100 → clampInt v 1 100 10 = Return (number_trunc x)))
  ∧ (∀ s, ToString v = Return s → no_integer_prefix s → clampInt v 1 100 10 = Return 10)
  ∧ (v = JUndefined ∨ v = JNull ∨ (∃ b, v = JBool b)
     ∨ (∃ fields, v = JObj fields ∧ own_toString fields = false)
     ∨ v = JNum NaN ∨ (∃ neg, v = JNum (Infinity neg)) →
     clampInt v 1 100 10 = Return 10).
Proof.
  split; [|split; [|split]].
  - pose proof (ToString_unprintable v) as H. destruct (unprintable v).
    + by apply clampInt_Throw.
    + destruct H as [s Hs]. rewrite (clampInt_string _ _ Hs). eexists. split; [done|].
      destruct (parseInt_string s); unfold clamp_1_100; lia.
  - intros x -> Hwf Hplain. rewrite (clampInt_plain x Hwf Hplain).
    unfold clamp_1_100. repeat split; intros; f_equal; lia.
  - apply clampInt_no_prefix.
  - intros H. apply clampInt_not_a_number.
    destruct H as [->|[->|[[b ->]|[(f & -> & Hf)|[->|[neg ->]]]]]]; done.
Qed.

(** The number 150 prints as "150" and is clamped to 100. *)
Lemma clampInt_effective_max_witness :
  clampInt (JNum (Finite false [1; 5]%nat 3)) 1 100 10 = Return 100.
Proof.
  destruct (clampInt_effective_max (JNum (Finite false [1; 5]%nat 3))) as (_ & H & _).
  destruct (H (Finite false [1; 5]%nat 3) eq_refl eq_refl) as (_ & _ & Hhigh & _).
  - unfold plain_notation. lia.
  - apply Hhigh. by vm_compute.
Defined.

(** C8 fails as stated: the number 1e21, a value above 100, prints as
    "1e+21", of which [parseInt] reads the 1; the effective maximum is 1,
    not the nearest bound 100.  The string "5abc", which is not numeric,
    yields 5, not the default 10.  And for an object with a [toString]
    property there is no effective maximum at all. *)
Lemma clampInt_1e21_not_nearest_bound :
  number_wf (Finite false [1]%nat 22) = true
  ∧ number_trunc (Finite false [1]%nat 22) = 10 ^ 21
  ∧ ToString (JNum (Finite false [1]%nat 22)) = Return "1e+21"
  ∧ clampInt (JNum (Finite false [1]%nat 22)) 1 100 10 = Return 1
  ∧ clamp_1_100 (number_trunc (Finite false [1]%nat 22)) = 100
  ∧ clampInt (JStr "5abc") 1 100 10 = Return 5
  ∧ clampInt (JObj [("toString", JNum (Zero false))]) 1 100 10 = Throw cannot_convert.
Proof. by vm_compute. Qed.

(** C10, as amended.  [clampInt(n, 1, 100, 10)] reads [n] as [parseInt]
    does: when [n] has a string form and that has an integer prefix (white
    space, an optional sign, then digits) whose magnitude is a finite
    double, the result is that integer clamped into [1, 100]; when the
    prefix is too large for a finite double, or when there is none, the
    result is the fallback 10.  So a number that prints without an
    exponent is cut to its integer part (7.9 gives 7), "5abc" gives 5,
    every negative finite number gives 1, and undefined, "", "abc" and
    NaN give 10.  When [n] has no string form (an object with a
    [toString] property of its own, or an array holding one) there is no
    result: [clampInt] throws a [TypeError]. *)
Theorem clampInt_parseInt_semantics :
  (∀ v s neg ds,
     ToString v = Return s → integer_prefix s neg ds → digits_value ds < double_overflow →
     clampInt v 1 100 10 = Return (clamp_1_100 (signed neg (digits_value ds))))
  ∧ (∀ v s neg ds,
       ToString v = Return s → integer_prefix s neg ds → double_overflow ≤ digits_value ds →
       clampInt v 1 100 10 = Return 10)
  ∧ (∀ v s, ToString v = Return s → no_integer_prefix s → clampInt v 1 100 10 = Return 10)
  ∧ (∀ v, unprintable v = true ↔ clampInt v 1 100 10 = Throw cannot_convert)
  ∧ (∀ x, number_wf x = true → plain_notation x →
       clampInt (JNum x) 1 100 10 = Return (clamp_1_100 (number_trunc x)))
  ∧ (∀ ds n, digits_wf ds = true → clampInt (JNum (Finite true ds n)) 1 100 10 = Return 1)
  ∧ clampInt (JNum (Finite false [7; 9]%nat 1)) 1 100 10 = Return 7
  ∧ clampInt (JStr "5abc") 1 100 10 = Return 5
  ∧ clampInt JUndefined 1 100 10 = Return 10
  ∧ clampInt (JStr "") 1 100 10 = Return 10
  ∧ clampInt (JStr "abc") 1 100 10 = Return 10
  ∧ clampInt (JNum NaN) 1 100 10 = Return 10.
Proof.
  split; [|split; [|split; [|split; [|split; [|split]]]]].
  - intros v s neg ds Hs Hprefix Hsmall. rewrite (clampInt_integer_prefix _ _ _ _ Hs Hprefix).
    destruct (Z.leb_spec double_overflow (digits_value ds)); [lia|done].
  - intros v s neg ds Hs Hprefix Hbig. rewrite (clampInt_integer_prefix _ _ _ _ Hs Hprefix).
    destruct (Z.leb_spec double_overflow (digits_value ds)); [done|lia].
  - apply clampInt_no_prefix.
  - intros v. pose proof (ToString_unprintable v) as H. destruct (unprintable v).
    + split; [intros _; by apply clampInt_Throw|done].
    + destruct H as [s Hs]. rewrite (clampInt_string _ _ Hs). done.
  - apply clampInt_plain.
  - apply clampInt_negative.
  - by vm_compute.
Qed.

(** "42px" has the integer prefix 42, which is the effective value. *)
Lemma clampInt_parseInt_semantics_witness : clampInt (JStr "42px") 1 100 10 = Return 42.
Proof.
  destruct clampInt_parseInt_semantics as (H & _).
  apply (H (JStr "42px") "42px" false [4; 2]%nat).
  - done.
  - apply IntegerPrefix with "" "" "px"; try done.
    + right. split; [by right|done].
    + constructor; [lia|]. constructor; [lia|constructor].
  - by vm_compute.
Defined.

(** C10 fails as stated: a string of 400 nines has an integer prefix,
    the whole of it, which [parseInt] rounds to [Infinity]; the result is
    the fallback 10, not the prefix clamped to 100.  And the fractional
    number 5e-7 is not truncated: it prints as "5e-7" and yields 5, where
    its integer part 0 would be clamped to 1. *)
Lemma clampInt_long_digit_string_falls_back :
  parseInt10 (JStr (digits_string (repeat 9%nat 400))) = Return (IntInfinity false)
  ∧ clampInt (JStr (digits_string (repeat 9%nat 400))) 1 100 10 = Return 10
  ∧ clamp_1_100 (digits_value (repeat 9%nat 400)) = 100
  ∧ ToString (JNum (Finite false [5]%nat (-6))) = Return "5e-7"
  ∧ clampInt (JNum (Finite false [5]%nat (-6))) 1 100 10 = Return 5
  ∧ clamp_1_100 (number_trunc (Finite false [5]%nat (-6))) = 1.
Proof. by vm_compute. Qed.

(** ** The fetcher and the batch loop *)

Lemma bind_Return {A B : Type} (c : Completion A) (f : A → Completion B) b :
  bind c f = Return b → ∃ a, c = Return a ∧ f a = Return b.
Proof. destruct c as [e|a]; [done|]. intros H. by exists a. Qed.

Ltac bind_inv H :=
  repeat (let x := fresh "x" in let Hx := fresh "H" x in
          apply bind_Return in H as (x & Hx & H)).

Lemma parseUploadDate_other u : ¬ eight_chars u → parseUploadDate u = JNull.
Proof.
  intros Hu. destruct u as [| | | |s| | |]; try done. simpl.
  destruct (Nat.eqb_spec (String.length s) 8) as [Hlen|Hlen]; [|done].
  destruct Hu. by exists s.
Qed.


Lemma uploadDate_of_eight v s :
  get v "upload_date" = Return (JStr s) → String.length s = 8%nat →
  uploadDate_of v
  = Return (JStr (String.substring 0 4 s +:+ "-" +:+ String.substring 4 2 s
                  +:+ "-" +:+ String.substring 6 2 s)).
Proof.
  intros Hu Hlen. unfold uploadDate_of. rewrite Hu.
  do 8 (destruct s as [|? s]; [done|]). by destruct s.
Qed.


(** *** Integers as doubles *)




Lemma ToNumber_Throw v e : ToNumber v = Throw e → ToString v = Throw e.
Proof.
  destruct v; try done; unfold ToNumber;
    (destruct (ToString _) as [e'|s] eqn:Hs; [|done]); by intros [= <-].
Qed.

Lemma uploadDate_of_timestamp v u ts :
  get v "upload_date" = Return u → get v "timestamp" = Return ts → ¬ eight_chars u →
  uploadDate_of v
  = if truthy ts then
      let* tv := scaled_time_value ts in
      match tv with
      | Some tv => Return (JStr (toISOString tv))
      | None => Throw (RangeError "Invalid time value")
      end
    else Return JNull.
Proof.
  intros Hu Hts Hother. unfold uploadDate_of. rewrite Hu. cbn [bind].
  rewrite (parseUploadDate_other u Hother). cbn [truthy]. by rewrite Hts.
Qed.




Lemma fetch_loop_spec w total rest : ∀ i results reported,
  fetch_loop w total i rest results reported
  = (results ++ imap (λ j videoId, (process_unit w total (i + j) videoId).1) rest,
     reported ++ imap (λ j videoId, (process_unit w total (i + j) videoId).2) rest).
Proof.
  induction rest as [|videoId rest IH]; intros i results reported.
  - simpl. by rewrite !app_nil_r.
  - simpl. destruct (process_unit w total i videoId) as [item p] eqn:Hunit.
    rewrite IH, <- !app_assoc. simpl. rewrite Nat.add_0_r, Hunit. simpl.
    f_equal; do 2 f_equal; apply imap_ext; intros j x _; simpl;
      by replace (S (i + j))%nat with (i + S j)%nat by lia.
Qed.

Lemma downloadChannelData_Return w channelUrl maxVideos ids :
  listVideoIds w channelUrl maxVideos = Return ids →
  downloadChannelData w channelUrl maxVideos
  = (Return (Z.of_nat (length ids), pushed w (Z.of_nat (length ids)) ids),
     reports w (Z.of_nat (length ids)) ids).
Proof.
  intros Hids. unfold downloadChannelData. rewrite Hids, fetch_loop_spec. done.
Qed.

Lemma process_unit_failure w total i videoId e :
  fetchVideoMeta w i videoId = Throw e →
  process_unit w total i videoId = unit_failure total i videoId e.
Proof. intros H. unfold process_unit. by rewrite H. Qed.

Lemma process_unit_report w total i videoId :
  p_completed (process_unit w total i videoId).2 = Z.of_nat i + 1
  ∧ p_total (process_unit w total i videoId).2 = total
  ∧ p_video_id (process_unit w total i videoId).2 = videoId.
Proof. unfold process_unit. by destruct (fetchVideoMeta w i videoId). Qed.

Lemma process_unit_has_error w total i videoId :
  has_error (process_unit w total i videoId).1
  = match fetchVideoMeta w i videoId with Throw _ => true | Return _ => false end.
Proof.
  unfold process_unit. destruct (fetchVideoMeta w i videoId) as [e|item] eqn:Hfetch; [done|].
  unfold fetchVideoMeta in Hfetch. bind_inv Hfetch. by injection Hfetch as <-.
Qed.

(** C4, as amended.  For every unit whose metadata fetch fails, the record
    appended to the results carries the unit identifier, a string [error]
    (the message of what was thrown), the canonical watch URL, the empty
    string as [title] and as [description], and null in every other
    field: transcript, both durations, release date, the three counts and
    the thumbnail. *)
Theorem failed_unit_record (w : World) (channelUrl maxVideos : JsValue)
    (ids : list string) (i : nat) (videoId : string) (e : JsError) :
  listVideoIds w channelUrl maxVideos = Return ids →
  ids !! i = Some videoId →
  fetchVideoMeta w i videoId = Throw e →
  ∃ total results reported item,
    downloadChannelData w channelUrl maxVideos = (Return (total, results), reported)
    ∧ results !! i = Some item
    ∧ video_id item = JStr videoId
    ∧ Downloader.error item = JStr (error_text e)
    ∧ title item = JStr ""
    ∧ description item = JStr ""
    ∧ video_url item = JStr (normalizeVideoUrl videoId)
    ∧ transcript item = JNull
    ∧ duration_seconds item = JNull
    ∧ duration_iso item = JNull
    ∧ release_date item = JNull
    ∧ view_count item = JNull
    ∧ like_count item = JNull
    ∧ comment_count item = JNull
    ∧ thumbnail_url item = JNull.
Proof.
  intros Hids Hi Hfetch.
  exists (Z.of_nat (length ids)), (pushed w (Z.of_nat (length ids)) ids),
    (reports w (Z.of_nat (length ids)) ids),
    (failure_record videoId (error_text e)).
  split; [by apply downloadChannelData_Return|]. split; [|done].
  unfold pushed. rewrite list_lookup_imap, Hi. simpl.
  by rewrite (process_unit_failure _ _ _ _ _ Hfetch).
Qed.

Lemma failed_unit_record_witness :
  ∃ total results reported item,
    downloadChannelData three_videos (JStr "https://www.youtube.com/@ch") JUndefined
    = (Return (total, results), reported)
    ∧ results !! 1%nat = Some item
    ∧ video_id item = JStr "b2"
    ∧ Downloader.error item = JStr "Video unavailable"
    ∧ title item = JStr ""
    ∧ description item = JStr ""
    ∧ video_url item = JStr "https://www.youtube.com/watch?v=b2"
    ∧ transcript item = JNull
    ∧ duration_seconds item = JNull
    ∧ duration_iso item = JNull
    ∧ release_date item = JNull
    ∧ view_count item = JNull
    ∧ like_count item = JNull
    ∧ comment_count item = JNull
    ∧ thumbnail_url item = JNull.
Proof.
  apply (failed_unit_record three_videos (JStr "https://www.youtube.com/@ch") JUndefined
           ["a1"; "b2"; "c3"] 1 "b2"
           {| err_name := "Error"; err_message := "Video unavailable" |});
    reflexivity.
Defined.

(** C4 fails as stated: in the record of a failed unit [title] and
    [description] are the empty string, not null, and [video_url] is set. *)
Lemma failed_unit_title_not_null :
  (fst (downloadChannelData three_videos (JStr "https://www.youtube.com/@ch") JUndefined))
  = Return (3, [ (process_unit three_videos 3 0 "a1").1;
                 failure_record "b2" "Video unavailable";
                 (process_unit three_videos 3 2 "c3").1 ])
  ∧ title (failure_record "b2" "Video unavailable") = JStr ""
  ∧ description (failure_record "b2" "Video unavailable") = JStr ""
  ∧ video_url (failure_record "b2" "Video unavailable")
    = JStr "https://www.youtube.com/watch?v=b2".
Proof. by vm_compute. Qed.

Lemma get_Return_get_opt v p x : get v p = Return x → get_opt v p = x.
Proof. intros H. unfold get_opt. by rewrite H. Qed.

(** What a fetched record carries of the unit it was fetched for. *)
Lemma fetchVideoMeta_fields w i videoId fetched :
  fetchVideoMeta w i videoId = Return fetched →
  ∃ v, exec_meta w i videoId = Return v
       ∧ video_id fetched = js_or (get_opt v "id") (JStr videoId)
       ∧ video_url fetched
         = js_or (get_opt v "webpage_url") (JStr (normalizeVideoUrl videoId))
       ∧ title fetched = js_or (get_opt v "title") (JStr "")
       ∧ description fetched = js_or (get_opt v "description") (JStr "")
       ∧ Downloader.error fetched = JUndefined.
Proof.
  unfold fetchVideoMeta. intros H. bind_inv H. injection H as <-. simpl.
  exists x. split; [done|].
  by rewrite (get_Return_get_opt _ _ _ Hx2), (get_Return_get_opt _ _ _ Hx3),
    (get_Return_get_opt _ _ _ Hx4), (get_Return_get_opt _ _ _ Hx10).
Qed.

(** C5.  The results of a batch follow the enumeration: there is one
    record per enumerated identifier, and the record at index [i] is the
    one made for the [i]-th identifier.  When the fetch made for that
    identifier fails, the record has the identifier as [video_id], its
    watch URL as [video_url] and the message as [error].  When it
    succeeds, the record is made from the metadata of the run for that
    identifier: [video_id] is the [id] of the metadata, or the identifier
    if that is falsy, [video_url] its [webpage_url] or the watch URL of
    the identifier, and [transcript] what the transcript fetch for the
    identifier gave; [video_id] is never null.  The calls of the progress
    callback are in the same order, the [i]-th naming the [i]-th
    identifier with [completed = i + 1] and carrying the record or the
    error. *)
Theorem results_follow_enumeration (w : World) (channelUrl maxVideos : JsValue)
    (ids : list string) :
  listVideoIds w channelUrl maxVideos = Return ids →
  ∃ results reported,
    downloadChannelData w channelUrl maxVideos
    = (Return (Z.of_nat (length ids), results), reported)
    ∧ length results = length ids
    ∧ length reported = length ids
    ∧ ∀ i videoId, ids !! i = Some videoId →
        ∃ item p,
          results !! i = Some item ∧ reported !! i = Some p
          ∧ (item, p) = process_unit w (Z.of_nat (length ids)) i videoId
          ∧ p_video_id p = videoId
          ∧ p_completed p = Z.of_nat i + 1
          ∧ p_total p = Z.of_nat (length ids)
          ∧ video_id item ≠ JNull ∧ video_id item ≠ JUndefined
          ∧ match fetchVideoMeta w i videoId with
            | Throw e =>
                video_id item = JStr videoId
                ∧ video_url item = JStr (normalizeVideoUrl videoId)
                ∧ Downloader.error item = JStr (error_text e)
                ∧ item = failure_record videoId (error_text e)
                ∧ p_error p = JStr (error_text e)
                ∧ p_item p = None
            | Return fetched =>
                (∃ v, exec_meta w i videoId = Return v
                      ∧ video_id item = js_or (get_opt v "id") (JStr videoId)
                      ∧ video_url item
                        = js_or (get_opt v "webpage_url") (JStr (normalizeVideoUrl videoId))
                      ∧ title item = js_or (get_opt v "title") (JStr "")
                      ∧ description item = js_or (get_opt v "description") (JStr ""))
                ∧ transcript item = fetchTranscriptBestEffort w i videoId
                ∧ Downloader.error item = JUndefined
                ∧ item = set_transcript fetched (fetchTranscriptBestEffort w i videoId)
                ∧ p_error p = JNull
                ∧ p_item p = Some item
            end.
Proof.
  intros Hids.
  exists (pushed w (Z.of_nat (length ids)) ids), (reports w (Z.of_nat (length ids)) ids).
  split; [by apply downloadChannelData_Return|].
  unfold pushed, reports. rewrite !length_imap. do 2 (split; [done|]).
  intros i videoId Hi.
  exists (process_unit w (Z.of_nat (length ids)) i videoId).1,
    (process_unit w (Z.of_nat (length ids)) i videoId).2.
  rewrite !list_lookup_imap, Hi. simpl.
  destruct (process_unit_report w (Z.of_nat (length ids)) i videoId) as (Hc & Ht & Hv).
  do 6 (split; [done || by destruct (process_unit _ _ _ _)|]).
  unfold process_unit.
  destruct (fetchVideoMeta w i videoId) as [e|fetched] eqn:Hfetch; [done|].
  destruct (fetchVideoMeta_fields _ _ _ _ Hfetch) as (v & Hv' & Hid & Hurl & Htitle & Hdesc & Herr).
  simpl. rewrite Hid. unfold js_or at 1 2.
  split; [|split].
  - destruct (truthy (get_opt v "id")) eqn:E; [|done]. by destruct (get_opt v "id").
  - destruct (truthy (get_opt v "id")) eqn:E; [|done]. by destruct (get_opt v "id").
  - split; [by exists v|]. done.
Qed.

(** In [three_videos] the second fetch fails and the two others succeed:
    the three records carry the three identifiers, in order. *)
Lemma results_follow_enumeration_witness :
  ∃ results,
    (downloadChannelData three_videos (JStr "https://www.youtube.com/@ch") JUndefined).1
    = Return (3, results)
    ∧ map video_id results = [JStr "a1"; JStr "b2"; JStr "c3"]
    ∧ ∀ i videoId, ["a1"; "b2"; "c3"] !! i = Some videoId →
        ∃ item, results !! i = Some item ∧ video_id item ≠ JNull.
Proof.
  destruct (results_follow_enumeration three_videos (JStr "https://www.youtube.com/@ch")
              JUndefined ["a1"; "b2"; "c3"] eq_refl)
    as (results & reported & Hrun & _ & _ & Hunits).
  exists results. rewrite Hrun. split; [done|]. split.
  - rewrite downloadChannelData_Return with (ids := ["a1"; "b2"; "c3"]) in Hrun by done.
    injection Hrun as <- _. by vm_compute.
  - intros i videoId Hi. destruct (Hunits i videoId Hi) as (item & p & Hitem & _ & _ & _ & _ & _ & Hid & _).
    by exists item.
Defined.

(** ** The registry and the broadcaster *)

Lemma alter_all_notin f set m r : r ∉ set → alter_all f set m !! r = m !! r.
Proof.
  unfold alter_all. revert m. induction set as [|x set IH]; intros m Hr; [done|].
  apply not_elem_of_cons in Hr as [Hne Hr]. simpl.
  rewrite IH by done. by apply lookup_alter_ne.
Qed.

Lemma alter_all_in f set m r :
  NoDup set → r ∈ set → alter_all f set m !! r = f <$> m !! r.
Proof.
  revert m. induction set as [|x set IH]; intros m Hnd Hr; [by apply elem_of_nil in Hr|].
  apply NoDup_cons in Hnd as [Hx Hnd].
  change (alter_all f (x :: set) m) with (alter_all f set (alter f x m)).
  apply elem_of_cons in Hr as [->|Hr].
  - rewrite alter_all_notin by done. apply lookup_alter_eq.
  - rewrite IH by done. rewrite lookup_alter_ne; [done|]. by intros ->.
Qed.

Lemma alter_all_lookup f set m r :
  NoDup set →
  alter_all f set m !! r = if decide (r ∈ set) then f <$> m !! r else m !! r.
Proof.
  intros Hnd. case_decide; [by apply alter_all_in|by apply alter_all_notin].
Qed.

Lemma foldl_set_responses f set σ :
  foldl (λ s r, set_responses (alter f r) s) σ set = set_responses (alter_all f set) σ.
Proof.
  unfold alter_all. revert σ. induction set as [|x set IH]; intros σ; [by destruct σ|].
  simpl. by rewrite IH.
Qed.

Lemma broadcast_eq jobId event data σ :
  broadcast jobId event data σ
  = set_responses (alter_all (write (event, data)) (audience σ jobId)) σ.
Proof.
  unfold broadcast, audience, sseSend.
  destruct (youtubeStreams σ !! jobId) as [set|]; simpl.
  - apply foldl_set_responses.
  - by destruct σ.
Qed.

Lemma closeStreams_eq jobId σ :
  closeStreams jobId σ
  = set_streams (delete jobId)
      (set_responses (alter_all end_response (audience σ jobId)) σ).
Proof.
  unfold closeStreams, audience.
  destruct (youtubeStreams σ !! jobId) as [set|] eqn:Hset; simpl.
  - by rewrite foldl_set_responses.
  - destruct σ as [jobs streams resps ts]. unfold set_streams, set_responses. simpl in *.
    f_equal. symmetry. by apply delete_id.
Qed.

(** ** The job lifecycle *)

(** What the handlers make of a state, component by component. *)
Lemma onProgress_eq jobId p σ job :
  youtubeJobs σ !! jobId = Some job →
  onProgress jobId p σ
  = {| youtubeJobs := <[jobId := job_progress job p]> (youtubeJobs σ);
       youtubeStreams := youtubeStreams σ;
       responses := alter_all (write (progress_ev, ProgressData p)) (audience σ jobId)
                      (responses σ);
       tasks := tasks σ |}.
Proof. intros Hjob. unfold onProgress. rewrite Hjob, broadcast_eq. done. Qed.

Lemma on_return_eq jobId total' results' σ job :
  youtubeJobs σ !! jobId = Some job →
  on_return jobId total' results' σ
  = {| youtubeJobs := <[jobId := job_done job total' results']> (youtubeJobs σ);
       youtubeStreams := delete jobId (youtubeStreams σ);
       responses := alter_all end_response (audience σ jobId)
                      (alter_all (write (done_ev, DoneData jobId total')) (audience σ jobId)
                         (responses σ));
       tasks := <[jobId := Settled]> (tasks σ) |}.
Proof.
  intros Hjob. unfold on_return. rewrite Hjob, broadcast_eq, closeStreams_eq. done.
Qed.

Lemma on_throw_eq jobId e σ job :
  youtubeJobs σ !! jobId = Some job →
  on_throw jobId e σ
  = {| youtubeJobs := <[jobId := job_failed job e]> (youtubeJobs σ);
       youtubeStreams := delete jobId (youtubeStreams σ);
       responses := alter_all end_response (audience σ jobId)
                      (alter_all (write (error_ev, ErrorData (error_text e)))
                         (audience σ jobId) (responses σ));
       tasks := <[jobId := Settled]> (tasks σ) |}.
Proof.
  intros Hjob. unfold on_throw. rewrite Hjob, broadcast_eq, closeStreams_eq. done.
Qed.

Lemma attachStream_eq jobId r σ :
  attachStream jobId r σ
  = set_streams (insert jobId (set_add r (audience σ jobId))) σ.
Proof.
  unfold attachStream, audience, set_streams.
  destruct (youtubeStreams σ !! jobId) as [set|] eqn:Hset; simpl; f_equal.
  - apply map_eq. intros k. destruct (decide (jobId = k)) as [<-|Hne].
    + by rewrite lookup_alter_eq, lookup_insert_eq, Hset.
    + by rewrite lookup_alter_ne, lookup_insert_ne.
  - apply map_eq. intros k. destruct (decide (jobId = k)) as [<-|Hne].
    + by rewrite lookup_alter_eq, !lookup_insert_eq.
    + by rewrite lookup_alter_ne, !lookup_insert_ne.
Qed.

Lemma get_stream_eq jobId r σ :
  get_stream jobId r σ
  = {| youtubeJobs := youtubeJobs σ;
       youtubeStreams := <[jobId := set_add r (audience σ jobId)]> (youtubeStreams σ);
       responses := <[r := {| req_jobId := jobId;
                              written := replay jobId (youtubeJobs σ !! jobId);
                              ended := false |}]> (responses σ);
       tasks := tasks σ |}.
Proof.
  unfold get_stream. rewrite attachStream_eq. unfold sseSend, set_streams, set_responses.
  simpl. unfold replay.
  destruct (youtubeJobs σ !! jobId) as [job|]; [destruct (status job)|]; simpl;
    f_equal; rewrite ?alter_insert_eq; done.
Qed.

(** *** The invariant of reachable states *)

Lemma jobs_ok_lookup jobs ts jobId job :
  jobs_ok jobs ts → jobs !! jobId = Some job → ∃ t, ts !! jobId = Some t ∧ job_inv jobId job t.
Proof.
  intros Hok Hjob. specialize (Hok jobId). rewrite Hjob in Hok.
  destruct (ts !! jobId) as [t|]; [by exists t|done].
Qed.

Lemma jobs_ok_task jobs ts jobId t :
  jobs_ok jobs ts → ts !! jobId = Some t → ∃ job, jobs !! jobId = Some job ∧ job_inv jobId job t.
Proof.
  intros Hok Ht. specialize (Hok jobId). rewrite Ht in Hok.
  destruct (jobs !! jobId) as [job|]; [by exists job|done].
Qed.

Lemma jobs_ok_insert jobs ts jobId job t :
  jobs_ok jobs ts → job_inv jobId job t →
  jobs_ok (<[jobId := job]> jobs) (<[jobId := t]> ts).
Proof.
  intros Hok Hinv k. destruct (decide (jobId = k)) as [<-|Hne].
  - by rewrite !lookup_insert_eq.
  - rewrite !lookup_insert_ne by done. apply Hok.
Qed.

Lemma jobs_ok_insert_task jobs ts jobId job t :
  jobs_ok jobs ts → jobs !! jobId = Some job → job_inv jobId job t →
  jobs_ok jobs (<[jobId := t]> ts).
Proof.
  intros Hok Hjob Hinv. rewrite <- (insert_id jobs jobId job Hjob).
  by apply jobs_ok_insert.
Qed.

Lemma streams_ok_alter_all f set streams resps :
  (∀ res, req_jobId (f res) = req_jobId res ∧ ended (f res) = ended res) →
  streams_ok streams resps → streams_ok streams (alter_all f set resps).
Proof.
  intros Hf. unfold alter_all. revert resps.
  induction set as [|x set IH]; intros resps Hok; [done|]. simpl. apply IH.
  intros jobId set' Hset. destruct (Hok jobId set' Hset) as [Hnd Hall]. split; [done|].
  intros r Hr. destruct (Hall r Hr) as (res & Hres & Hid & Hopen).
  destruct (decide (x = r)) as [->|Hne].
  - exists (f res). rewrite lookup_alter_eq, Hres. destruct (Hf res) as [-> ->]. done.
  - exists res. by rewrite lookup_alter_ne.
Qed.

Lemma write_preserves m res :
  req_jobId (write m res) = req_jobId res ∧ ended (write m res) = ended res.
Proof. unfold write. by destruct (ended res) eqn:Hended. Qed.

Lemma streams_ok_close jobId streams resps :
  streams_ok streams resps →
  streams_ok (delete jobId streams)
    (alter_all end_response (default [] (streams !! jobId)) resps).
Proof.
  intros Hok k set Hset.
  apply lookup_delete_Some in Hset as [Hne Hset].
  destruct (Hok k set Hset) as [Hnd Hall]. split; [done|].
  intros r Hr. destruct (Hall r Hr) as (res & Hres & Hid & Hopen).
  exists res. split; [|done].
  rewrite alter_all_notin; [done|].
  destruct (streams !! jobId) as [set'|] eqn:Hset'; simpl; [|by apply not_elem_of_nil].
  intros Hr'. destruct (Hok jobId set' Hset') as [_ Hall'].
  destruct (Hall' r Hr') as (res' & Hres' & Hid' & _). congruence.
Qed.

Lemma streams_ok_fresh jobId r streams resps :
  streams_ok streams resps → resps !! r = None →
  ∀ set, streams !! jobId = Some set → r ∉ set.
Proof.
  intros Hok Hfresh set Hset Hr. destruct (Hok jobId set Hset) as [_ Hall].
  destruct (Hall r Hr) as (res & Hres & _). congruence.
Qed.

Lemma streams_ok_attach jobId r log streams resps :
  streams_ok streams resps → resps !! r = None →
  streams_ok (<[jobId := set_add r (default [] (streams !! jobId))]> streams)
    (<[r := {| req_jobId := jobId; written := log; ended := false |}]> resps).
Proof.
  intros Hok Hfresh k set Hset.
  assert (∀ set', streams !! k = Some set' →
          NoDup set' ∧ ∀ r', r' ∈ set' →
            ∃ res, <[r := {| req_jobId := jobId; written := log; ended := false |}]> resps
                     !! r' = Some res ∧ req_jobId res = k ∧ ended res = false) as Hold.
  { intros set' Hset'. destruct (Hok k set' Hset') as [Hnd Hall]. split; [done|].
    intros r' Hr'. destruct (Hall r' Hr') as (res & Hres & Hid & Hopen).
    exists res. rewrite lookup_insert_ne; [done|]. intros ->. congruence. }
  destruct (decide (jobId = k)) as [<-|Hne]; [|rewrite lookup_insert_ne in Hset by done; eauto].
  rewrite lookup_insert_eq in Hset. injection Hset as <-.
  assert (r ∉ default [] (streams !! jobId)) as Hnotin.
  { destruct (streams !! jobId) as [set'|] eqn:Hset'; simpl; [|by apply not_elem_of_nil].
    by eapply streams_ok_fresh. }
  unfold set_add. rewrite decide_False by done.
  assert (NoDup (default [] (streams !! jobId))
          ∧ ∀ r', r' ∈ default [] (streams !! jobId) →
              ∃ res, <[r := {| req_jobId := jobId; written := log; ended := false |}]> resps
                       !! r' = Some res ∧ req_jobId res = jobId ∧ ended res = false)
    as [Hnd Hall].
  { destruct (streams !! jobId) as [set'|] eqn:Hset'; simpl; [by apply Hold|].
    split; [constructor|]. intros r' Hr'. by apply elem_of_nil in Hr'. }
  split.
  - apply NoDup_app. split; [done|]. split; [|apply NoDup_singleton].
    intros x Hx Hx'. apply list_elem_of_singleton in Hx'. by subst.
  - intros r' Hr'. apply elem_of_app in Hr' as [Hr'|Hr']; [by apply Hall|].
    apply list_elem_of_singleton in Hr' as ->.
    eexists. by rewrite lookup_insert_eq.
Qed.

Lemma streams_ok_detach jobId r streams resps :
  streams_ok streams resps → streams_ok (alter (set_delete r) jobId streams) resps.
Proof.
  intros Hok k set Hset. destruct (decide (jobId = k)) as [<-|Hne].
  - rewrite lookup_alter_eq in Hset.
    destruct (streams !! jobId) as [set'|] eqn:Hset'; [|done].
    injection Hset as <-. destruct (Hok jobId set' Hset') as [Hnd Hall]. split.
    + by apply NoDup_filter.
    + intros r' Hr'. apply list_elem_of_filter in Hr' as [_ Hr']. by apply Hall.
  - rewrite lookup_alter_ne in Hset by done. by apply Hok.
Qed.

Lemma audience_set_jobs f σ jobId : audience (set_jobs f σ) jobId = audience σ jobId.
Proof. done. Qed.

Lemma after_unit_eq jobId ids i results' unit σ job :
  youtubeJobs σ !! jobId = Some job →
  after_unit jobId ids i results' unit σ
  = if decide (S i < length ids)%nat then
      {| youtubeJobs := <[jobId := job_progress job unit.2]> (youtubeJobs σ);
         youtubeStreams := youtubeStreams σ;
         responses := alter_all (write (progress_ev, ProgressData unit.2)) (audience σ jobId)
                        (responses σ);
         tasks := <[jobId := AwaitMeta ids (S i) (results' ++ [unit.1])]> (tasks σ) |}
    else
      {| youtubeJobs := <[jobId := job_done (job_progress job unit.2)
                                      (Z.of_nat (length ids)) (results' ++ [unit.1])]>
                          (youtubeJobs σ);
         youtubeStreams := delete jobId (youtubeStreams σ);
         responses :=
           alter_all end_response (audience σ jobId)
             (alter_all (write (done_ev, DoneData jobId (Z.of_nat (length ids))))
                (audience σ jobId)
                (alter_all (write (progress_ev, ProgressData unit.2)) (audience σ jobId)
                   (responses σ)));
         tasks := <[jobId := Settled]> (tasks σ) |}.
Proof.
  intros Hjob. unfold after_unit, loop_head. rewrite (onProgress_eq _ _ _ _ Hjob).
  case_decide; [done|].
  erewrite on_return_eq by (simpl; apply lookup_insert_eq).
  simpl. by rewrite insert_insert_eq.
Qed.

Lemma pushed_lookup jobId ids i videoId :
  ids !! i = Some videoId →
  all_pushed jobId ids !! i
  = Some (Downloader.process_unit (W jobId) (Z.of_nat (length ids)) i videoId).1.
Proof. intros Hi. unfold all_pushed, pushed. by rewrite list_lookup_imap, Hi. Qed.

Lemma all_pushed_length jobId ids : length (all_pushed jobId ids) = length ids.
Proof. unfold all_pushed, pushed. apply length_imap. Qed.

Lemma after_unit_inv jobId ids i results' videoId σ job :
  inv σ →
  youtubeJobs σ !! jobId = Some job →
  1 ≤ maxVideos job ≤ 100 →
  fetching jobId job ids i results' →
  ids !! i = Some videoId →
  inv (after_unit jobId ids i results'
         (Downloader.process_unit (W jobId) (Z.of_nat (length ids)) i videoId) σ).
Proof.
  intros [Hjobs Hstreams] Hjob Hmax Hfetching Hi.
  destruct Hfetching as (Henum & Hlt & Hres & Hst & Hdone & Htotal & Hresults & Herr).
  rewrite (after_unit_eq _ _ _ _ _ _ _ Hjob).
  set (unit := Downloader.process_unit (W jobId) (Z.of_nat (length ids)) i videoId).
  destruct (process_unit_report (W jobId) (Z.of_nat (length ids)) i videoId)
    as (Hcompleted & Htot & _). fold unit in Hcompleted, Htot.
  assert (results' ++ [unit.1] = take (S i) (all_pushed jobId ids)) as Hpushed.
  { rewrite Hres. symmetry. apply take_S_r. by apply pushed_lookup. }
  destruct (decide (S i < length ids)%nat) as [Hnext|Hnext]; split; simpl.
  - apply jobs_ok_insert; [done|]. split; [done|]. simpl.
    unfold fetching, enumeration. simpl. rewrite Hcompleted, Htot.
    repeat split; try done. lia.
  - apply streams_ok_alter_all; [apply write_preserves|done].
  - apply jobs_ok_insert; [done|]. split; [done|]. simpl.
    unfold enumeration in *. simpl. rewrite Henum.
    repeat split; try done.
    rewrite Hpushed. apply take_ge. rewrite all_pushed_length. lia.
  - apply streams_ok_close.
    apply streams_ok_alter_all; [apply write_preserves|].
    apply streams_ok_alter_all; [apply write_preserves|done].
Qed.

Lemma resume_inv jobId σ σ' : inv σ → resume W jobId σ = Some σ' → inv σ'.
Proof.
  intros Hinv Hresume. pose proof Hinv as [Hjobs Hstreams].
  unfold resume in Hresume.
  destruct (tasks σ !! jobId) as [t|] eqn:Htask; [|done].
  destruct (jobs_ok_task _ _ _ _ Hjobs Htask) as (job & Hjob & Hmax & Ht).
  destruct t as [url max|ids i results'|ids i results' item|]; [| | |done].
  - (* the listing settles *)
    destruct Ht as (-> & -> & Hst & Htotal & Hdone & Hresults & Herr).
    injection Hresume as <-. fold (enumeration jobId job).
    destruct (enumeration jobId job) as [e|ids] eqn:Henum.
    + rewrite (on_throw_eq _ _ _ _ Hjob). split; simpl.
      * apply jobs_ok_insert; [done|]. split; [done|]. simpl.
        unfold enumeration in *. simpl. by rewrite Henum.
      * apply streams_ok_close. apply streams_ok_alter_all; [apply write_preserves|done].
    + unfold loop_head. case_decide as Hnonempty.
      * split; simpl; [|done].
        apply jobs_ok_insert_task with job; [done..|]. split; [done|]. simpl.
        unfold fetching. by rewrite decide_True.
      * rewrite (on_return_eq _ _ _ _ _ Hjob). split; simpl.
        -- apply jobs_ok_insert; [done|]. split; [done|]. simpl.
           unfold enumeration in *. simpl. rewrite Henum.
           destruct ids; [done|simpl in Hnonempty; lia].
        -- apply streams_ok_close. apply streams_ok_alter_all; [apply write_preserves|done].
  - (* the metadata of unit [i] settles *)
    pose proof Ht as (Henum & Hlt & _).
    destruct (ids !! i) as [videoId|] eqn:Hi; [|done]. simpl in Hresume.
    injection Hresume as <-.
    destruct (Downloader.fetchVideoMeta (W jobId) i videoId) as [e|item] eqn:Hfetch.
    + rewrite <- (process_unit_failure (W jobId) _ _ _ _ Hfetch).
      by apply after_unit_inv with job.
    + split; simpl; [|done].
      apply jobs_ok_insert_task with job; [done..|]. split; [done|]. simpl. eauto.
  - (* the transcript of unit [i] settles *)
    destruct Ht as (Hfetching & videoId' & Hi' & Hfetch).
    destruct (ids !! i) as [videoId|] eqn:Hi; [|done]. simpl in Hresume.
    injection Hresume as <-. injection Hi' as ->.
    replace (Downloader.unit_success _ _ _ _ _)
      with (Downloader.process_unit (W jobId) (Z.of_nat (length ids)) i videoId')
      by (unfold Downloader.process_unit; by rewrite Hfetch).
    by apply after_unit_inv with job.
Qed.

Lemma post_jobs_cases jobId now body σ :
  post_jobs jobId now body σ = σ
  ∨ ∃ url max,
      get_opt (js_or body (JObj [])) "channelUrl" = JStr url ∧ url ≠ ""
      ∧ Downloader.clampInt (get_opt (js_or body (JObj [])) "maxVideos") 1 100 10 = Return max
      ∧ post_jobs jobId now body σ = created jobId now url max σ.
Proof.
  unfold post_jobs.
  destruct (get_opt (js_or body (JObj [])) "channelUrl") as [| | | |url| | |]; try by left.
  destruct (negb (truthy (JStr url))) eqn:Htruthy; [by left|].
  destruct (Downloader.clampInt _ 1 100 10) as [e|max]; [by left|].
  right. exists url, max. split; [done|]. split; [|split; [done|]].
  - intros ->. done.
  - by rewrite broadcast_eq.
Qed.

Lemma created_inv jobId now url max σ :
  inv σ → youtubeJobs σ !! jobId = None → 1 ≤ max ≤ 100 → inv (created jobId now url max σ).
Proof.
  intros [Hjobs Hstreams] Hfresh Hmax. split; simpl.
  - apply jobs_ok_insert; [done|]. by split.
  - apply streams_ok_alter_all; [apply write_preserves|done].
Qed.

Lemma step_inv l σ σ' : inv σ → step W l σ = Some σ' → inv σ'.
Proof.
  intros Hinv Hstep. destruct l as [jobId now body|jobId|jobId r|r]; simpl in Hstep.
  - case_decide as Hfresh; [|done]. injection Hstep as <-.
    destruct (post_jobs_cases jobId now body σ) as [->|(url & max & _ & _ & Hclamp & ->)]; [done|].
    apply created_inv; [done..|]. by apply clampInt_range in Hclamp.
  - by eapply resume_inv.
  - case_decide as Hfresh; [|done]. injection Hstep as <-.
    rewrite get_stream_eq. destruct Hinv as [Hjobs Hstreams]. split; simpl; [done|].
    by apply streams_ok_attach.
  - unfold on_close in Hstep.
    destruct (responses σ !! r) as [res|]; [|done]. simpl in Hstep.
    injection Hstep as <-. destruct Hinv as [Hjobs Hstreams].
    destruct (youtubeStreams σ !! req_jobId res); [|done].
    split; simpl; [done|]. by apply streams_ok_detach.
Qed.

Lemma run_inv ls : ∀ σ σ', inv σ → run W ls σ = Some σ' → inv σ'.
Proof.
  induction ls as [|l ls IH]; intros σ σ' Hinv Hrun; simpl in Hrun.
  - by injection Hrun as <-.
  - destruct (step W l σ) as [σ1|] eqn:Hstep; [|done]. simpl in Hrun.
    eapply IH; [|done]. by eapply step_inv.
Qed.

Lemma init_inv : inv init.
Proof.
  split; [by intros jobId|]. intros jobId set Hset.
  change (youtubeStreams init) with (∅ : gmap string (list nat)) in Hset.
  by rewrite lookup_empty in Hset.
Qed.

Lemma reachable_inv σ : reachable W σ → inv σ.
Proof. intros [ls Hrun]. eapply run_inv; [apply init_inv|done]. Qed.

Lemma run_app ls1 ls2 σ :
  run W (ls1 ++ ls2) σ = run W ls1 σ ≫= run W ls2.
Proof.
  revert σ. induction ls1 as [|l ls1 IH]; intros σ; [done|]. simpl.
  destruct (step W l σ) as [σ1|]; [apply IH|done].
Qed.

Lemma reachable_run ls σ σ' : reachable W σ → run W ls σ = Some σ' → reachable W σ'.
Proof.
  intros [ls0 Hrun0] Hrun. exists (ls0 ++ ls). by rewrite run_app, Hrun0.
Qed.

(** *** One resumption of a download, summed up *)

Lemma after_unit_summary jobId ids i results' videoId σ job t :
  youtubeJobs σ !! jobId = Some job →
  tasks σ !! jobId = Some t →
  fetching jobId job ids i results' →
  ids !! i = Some videoId →
  next_task (W jobId) t
  = (if decide (S i < length ids)%nat
     then AwaitMeta ids (S i)
            (results' ++ [(Downloader.process_unit (W jobId) (Z.of_nat (length ids)) i videoId).1])
     else Settled) →
  ∃ job' msgs closes,
    summary jobId σ
      (after_unit jobId ids i results'
         (Downloader.process_unit (W jobId) (Z.of_nat (length ids)) i videoId) σ)
      job job' t msgs closes.
Proof.
  intros Hjob Htask Hfetching Hi Hnext.
  destruct Hfetching as (Henum & Hlt & Hres & Hst & Hdone & Htotal & Hresults & Herr).
  rewrite (after_unit_eq _ _ _ _ _ _ _ Hjob).
  set (unit := Downloader.process_unit (W jobId) (Z.of_nat (length ids)) i videoId) in *.
  destruct (process_unit_report (W jobId) (Z.of_nat (length ids)) i videoId)
    as (Hcompleted & Htot & _). fold unit in Hcompleted, Htot.
  destruct (decide (S i < length ids)%nat) as [Hmore|Hlast].
  - exists (job_progress job unit.2), [(progress_ev, ProgressData unit.2)], false.
    split; simpl; try done; [by rewrite Hnext|].
    apply T_progress; lia.
  - exists (job_done (job_progress job unit.2) (Downloader.p_total unit.2)
              (results' ++ [unit.1])),
      [(progress_ev, ProgressData unit.2);
       (done_ev, DoneData jobId (Downloader.p_total unit.2))], true.
    split; simpl; try done.
    + by rewrite Htot.
    + by rewrite Hnext.
    + by rewrite Htot.
    + apply T_last; lia.
Qed.

Lemma resume_summary jobId σ σ' :
  inv σ → resume W jobId σ = Some σ' →
  ∃ job job' t msgs closes, summary jobId σ σ' job job' t msgs closes.
Proof.
  intros [Hjobs Hstreams] Hresume. unfold resume in Hresume.
  destruct (tasks σ !! jobId) as [t|] eqn:Htask; [|done].
  destruct (jobs_ok_task _ _ _ _ Hjobs Htask) as (job & Hjob & Hmax & Ht).
  exists job.
  destruct t as [url max|ids i results'|ids i results' item|]; [| | |done].
  - destruct Ht as (-> & -> & Hst & Htotal & Hdone & Hresults & Herr).
    injection Hresume as <-. fold (enumeration jobId job).
    destruct (enumeration jobId job) as [e|ids] eqn:Henum.
    + exists (job_failed job e), (AwaitListing (channelUrl job) (maxVideos job)),
        [(error_ev, ErrorData (error_text e))], true.
      rewrite (on_throw_eq _ _ _ _ Hjob).
      split; simpl; try done.
      * unfold enumeration in Henum. by rewrite Henum.
      * by apply T_throw.
    + unfold loop_head. destruct (decide (0 < length ids)%nat) as [Hnonempty|Hempty].
      * exists job, (AwaitListing (channelUrl job) (maxVideos job)), [], false.
        split; simpl; try done.
        -- by rewrite insert_id.
        -- unfold enumeration in Henum. rewrite Henum. by rewrite decide_True.
        -- apply T_quiet.
      * exists (job_done job 0 []), (AwaitListing (channelUrl job) (maxVideos job)),
          [(done_ev, DoneData jobId 0)], true.
        rewrite (on_return_eq _ _ _ _ _ Hjob).
        assert (length ids = 0%nat) as -> by lia.
        split; simpl; try done.
        -- unfold enumeration in Henum. rewrite Henum. by rewrite decide_False.
        -- by apply T_empty.
  - pose proof Ht as (Henum & Hlt & Hres & Hst & _).
    destruct (ids !! i) as [videoId|] eqn:Hi; [|done]. simpl in Hresume.
    injection Hresume as <-.
    destruct (Downloader.fetchVideoMeta (W jobId) i videoId) as [e|item] eqn:Hfetch.
    + rewrite <- (process_unit_failure (W jobId) _ _ _ _ Hfetch).
      destruct (after_unit_summary jobId ids i results' videoId σ job
                  (AwaitMeta ids i results') Hjob Htask Ht Hi) as (job' & msgs & closes & Hsum).
      { simpl. rewrite Hi, Hfetch.
        by rewrite (process_unit_failure (W jobId) _ _ _ _ Hfetch). }
      by exists job', (AwaitMeta ids i results'), msgs, closes.
    + exists job, (AwaitMeta ids i results'), [], false.
      split; simpl; try done.
      * by rewrite insert_id.
      * by rewrite Hi, Hfetch.
      * apply T_quiet.
  - destruct Ht as (Hfetching & videoId' & Hi' & Hfetch).
    destruct (ids !! i) as [videoId|] eqn:Hi; [|done]. simpl in Hresume.
    injection Hresume as <-. injection Hi' as <-.
    assert (Downloader.unit_success (Z.of_nat (length ids)) i videoId item
              (Downloader.fetchTranscriptBestEffort (W jobId) i videoId)
            = Downloader.process_unit (W jobId) (Z.of_nat (length ids)) i videoId) as Hunit.
    { unfold Downloader.process_unit. by rewrite Hfetch. }
    rewrite Hunit.
    destruct (after_unit_summary jobId ids i results' videoId σ job
                (AwaitTranscript ids i results' item) Hjob Htask Hfetching Hi)
      as (job' & msgs & closes & Hsum).
    { unfold next_task. by rewrite Hi, Hunit. }
    by exists job', (AwaitTranscript ids i results' item), msgs, closes.
Qed.

(** *** Every download settles *)

Lemma resume_enabled jobId σ t :
  inv σ → tasks σ !! jobId = Some t → t ≠ Settled → is_Some (resume W jobId σ).
Proof.
  intros [Hjobs _] Htask Hne. unfold resume. rewrite Htask.
  destruct (jobs_ok_task _ _ _ _ Hjobs Htask) as (job & Hjob & Hmax & Ht).
  destruct t as [url max|ids i results'|ids i results' item|]; [done| | |done].
  - destruct Ht as (_ & Hlt & _).
    destruct (lookup_lt_is_Some_2 ids i Hlt) as [videoId ->]. done.
  - destruct Ht as ((_ & Hlt & _) & _).
    destruct (lookup_lt_is_Some_2 ids i Hlt) as [videoId ->]. done.
Qed.

Lemma resume_task jobId σ σ' t :
  inv σ → tasks σ !! jobId = Some t → resume W jobId σ = Some σ' →
  tasks σ' !! jobId = Some (next_task (W jobId) t).
Proof.
  intros Hinv Htask Hresume.
  destruct (resume_summary _ _ _ Hinv Hresume) as (job & job' & t' & msgs & closes & Hsum).
  destruct Hsum. rewrite sum_tasks0, lookup_insert_eq. congruence.
Qed.

Lemma next_task_pending jobId job t :
  job_inv jobId job t → in_loop t → t ≠ Settled →
  in_loop (next_task (W jobId) t) ∧ (pending (next_task (W jobId) t) < pending t)%nat.
Proof.
  intros [_ Ht] Hloop Hne.
  destruct t as [url max|ids i results'|ids i results' item|]; [done| | |done].
  - destruct Ht as (_ & Hlt & _). simpl.
    destruct (lookup_lt_is_Some_2 ids i Hlt) as [videoId ->].
    destruct (Downloader.fetchVideoMeta (W jobId) i videoId); [|simpl; lia].
    case_decide; simpl; lia.
  - destruct Ht as ((_ & Hlt & _) & _). simpl.
    destruct (lookup_lt_is_Some_2 ids i Hlt) as [videoId ->].
    case_decide; simpl; lia.
Qed.

Lemma settles_in_loop jobId m : ∀ σ t,
  inv σ → tasks σ !! jobId = Some t → in_loop t → (pending t ≤ m)%nat →
  ∃ n σ', (n ≤ m)%nat ∧ run W (repeat (Settle jobId) n) σ = Some σ'
          ∧ tasks σ' !! jobId = Some Settled.
Proof.
  induction m as [|m IH]; intros σ t Hinv Htask Hloop Hm.
  - exists 0%nat, σ. split; [done|]. split; [done|].
    destruct (jobs_ok_task _ _ _ _ (proj1 Hinv) Htask) as (job & Hjob & Hmax & Ht).
    destruct t as [url max|ids i results'|ids i results' item|]; [done| | |done].
    + destruct Ht as (_ & Hlt & _). simpl in Hm. lia.
    + destruct Ht as ((_ & Hlt & _) & _). simpl in Hm. lia.
  - assert (t = Settled ∨ t ≠ Settled) as [->|Hne]
      by (destruct t; (by left) || by right).
    { exists 0%nat, σ. split; [lia|done]. }
    destruct (resume_enabled _ _ _ Hinv Htask Hne) as [σ1 Hresume].
    destruct (jobs_ok_task _ _ _ _ (proj1 Hinv) Htask) as (job & Hjob & Hjinv).
    destruct (next_task_pending _ _ _ Hjinv Hloop Hne) as [Hloop1 Hless].
    destruct (IH σ1 (next_task (W jobId) t)) as (n & σ' & Hn & Hrun & Hsettled).
    + by eapply resume_inv.
    + by eapply resume_task.
    + done.
    + lia.
    + exists (S n), σ'. split; [lia|]. split; [|done]. simpl. by rewrite Hresume.
Qed.

Lemma settles jobId σ job :
  inv σ → youtubeJobs σ !! jobId = Some job →
  ∃ n σ', (n ≤ resumptions_bound jobId job)%nat
          ∧ run W (repeat (Settle jobId) n) σ = Some σ'
          ∧ tasks σ' !! jobId = Some Settled.
Proof.
  intros Hinv Hjob. pose proof Hinv as [Hjobs _].
  destruct (jobs_ok_lookup _ _ _ _ Hjobs Hjob) as (t & Htask & Hjinv).
  unfold resumptions_bound.
  destruct t as [url max|ids i results'|ids i results' item|].
  - destruct (resume_enabled _ _ _ Hinv Htask) as [σ1 Hresume]; [done|].
    pose proof (resume_task _ _ _ _ Hinv Htask Hresume) as Htask1.
    pose proof (resume_inv _ _ _ Hinv Hresume) as Hinv1.
    destruct Hjinv as (_ & -> & -> & _). simpl in Htask1.
    fold (enumeration jobId job) in Htask1.
    destruct (enumeration jobId job) as [e|ids].
    + exists 1%nat, σ1. split; [done|]. split; [|done]. simpl. by rewrite Hresume.
    + destruct (settles_in_loop jobId (2 * length ids) σ1 _ Hinv1 Htask1)
        as (n & σ' & Hn & Hrun & Hsettled).
      * by case_decide.
      * case_decide; simpl; lia.
      * exists (S n), σ'. split; [lia|]. split; [|done]. simpl. by rewrite Hresume.
  - destruct Hjinv as (_ & Henum & Hlt & _). rewrite Henum.
    destruct (settles_in_loop jobId (2 * length ids) σ _ Hinv Htask)
      as (n & σ' & Hn & Hrun & Hsettled); [done|simpl; lia|].
    exists n, σ'. split; [lia|done].
  - destruct Hjinv as (_ & (Henum & Hlt & _) & _). rewrite Henum.
    destruct (settles_in_loop jobId (2 * length ids) σ _ Hinv Htask)
      as (n & σ' & Hn & Hrun & Hsettled); [done|simpl; lia|].
    exists n, σ'. split; [lia|done].
  - exists 0%nat, σ. split; [|done]. destruct (enumeration jobId job); lia.
Qed.

(** *** What a step does to a job *)

Lemma transition_job jobId job job' msgs closes :
  transition jobId job job' msgs closes →
  same_request job job' ∧ completed job ≤ completed job'
  ∧ (status job = Running → (closes = true ↔ status job' ≠ Running)).
Proof.
  intros Htrans. destruct Htrans as [|p ? ?|p results' ? ?|?|e ?]; unfold same_request; simpl;
    (split; [done|]); (split; [lia|]); intros Hst; rewrite ?Hst; split; congruence.
Qed.

Lemma on_close_eq r σ σ' :
  on_close r σ = Some σ' →
  ∃ res, responses σ !! r = Some res
         ∧ σ' = set_streams (alter (set_delete r) (req_jobId res)) σ.
Proof.
  unfold on_close. intros H.
  destruct (responses σ !! r) as [res|]; [|done]. simpl in H. injection H as <-.
  exists res. split; [done|].
  destruct (youtubeStreams σ !! req_jobId res) as [set|] eqn:Hset; [done|].
  destruct σ as [jobs streams resps ts]. unfold set_streams. simpl in *. f_equal.
  apply map_eq. intros k. destruct (decide (req_jobId res = k)) as [<-|Hne].
  - by rewrite lookup_alter_eq, Hset.
  - by rewrite lookup_alter_ne.
Qed.

Lemma step_job l σ σ' jobId job :
  inv σ → step W l σ = Some σ' → youtubeJobs σ !! jobId = Some job →
  ∃ job', youtubeJobs σ' !! jobId = Some job'
          ∧ same_request job job'
          ∧ completed job ≤ completed job'
          ∧ (status job ≠ Running → job' = job)
          ∧ (status job' = Running → status job = Running).
Proof.
  intros Hinv Hstep Hjob.
  assert (youtubeJobs σ' !! jobId = Some job →
          ∃ job', youtubeJobs σ' !! jobId = Some job' ∧ same_request job job'
                  ∧ completed job ≤ completed job'
                  ∧ (status job ≠ Running → job' = job)
                  ∧ (status job' = Running → status job = Running)) as Hsame.
  { intros H. exists job. unfold same_request. repeat split; (done || lia). }
  destruct l as [jobId' now body|jobId'|jobId' r|r]; simpl in Hstep.
  - case_decide as Hfresh; [|done]. injection Hstep as <-. apply Hsame.
    destruct (post_jobs_cases jobId' now body σ) as [->|(url & max & _ & _ & Hclamp & ->)]; [done|].
    simpl. rewrite lookup_insert_ne; [done|]. congruence.
  - destruct (resume_summary _ _ _ Hinv Hstep) as (job0 & job' & t & msgs & closes & Hsum).
    destruct Hsum. rewrite sum_jobs0.
    destruct (decide (jobId' = jobId)) as [->|Hne].
    + rewrite lookup_insert_eq. exists job'.
      assert (job0 = job) as -> by congruence.
      destruct (transition_job _ _ _ _ _ sum_transition0) as (Hreq & Hmono & _).
      repeat split; try done; apply Hreq.
    + rewrite sum_jobs0 in Hsame. rewrite lookup_insert_ne in Hsame |- * by done. by apply Hsame.
  - case_decide as Hfresh; [|done]. injection Hstep as <-. apply Hsame.
    by rewrite get_stream_eq.
  - apply on_close_eq in Hstep as (res & _ & ->). by apply Hsame.
Qed.

Lemma run_job ls : ∀ σ σ' jobId job,
  inv σ → run W ls σ = Some σ' → youtubeJobs σ !! jobId = Some job →
  ∃ job', youtubeJobs σ' !! jobId = Some job'
          ∧ same_request job job'
          ∧ completed job ≤ completed job'
          ∧ (status job ≠ Running → job' = job).
Proof.
  induction ls as [|l ls IH]; intros σ σ' jobId job Hinv Hrun Hjob; simpl in Hrun.
  - injection Hrun as <-. exists job. unfold same_request. repeat split; (done || lia).
  - destruct (step W l σ) as [σ1|] eqn:Hstep; [|done]. simpl in Hrun.
    destruct (step_job _ _ _ _ _ Hinv Hstep Hjob) as (job1 & Hjob1 & Hreq1 & Hmono1 & Hfix1 & _).
    destruct (IH σ1 σ' jobId job1 (step_inv _ _ _ Hinv Hstep) Hrun Hjob1)
      as (job' & Hjob' & Hreq' & Hmono' & Hfix').
    exists job'. split; [done|]. unfold same_request in *.
    split; [intuition congruence|]. split; [lia|].
    intros Hst. rewrite (Hfix1 Hst) in *. by apply Hfix'.
Qed.

Lemma same_request_enumeration jobId job job' :
  same_request job job' → enumeration jobId job' = enumeration jobId job.
Proof. intros (Hurl & Hmax & _). unfold enumeration. by rewrite Hurl, Hmax. Qed.

(** *** The claims about the job *)

Lemma job_inv_bounds jobId job t :
  job_inv jobId job t →
  0 ≤ completed job ≤ total job
  ∧ (status job ≠ Running → Z.of_nat (length (results job)) = completed job)
  ∧ (t ≠ Settled → status job = Running)
  ∧ (t = Settled → status job ≠ Running).
Proof.
  intros [Hmax Ht].
  destruct t as [url max|ids i results'|ids i results' item|].
  - destruct Ht as (-> & -> & Hst & Htotal & Hdone & Hresults & Herr).
    rewrite Hst, Htotal, Hdone. repeat split; (done || lia).
  - destruct Ht as (Henum & Hlt & Hres & Hst & Hdone & Htotal & Hresults & Herr).
    rewrite Hst, Htotal, Hdone. repeat split; try done; case_decide; lia.
  - destruct Ht as ((Henum & Hlt & Hres & Hst & Hdone & Htotal & Hresults & Herr) & _).
    rewrite Hst, Htotal, Hdone. repeat split; try done; case_decide; lia.
  - destruct (enumeration jobId job) as [e|ids].
    + destruct Ht as (Hst & Herr & Hdone & Hresults & Htotal).
      rewrite Hst, Htotal, Hdone, Hresults. repeat split; (done || lia).
    + destruct Ht as (Hst & Herr & Htotal & Hdone & Hresults).
      rewrite Hst, Htotal, Hdone, Hresults, all_pushed_length. repeat split; (done || lia).
Qed.

(** C3.  For every job in every reachable state: [completed] never
    exceeds [total]; once the status is not [Running], [results] has
    [completed] entries; a step leaves a job that is not running as it is
    and never makes a job running again, so the status changes at most
    once, from [Running] to [Done] or to [Error]; and resuming the
    download of the job as often as it is suspended brings that change
    about. *)
Theorem job_invariants (σ : State) (jobId : string) (job : Job) :
  reachable W σ → youtubeJobs σ !! jobId = Some job →
  0 ≤ completed job ≤ total job
  ∧ (status job ≠ Running → Z.of_nat (length (results job)) = completed job)
  ∧ (∀ l σ', step W l σ = Some σ' →
       ∃ job', youtubeJobs σ' !! jobId = Some job'
               ∧ (status job ≠ Running → job' = job)
               ∧ (status job' = Running → status job = Running))
  ∧ (∀ ls σ', run W ls σ = Some σ' → status job ≠ Running →
       youtubeJobs σ' !! jobId = Some job)
  ∧ (∃ n σ' job',
       run W (repeat (Settle jobId) n) σ = Some σ'
       ∧ youtubeJobs σ' !! jobId = Some job'
       ∧ (status job' = Done ∨ status job' = Error)).
Proof.
  intros Hreach Hjob. pose proof (reachable_inv _ Hreach) as Hinv.
  destruct (jobs_ok_lookup _ _ _ _ (proj1 Hinv) Hjob) as (t & Htask & Hjinv).
  destruct (job_inv_bounds _ _ _ Hjinv) as (Hle & Hlen & _).
  split; [done|]. split; [done|]. split; [|split].
  - intros l σ' Hstep.
    destruct (step_job _ _ _ _ _ Hinv Hstep Hjob) as (job' & Hjob' & _ & _ & Hfix & Hback).
    by exists job'.
  - intros ls σ' Hrun Hst.
    destruct (run_job _ _ _ _ _ Hinv Hrun Hjob) as (job' & Hjob' & _ & _ & Hfix).
    by rewrite Hjob', (Hfix Hst).
  - destruct (settles _ _ _ Hinv Hjob) as (n & σ' & _ & Hrun & Hsettled).
    pose proof (run_inv _ _ _ Hinv Hrun) as Hinv'.
    destruct (jobs_ok_task _ _ _ _ (proj1 Hinv') Hsettled) as (job' & Hjob' & Hjinv').
    exists n, σ', job'. split; [done|]. split; [done|].
    destruct (job_inv_bounds _ _ _ Hjinv') as (_ & _ & _ & Hst).
    specialize (Hst eq_refl). destruct (status job'); auto. done.
Qed.

Lemma filter_imap_length {A B} (f : nat → A → B) (g : nat → A → bool) (P : B → bool) l :
  (∀ i x, P (f i x) = g i x) →
  length (filter (λ y, P y = true) (imap f l)) = length (filter (λ b, b = true) (imap g l)).
Proof.
  revert f g. induction l as [|x l IH]; intros f g Hfg; [done|].
  rewrite !imap_cons, !filter_cons, Hfg.
  destruct (g 0%nat x); simpl; rewrite (IH (f ∘ S) (g ∘ S)); try done;
    intros i y; apply Hfg.
Qed.

Lemma error_entries_all_pushed jobId ids :
  error_entries (all_pushed jobId ids) = failed_fetches jobId ids.
Proof.
  unfold error_entries, all_pushed, pushed, failed_fetches.
  apply (filter_imap_length _ (fetch_fails jobId) has_error).
  intros i videoId. apply process_unit_has_error.
Qed.

Lemma settled_job ls σ σ' jobId job :
  inv σ → youtubeJobs σ !! jobId = Some job →
  run W ls σ = Some σ' → tasks σ' !! jobId = Some Settled →
  ∃ job', youtubeJobs σ' !! jobId = Some job' ∧ same_request job job'
          ∧ job_inv jobId job' Settled.
Proof.
  intros Hinv Hjob Hrun Hsettled.
  destruct (run_job _ _ _ _ _ Hinv Hrun Hjob) as (job' & Hjob' & Hreq & _).
  exists job'. split; [done|]. split; [done|].
  pose proof (run_inv _ _ _ Hinv Hrun) as [Hjobs' _].
  destruct (jobs_ok_task _ _ _ _ Hjobs' Hsettled) as (job'' & Hjob'' & Hjinv).
  congruence.
Qed.

(** C1.  When the enumeration of a batch yields [N] identifiers, the
    download settles after at most [2 N + 1] resumptions, whichever
    fetches fail; whenever it has settled, the job is [Done] with
    [completed = total = N], [N] results, and as many results carrying an
    error as fetches failed; the job is never [Error]. *)
Theorem batch_runs_to_completion (σ : State) (jobId : string) (job : Job) (ids : list string) :
  reachable W σ → youtubeJobs σ !! jobId = Some job →
  enumeration jobId job = Return ids →
  (∃ n σ', (n ≤ 2 * length ids + 1)%nat
           ∧ run W (repeat (Settle jobId) n) σ = Some σ'
           ∧ tasks σ' !! jobId = Some Settled)
  ∧ (∀ ls σ', run W ls σ = Some σ' → tasks σ' !! jobId = Some Settled →
       ∃ job', youtubeJobs σ' !! jobId = Some job'
               ∧ status job' = Done
               ∧ completed job' = Z.of_nat (length ids)
               ∧ total job' = Z.of_nat (length ids)
               ∧ length (results job') = length ids
               ∧ error_entries (results job') = failed_fetches jobId ids
               ∧ error job' = None)
  ∧ (∀ ls σ' job', run W ls σ = Some σ' → youtubeJobs σ' !! jobId = Some job' →
       status job' ≠ Error).
Proof.
  intros Hreach Hjob Henum. pose proof (reachable_inv _ Hreach) as Hinv.
  split; [|split].
  - destruct (settles _ _ _ Hinv Hjob) as (n & σ' & Hn & Hrun & Hsettled).
    unfold resumptions_bound in Hn. rewrite Henum in Hn. by exists n, σ'.
  - intros ls σ' Hrun Hsettled.
    destruct (settled_job _ _ _ _ _ Hinv Hjob Hrun Hsettled) as (job' & Hjob' & Hreq & _ & Hjinv).
    rewrite (same_request_enumeration _ _ _ Hreq), Henum in Hjinv.
    destruct Hjinv as (Hst & Herr & Htotal & Hdone & Hresults).
    exists job'. rewrite Hresults, all_pushed_length, error_entries_all_pushed. done.
  - intros ls σ' job' Hrun Hjob' Hst.
    destruct (run_job _ _ _ _ _ Hinv Hrun Hjob) as (job1 & Hjob1 & Hreq & _).
    assert (job1 = job') as -> by congruence.
    pose proof (run_inv _ _ _ Hinv Hrun) as [Hjobs' _].
    destruct (jobs_ok_lookup _ _ _ _ Hjobs' Hjob') as (t & Htask & Hjinv).
    destruct (job_inv_bounds _ _ _ Hjinv) as (_ & _ & Hrunning & _).
    destruct t; try (rewrite Hrunning in Hst; done).
    destruct Hjinv as [_ Hjinv].
    rewrite (same_request_enumeration _ _ _ Hreq), Henum in Hjinv.
    destruct Hjinv as (Hdone & _). congruence.
Qed.

Lemma take_length_le {A} (l : list A) (max : Z) :
  0 ≤ max → Z.of_nat (length (take (Z.to_nat max) l)) ≤ max.
Proof. intros Hmax. rewrite length_take. lia. Qed.

Lemma ensureVideosTabUrl_string s : ∃ url, Downloader.ensureVideosTabUrl (JStr s) = Return url.
Proof.
  unfold Downloader.ensureVideosTabUrl, js_or. destruct (truthy (JStr s)); by eexists.
Qed.

Lemma enumeration_cases jobId job :
  1 ≤ maxVideos job ≤ 100 →
  match (let* _ := Downloader.ensureYtDlp (W jobId) in
         let* url := Downloader.ensureVideosTabUrl (JStr (channelUrl job)) in
         Downloader.exec_listing (W jobId) url (maxVideos job)) with
  | Throw e => enumeration jobId job = Throw e
  | Return parsed =>
      match get parsed "entries" with
      | Throw e => enumeration jobId job = Throw e
      | Return entries =>
          ∃ ids, enumeration jobId job = Return ids
                 ∧ Z.of_nat (length ids) ≤ maxVideos job
      end
  end.
Proof.
  intros Hmax. unfold enumeration, Downloader.listVideoIds.
  rewrite (clampInt_number_of_Z _ Hmax). cbn [bind].
  destruct (Downloader.ensureYtDlp (W jobId)) as [e|[]]; [done|]. cbn [bind].
  destruct (ensureVideosTabUrl_string (channelUrl job)) as [url ->]. cbn [bind].
  destruct (Downloader.exec_listing _ _ _) as [e|parsed]; [done|]. cbn [bind].
  destruct (get parsed "entries") as [e|entries]; [done|]. cbn [bind].
  eexists. split; [done|]. apply take_length_le. lia.
Qed.

(** C2, as amended.  The enumeration fails exactly when the listing call
    (making sure the external tool is there, its run on the videos tab of
    the channel, and the parsing of its output) throws or its parsed
    output is null; then, once the download has settled, the
    job is [Error] with [completed = 0], no results and [error] set to the
    message, and it is never [Done].  A listing that can be read yields at
    most [maxVideos] identifiers, fewer and also none when that is all it
    holds, without an error: the job then ends [Done] with [total] the
    number of identifiers found.  In both cases the download settles. *)
Theorem enumeration_outcome (σ : State) (jobId : string) (job : Job) :
  reachable W σ → youtubeJobs σ !! jobId = Some job →
  let listing :=
    let* _ := Downloader.ensureYtDlp (W jobId) in
    let* url := Downloader.ensureVideosTabUrl (JStr (channelUrl job)) in
    Downloader.exec_listing (W jobId) url (maxVideos job) in
  (∀ e, enumeration jobId job = Throw e ↔
        listing = Throw e
        ∨ ∃ parsed, listing = Return parsed ∧ (parsed = JNull ∨ parsed = JUndefined)
                    ∧ get parsed "entries" = Throw e)
  ∧ (∀ parsed, listing = Return parsed → parsed ≠ JNull → parsed ≠ JUndefined →
       ∃ ids, enumeration jobId job = Return ids
              ∧ Z.of_nat (length ids) ≤ maxVideos job)
  ∧ (∀ ls σ', run W ls σ = Some σ' → tasks σ' !! jobId = Some Settled →
       ∃ job', youtubeJobs σ' !! jobId = Some job'
               ∧ match enumeration jobId job with
                 | Throw e =>
                     status job' = Error ∧ completed job' = 0 ∧ results job' = []
                     ∧ error job' = Some (error_text e)
                 | Return ids =>
                     status job' = Done ∧ total job' = Z.of_nat (length ids)
                     ∧ length (results job') = length ids
                 end)
  ∧ (∀ e ls σ' job', enumeration jobId job = Throw e →
       run W ls σ = Some σ' → youtubeJobs σ' !! jobId = Some job' →
       status job' ≠ Done ∧ completed job' = 0 ∧ results job' = [])
  ∧ (∃ n σ', (n ≤ resumptions_bound jobId job)%nat
             ∧ run W (repeat (Settle jobId) n) σ = Some σ'
             ∧ tasks σ' !! jobId = Some Settled).
Proof.
  intros Hreach Hjob listing. pose proof (reachable_inv _ Hreach) as Hinv.
  destruct (jobs_ok_lookup _ _ _ _ (proj1 Hinv) Hjob) as (t0 & Htask0 & Hmax & _).
  pose proof (enumeration_cases jobId job Hmax) as Hcases. fold listing in Hcases.
  split; [|split; [|split; [|split]]].
  - intros e. destruct listing as [e'|parsed] eqn:Hlisting.
    + rewrite Hcases. split.
      * intros [= ->]. by left.
      * intros [[= ->]|(parsed & [=] & _)]. done.
    + destruct (get parsed "entries") as [e'|entries] eqn:Hentries.
      * rewrite Hcases. split.
        -- intros [= ->]. right. exists parsed. split; [done|]. split; [|done].
           destruct parsed; try done; (by left) || (by right).
        -- intros [[=]|(parsed' & [= <-] & _ & Hget)]. congruence.
      * destruct Hcases as (ids & -> & _). split; [done|].
        intros [[=]|(parsed' & [= <-] & _ & Hget)]. congruence.
  - intros parsed Hparsed Hnull Hundef. rewrite Hparsed in Hcases.
    destruct (get parsed "entries") as [e'|entries] eqn:Hentries; [|done].
    by destruct parsed.
  - intros ls σ' Hrun Hsettled.
    destruct (settled_job _ _ _ _ _ Hinv Hjob Hrun Hsettled) as (job' & Hjob' & Hreq & _ & Hjinv).
    rewrite (same_request_enumeration _ _ _ Hreq) in Hjinv.
    exists job'. split; [done|].
    destruct (enumeration jobId job) as [e|ids].
    + by destruct Hjinv as (? & ? & ? & ? & ?).
    + destruct Hjinv as (? & ? & ? & ? & Hresults).
      by rewrite Hresults, all_pushed_length.
  - intros e ls σ' job' Henum Hrun Hjob'.
    destruct (run_job _ _ _ _ _ Hinv Hrun Hjob) as (job1 & Hjob1 & Hreq & _).
    assert (job1 = job') as -> by congruence.
    pose proof (run_inv _ _ _ Hinv Hrun) as [Hjobs' _].
    destruct (jobs_ok_lookup _ _ _ _ Hjobs' Hjob') as (t & Htask & _ & Hjinv).
    rewrite <- (same_request_enumeration _ _ _ Hreq) in Henum.
    destruct t as [url max|ids i results'|ids i results' item|].
    + destruct Hjinv as (_ & _ & Hst & _ & Hdone & Hresults & _). by rewrite Hst.
    + destruct Hjinv as (Henum' & _). congruence.
    + destruct Hjinv as ((Henum' & _) & _). congruence.
    + rewrite Henum in Hjinv. destruct Hjinv as (Hst & _ & Hdone & Hresults & _).
      by rewrite Hst.
  - by apply settles.
Qed.

(** *** What a subscriber receives *)

Lemma send_all_notin msgs set resps r : r ∉ set → send_all msgs set resps !! r = resps !! r.
Proof.
  intros Hr. unfold send_all. revert resps.
  induction msgs as [|m msgs IH]; intros resps; [done|]. simpl.
  by rewrite IH, alter_all_notin.
Qed.

Lemma send_all_in msgs set resps r res :
  NoDup set → r ∈ set → resps !! r = Some res → ended res = false →
  send_all msgs set resps !! r
  = Some {| req_jobId := req_jobId res; written := written res ++ msgs; ended := false |}.
Proof.
  intros Hnd Hr. unfold send_all. revert resps res.
  induction msgs as [|m msgs IH]; intros resps res Hres Hopen.
  - simpl. rewrite app_nil_r, Hres. destruct res. simpl in *. by subst.
  - simpl.
    rewrite (IH _ {| req_jobId := req_jobId res; written := written res ++ [m];
                     ended := false |}).
    + simpl. by rewrite <- app_assoc.
    + rewrite alter_all_in, Hres by done. simpl. unfold write. by rewrite Hopen.
    + done.
Qed.

Lemma audience_delete σ jobId k streams' :
  streams' = delete k (youtubeStreams σ) →
  default [] (streams' !! jobId) = if decide (k = jobId) then [] else audience σ jobId.
Proof.
  intros ->. unfold audience. case_decide as Hk.
  - subst. by rewrite lookup_delete_eq.
  - by rewrite lookup_delete_ne.
Qed.

Lemma elem_of_set_add r r' set : r ∈ set_add r' set ↔ r ∈ set ∨ r = r'.
Proof.
  unfold set_add. case_decide as Hin.
  - split; [by left|]. intros [?| ->]; done.
  - rewrite elem_of_app, list_elem_of_singleton. done.
Qed.

Lemma elem_of_set_delete r r' set : r ∈ set_delete r' set ↔ r ∈ set ∧ r ≠ r'.
Proof. unfold set_delete. rewrite list_elem_of_filter. (clear W; tauto). Qed.

Lemma audience_detach σ jobId k r r' :
  r ∈ audience (set_streams (alter (set_delete r') k) σ) jobId
  ↔ r ∈ audience σ jobId ∧ (k = jobId → r ≠ r').
Proof.
  unfold audience. simpl. destruct (decide (k = jobId)) as [->|Hne].
  - rewrite lookup_alter_eq. destruct (youtubeStreams σ !! jobId) as [set|]; simpl.
    + rewrite elem_of_set_delete. (clear W; tauto).
    + rewrite elem_of_nil. (clear W; tauto).
  - rewrite lookup_alter_ne by done. (clear W; tauto).
Qed.

Lemma audience_other σ jobId r res :
  streams_ok (youtubeStreams σ) (responses σ) →
  responses σ !! r = Some res → req_jobId res ≠ jobId → r ∉ audience σ jobId.
Proof.
  intros Hok Hres Hne Hr. unfold audience in Hr.
  destruct (youtubeStreams σ !! jobId) as [set|] eqn:Hset; simpl in Hr;
    [|by apply elem_of_nil in Hr].
  destruct (Hok jobId set Hset) as [_ Hall].
  destruct (Hall r Hr) as (res' & Hres' & Hid & _). congruence.
Qed.

Lemma audience_open σ jobId r :
  streams_ok (youtubeStreams σ) (responses σ) → r ∈ audience σ jobId →
  NoDup (audience σ jobId)
  ∧ ∃ res, responses σ !! r = Some res ∧ req_jobId res = jobId ∧ ended res = false.
Proof.
  intros Hok Hr. unfold audience in *.
  destruct (youtubeStreams σ !! jobId) as [set|] eqn:Hset; simpl in *;
    [|by apply elem_of_nil in Hr].
  destruct (Hok jobId set Hset) as [Hnd Hall]. split; [done|]. by apply Hall.
Qed.

Lemma transition_msgs jobId job job' msgs closes :
  transition jobId job job' msgs closes → status job = Running →
  ∃ ps,
    msgs = map progress_msg ps ++ (if closes then [terminal_msg jobId job'] else [])
    ∧ map Downloader.p_completed ps = seqZ (completed job + 1) (Z.of_nat (length ps))
    ∧ (closes = false → completed job' = completed job + Z.of_nat (length ps))
    ∧ (closes = true → status job' = Done →
       completed job + Z.of_nat (length ps) = total job').
Proof.
  intros Htrans Hst.
  destruct Htrans as [|p Hp Hmore|p results' Hp Hlast| Hzero |e Hzero].
  - exists []. repeat split; try done; simpl; lia.
  - exists [p]. simpl. rewrite Hp. repeat split; try done; simpl; lia.
  - exists [p]. simpl. rewrite Hp. repeat split; try done; simpl; lia.
  - exists []. repeat split; try done; simpl; lia.
  - exists []. repeat split; try done; simpl; lia.
Qed.

Lemma watching_frame jobId r snapshot c0 closed σ σ' :
  responses σ' !! r = responses σ !! r →
  youtubeJobs σ' !! jobId = youtubeJobs σ !! jobId →
  (r ∈ audience σ' jobId ↔ r ∈ audience σ jobId) →
  watching jobId r snapshot c0 closed σ → watching jobId r snapshot c0 closed σ'.
Proof.
  intros Hresp Hjobs Haud (res & job & ps & term & Hres & Hid & Hjob & Hlog & Hseq & Hmode).
  exists res, job, ps, term. rewrite Hresp, Hjobs. repeat (split; [done|]).
  destruct Hmode as [(? & ? & ? & ? & ?)|[(? & ? & ?)|?]]; [left|right; left|right; right];
    rewrite ?Haud; done.
Qed.

Lemma seqZ_snoc_map (ps ps1 : list Downloader.Progress) c0 c :
  map Downloader.p_completed ps = seqZ (c0 + 1) (Z.of_nat (length ps)) →
  c0 + Z.of_nat (length ps) = c →
  map Downloader.p_completed ps1 = seqZ (c + 1) (Z.of_nat (length ps1)) →
  map Downloader.p_completed (ps ++ ps1) = seqZ (c0 + 1) (Z.of_nat (length (ps ++ ps1))).
Proof.
  intros Hps Hc Hps1. rewrite map_app, length_app, Nat2Z.inj_add, seqZ_app by lia.
  rewrite Hps, Hps1. do 2 f_equal. lia.
Qed.

Lemma settle_watching jobId r snapshot c0 closed σ σ' :
  inv σ → watching jobId r snapshot c0 closed σ → resume W jobId σ = Some σ' →
  watching jobId r snapshot c0 closed σ'.
Proof.
  intros Hinv (res & job & ps & term & Hres & Hid & Hjob & Hlog & Hseq & Hmode) Hresume.
  destruct (resume_summary _ _ _ Hinv Hresume) as (job0 & job' & t & msgs & closes & Hsum).
  destruct Hsum as [Hjob0 Htask Hrunning Hjobs' Htasks' Hstreams' Hresps' Htrans].
  assert (job0 = job) as -> by congruence.
  destruct (transition_job _ _ _ _ _ Htrans) as (_ & _ & Hcloses).
  specialize (Hcloses Hrunning).
  destruct (transition_msgs _ _ _ _ _ Htrans Hrunning) as (ps1 & Hmsgs & Hseq1 & Hopen & Hdone).
  assert (youtubeJobs σ' !! jobId = Some job') as Hjob' by (by rewrite Hjobs', lookup_insert_eq).
  assert (default [] (youtubeStreams σ' !! jobId) = if closes then [] else audience σ jobId)
    as Haudience.
  { rewrite Hstreams'. destruct closes; [|done]. by rewrite lookup_delete_eq. }
  destruct Hmode as [(Hst & Hclosed & Hin & -> & Hc)|[(Hclosed & Hout & ->)|(Hst & _)]];
    [| |done].
  - (* live: the broadcasts reach the response *)
    destruct (audience_open _ _ _ (proj2 Hinv) Hin) as (Hnd & res' & Hres' & _ & Hnotended).
    assert (res' = res) as -> by congruence.
    pose proof (send_all_in msgs _ _ _ _ Hnd Hin Hres Hnotended) as Hsent.
    exists (if closes
            then end_response {| req_jobId := req_jobId res; written := written res ++ msgs;
                                 ended := false |}
            else {| req_jobId := req_jobId res; written := written res ++ msgs;
                    ended := false |}),
      job', (ps ++ ps1), (if closes then [terminal_msg jobId job'] else []).
    split.
    { rewrite Hresps'. destruct closes; simpl; [|done].
      by rewrite alter_all_in, Hsent. }
    split; [by destruct closes|]. split; [done|]. split.
    { rewrite Hmsgs, Hlog, app_nil_r, map_app. destruct closes; simpl; by rewrite <- !app_assoc. }
    split.
    { by apply (seqZ_snoc_map ps ps1 c0 (completed job)). }
    rewrite length_app, Nat2Z.inj_add. destruct closes.
    + right. right. split; [by apply Hcloses|]. split; [done|].
      intros Hdone'. rewrite <- (Hdone eq_refl Hdone'). lia.
    + left. split.
      { destruct (status job') eqn:Hst'; [done|..]; exfalso;
          assert (false = true) by (apply Hcloses; congruence); done. }
      split; [done|]. split; [|split; [done|]].
      * unfold audience. by rewrite Haudience.
      * rewrite (Hopen eq_refl). lia.
  - (* detached: nothing reaches the response *)
    exists res, job', ps, []. split.
    { rewrite Hresps'. destruct closes; simpl.
      - by rewrite alter_all_notin, send_all_notin.
      - by rewrite send_all_notin. }
    repeat (split; [done|]). right. left. split; [done|]. split; [|done].
    unfold audience. rewrite Haudience. destruct closes; [apply not_elem_of_nil|done].
Qed.

Lemma step_watching l jobId r snapshot c0 closed σ σ' :
  inv σ → watching jobId r snapshot c0 closed σ → step W l σ = Some σ' →
  watching jobId r snapshot c0 (closed || is_close r l) σ'.
Proof.
  intros Hinv Hwatch Hstep. pose proof Hwatch as
    (res & job & ps & term & Hres & Hid & Hjob & Hlog & Hseq & Hmode).
  destruct l as [jobId' now body|jobId'|jobId' r'|r']; simpl in Hstep; simpl is_close;
    rewrite ?orb_false_r.
  - (* a job is created under another id *)
    case_decide as Hfresh; [|done]. injection Hstep as <-.
    destruct (post_jobs_cases jobId' now body σ) as [->|(url & max & _ & _ & Hclamp & ->)]; [done|].
    assert (jobId' ≠ jobId) as Hne by congruence.
    apply watching_frame with σ; try done; simpl.
    + apply alter_all_notin. eapply audience_other; [apply Hinv|done|congruence].
    + by rewrite lookup_insert_ne.
  - destruct (decide (jobId' = jobId)) as [->|Hne]; [by eapply settle_watching|].
    (* the download of another job goes on *)
    destruct (resume_summary _ _ _ Hinv Hstep) as (job0 & job' & t & msgs & closes & Hsum).
    destruct Hsum as [_ _ _ Hjobs' _ Hstreams' Hresps' _].
    assert (r ∉ audience σ jobId') as Hout.
    { eapply audience_other; [apply Hinv|done|congruence]. }
    apply watching_frame with σ; try done.
    + rewrite Hresps'. destruct closes; simpl.
      * by rewrite alter_all_notin, send_all_notin.
      * by rewrite send_all_notin.
    + by rewrite Hjobs', lookup_insert_ne.
    + unfold audience. rewrite Hstreams'. destruct closes; [|done].
      by rewrite lookup_delete_ne.
  - (* another response is attached *)
    case_decide as Hfresh; [|done]. injection Hstep as <-.
    assert (r' ≠ r) as Hne by congruence.
    rewrite get_stream_eq.
    apply watching_frame with σ; try done; simpl.
    + by rewrite lookup_insert_ne.
    + unfold audience. simpl. destruct (decide (jobId' = jobId)) as [->|Hne'].
      * rewrite lookup_insert_eq. simpl. rewrite elem_of_set_add.
        unfold audience. split; [intros [?|?]; [done|congruence]|by left].
      * by rewrite lookup_insert_ne.
  - apply on_close_eq in Hstep as (res' & Hres' & ->).
    destruct (decide (r' = r)) as [->|Hne].
    + (* the request itself is closed *)
      rewrite bool_decide_eq_true_2, orb_true_r by done.
      assert (res' = res) as -> by congruence.
      exists res, job, ps, term. repeat (split; [done|]).
      assert (r ∉ audience (set_streams (alter (set_delete r) (req_jobId res)) σ) jobId)
        as Hgone.
      { rewrite audience_detach. intros [_ Hr]. by apply Hr. }
      destruct Hmode as [(? & ? & ? & ? & ?)|[(? & ? & ?)|?]];
        [right; left|right; left|right; right]; done.
    + rewrite bool_decide_eq_false_2, orb_false_r by done.
      apply watching_frame with σ; try done.
      rewrite audience_detach. split; [by intros [? _]|]. intros ?. split; [done|congruence].
Qed.

Lemma run_watching ls : ∀ jobId r snapshot c0 closed σ σ',
  inv σ → watching jobId r snapshot c0 closed σ → run W ls σ = Some σ' →
  watching jobId r snapshot c0 (closed || existsb (is_close r) ls) σ'.
Proof.
  induction ls as [|l ls IH]; intros jobId r snapshot c0 closed σ σ' Hinv Hwatch Hrun;
    simpl in Hrun.
  - injection Hrun as <-. simpl. by rewrite orb_false_r.
  - destruct (step W l σ) as [σ1|] eqn:Hstep; [|done]. simpl in Hrun.
    simpl. rewrite orb_assoc. eapply IH; [by eapply step_inv| |done].
    by eapply step_watching.
Qed.

(** A response attached to a job that has ended keeps what the replay
    wrote to it. *)
Lemma step_written_after_end l jobId r σ σ' job res :
  inv σ → youtubeJobs σ !! jobId = Some job → status job ≠ Running →
  responses σ !! r = Some res → req_jobId res = jobId →
  step W l σ = Some σ' →
  ∃ res', responses σ' !! r = Some res' ∧ req_jobId res' = jobId
          ∧ written res' = written res.
Proof.
  intros Hinv Hjob Hst Hres Hid Hstep.
  assert (responses σ' !! r = Some res →
          ∃ res', responses σ' !! r = Some res' ∧ req_jobId res' = jobId
                  ∧ written res' = written res) as Hsame by eauto.
  destruct l as [jobId' now body|jobId'|jobId' r'|r']; simpl in Hstep.
  - case_decide as Hfresh; [|done]. injection Hstep as <-. apply Hsame.
    destruct (post_jobs_cases jobId' now body σ) as [->|(url & max & _ & _ & Hclamp & ->)]; [done|].
    simpl. rewrite alter_all_notin; [done|].
    eapply audience_other; [apply Hinv|done|congruence].
  - destruct (resume_summary _ _ _ Hinv Hstep) as (job0 & job' & t & msgs & closes & Hsum).
    destruct Hsum as [Hjob0 _ Hrunning _ _ _ Hresps' _].
    assert (jobId' ≠ jobId) as Hne by (intros ->; congruence).
    assert (r ∉ audience σ jobId') as Hout.
    { eapply audience_other; [apply Hinv|done|congruence]. }
    apply Hsame. rewrite Hresps'. destruct closes; simpl.
    + by rewrite alter_all_notin, send_all_notin.
    + by rewrite send_all_notin.
  - case_decide as Hfresh; [|done]. injection Hstep as <-. apply Hsame.
    rewrite get_stream_eq. simpl. rewrite lookup_insert_ne; [done|]. congruence.
  - apply on_close_eq in Hstep as (res' & Hres' & ->). by apply Hsame.
Qed.

Lemma run_written_after_end ls : ∀ jobId r σ σ' job res,
  inv σ → youtubeJobs σ !! jobId = Some job → status job ≠ Running →
  responses σ !! r = Some res → req_jobId res = jobId →
  run W ls σ = Some σ' →
  ∃ res', responses σ' !! r = Some res' ∧ written res' = written res.
Proof.
  induction ls as [|l ls IH]; intros jobId r σ σ' job res Hinv Hjob Hst Hres Hid Hrun;
    simpl in Hrun.
  - injection Hrun as <-. eauto.
  - destruct (step W l σ) as [σ1|] eqn:Hstep; [|done]. simpl in Hrun.
    destruct (step_written_after_end _ _ _ _ _ _ _ Hinv Hjob Hst Hres Hid Hstep)
      as (res1 & Hres1 & Hid1 & Hlog1).
    destruct (step_job _ _ _ _ _ Hinv Hstep Hjob) as (job1 & Hjob1 & _ & _ & Hfix & _).
    rewrite (Hfix Hst) in Hjob1.
    destruct (IH jobId r σ1 σ' job res1 (step_inv _ _ _ Hinv Hstep) Hjob1 Hst Hres1 Hid1 Hrun)
      as (res' & Hres' & Hlog').
    exists res'. split; [done|]. congruence.
Qed.

Lemma skip_progress (ps : list Downloader.Progress) (term : list (EventName * Data)) :
  (term = [] ∨ ∃ d, term = [(done_ev, d)] ∨ term = [(error_ev, d)]) →
  skip progress_ev (map fst (map progress_msg ps ++ term)) = map fst term.
Proof.
  intros Hterm. induction ps as [|p ps IH]; [|done].
  destruct Hterm as [->|(d & [->| ->])]; done.
Qed.

Lemma in_sequence_log snapshot_data ps term :
  (term = [] ∨ ∃ d, term = [(done_ev, d)] ∨ term = [(error_ev, d)]) →
  in_sequence (map fst ((status_ev, snapshot_data) :: (map progress_msg ps ++ term))) = true.
Proof.
  intros Hterm. unfold in_sequence.
  assert (skip status_ev (map fst ((status_ev, snapshot_data) :: (map progress_msg ps ++ term)))
          = map fst (map progress_msg ps ++ term)) as ->.
  { simpl. destruct ps as [|p ps]; [|done].
    destruct Hterm as [->|(d & [->| ->])]; done. }
  rewrite skip_progress by done.
  destruct Hterm as [->|(d & [->| ->])]; done.
Qed.

Lemma terminal_msg_kind jobId job :
  ∃ d, [terminal_msg jobId job] = [(done_ev, d)] ∨ [terminal_msg jobId job] = [(error_ev, d)].
Proof. unfold terminal_msg. destruct (status job); eauto. Qed.

(** C6, as amended.  A response attached to an existing job receives, in this order:
    the replayed [status] snapshot; then, while the job runs, the
    [progress] events of the units that finish after the attachment, their
    [completed] values going up one by one from the snapshot's count plus
    one (from 1 when nothing had finished); then at most one terminal
    event, [done] or [error], and nothing after it.  A response that is
    not closed before the job ends has the terminal event, and when that is
    [done] the last [completed] value is [total].  A response attached
    after the end of the job receives the snapshot and exactly one
    terminal event, and no [progress] event. *)
Theorem subscriber_event_sequence (σ σ' : State) (jobId : string) (job0 : Job) (r : nat)
    (ls : list Label) :
  reachable W σ → youtubeJobs σ !! jobId = Some job0 → responses σ !! r = None →
  run W (GetStream jobId r :: ls) σ = Some σ' →
  ∃ res job ps term,
    responses σ' !! r = Some res
    ∧ youtubeJobs σ' !! jobId = Some job
    ∧ written res
      = (status_ev, Snapshot (status job0) (completed job0) (total job0))
        :: (map progress_msg ps ++ term)
    ∧ in_sequence (map fst (written res)) = true
    ∧ map Downloader.p_completed ps
      = seqZ (completed job0 + 1) (Z.of_nat (length ps))
    ∧ (status job0 ≠ Running →
       ps = [] ∧ term = replayed_terminal jobId job0 ∧ length term = 1%nat)
    ∧ (status job0 = Running →
       (term = [] ∨ (term = [terminal_msg jobId job] ∧ status job ≠ Running))
       ∧ (status job ≠ Running → existsb (is_close r) ls = false →
          term = [terminal_msg jobId job]
          ∧ (status job = Done → completed job0 + Z.of_nat (length ps) = total job))).
Proof.
  intros Hreach Hjob0 Hfresh Hrun. pose proof (reachable_inv _ Hreach) as Hinv.
  simpl in Hrun. rewrite decide_True in Hrun by done. simpl in Hrun.
  assert (step W (GetStream jobId r) σ = Some (get_stream jobId r σ)) as Hstep.
  { simpl. by rewrite decide_True. }
  pose proof (step_inv _ _ _ Hinv Hstep) as Hinv1.
  assert (responses (get_stream jobId r σ) !! r
          = Some {| req_jobId := jobId; written := replay jobId (Some job0); ended := false |})
    as Hres1.
  { rewrite get_stream_eq, Hjob0. simpl. by rewrite lookup_insert_eq. }
  assert (youtubeJobs (get_stream jobId r σ) !! jobId = Some job0) as Hjob1.
  { by rewrite get_stream_eq. }
  assert (status job0 = Running ∨ status job0 ≠ Running) as [Hst0|Hst0]
    by (destruct (status job0); (by left) || by right).
  - (* attached while the job runs *)
    assert (watching jobId r (status_ev, Snapshot (status job0) (completed job0) (total job0))
              (completed job0) false (get_stream jobId r σ)) as Hwatch.
    { eexists _, job0, [], []. split; [done|]. split; [done|]. split; [done|].
      split; [simpl; by rewrite Hst0|]. split; [done|]. left.
      split; [done|]. split; [done|]. split; [|split; [done|simpl; lia]].
      rewrite get_stream_eq. unfold audience. simpl. rewrite lookup_insert_eq. simpl.
      apply elem_of_set_add. by right. }
    pose proof (run_watching _ _ _ _ _ _ _ _ Hinv1 Hwatch Hrun) as
      (res & job & ps & term & Hres & Hid & Hjob & Hlog & Hseq & Hmode).
    simpl in Hmode.
    assert (term = [] ∨ (term = [terminal_msg jobId job] ∧ status job ≠ Running)) as Hterm.
    { destruct Hmode as [(_ & _ & _ & -> & _)|[(_ & _ & ->)|(? & -> & _)]]; auto. }
    exists res, job, ps, term. split; [done|]. split; [done|]. split; [done|]. split.
    { rewrite Hlog. apply in_sequence_log.
      destruct Hterm as [->|[-> _]]; [by left|right]. apply terminal_msg_kind. }
    split; [done|]. split; [done|]. intros _. split; [done|].
    intros Hst Hopen. rewrite Hopen in Hmode.
    destruct Hmode as [(? & _)|[(? & _)|(_ & -> & Hdone)]]; done.
  - (* attached after the job has ended *)
    destruct (run_written_after_end _ _ _ _ _ _ _ Hinv1 Hjob1 Hst0 Hres1 eq_refl Hrun)
      as (res & Hres & Hlog).
    destruct (run_job _ _ _ _ _ Hinv1 Hrun Hjob1) as (job & Hjob & _ & _ & Hfix).
    exists res, job, [], (replayed_terminal jobId job0).
    simpl in Hlog. split; [done|]. split; [done|]. split.
    { rewrite Hlog. unfold replayed_terminal. by destruct (status job0). }
    split.
    { rewrite Hlog. unfold in_sequence. by destruct (status job0). }
    split; [done|]. split; [|done]. intros _. split; [done|]. split; [done|].
    unfold replayed_terminal. by destruct (status job0).
Qed.

(** *** A stream requested for an unknown job *)

Lemma get_stream_unanswered jobId r σ :
  youtubeJobs σ !! jobId = None → unanswered jobId r false (get_stream jobId r σ).
Proof.
  intros Hjob. rewrite get_stream_eq. unfold unanswered, audience. simpl.
  rewrite Hjob, !lookup_insert_eq. simpl. repeat split.
  intros _. apply elem_of_set_add. by right.
Qed.

Lemma step_unanswered l jobId r closed σ σ' :
  inv σ → unanswered jobId r closed σ → step W l σ = Some σ' →
  youtubeJobs σ' !! jobId = None →
  unanswered jobId r (closed || is_close r l) σ'.
Proof.
  intros Hinv (Hjob & Hres & Hin) Hstep Hjob'.
  destruct l as [jobId' now body|jobId'|jobId' r'|r']; simpl in Hstep; simpl is_close;
    rewrite ?orb_false_r.
  - (* a job is created under another id, or none is *)
    case_decide as Hfresh; [|done]. injection Hstep as <-.
    destruct (post_jobs_cases jobId' now body σ)
      as [Hsame|(url & max & _ & _ & Hclamp & Hcreated)].
    { rewrite Hsame. by split. }
    rewrite Hcreated in Hjob' |- *. simpl in Hjob'.
    assert (jobId' ≠ jobId) as Hne.
    { intros ->. by rewrite lookup_insert_eq in Hjob'. }
    split; [done|]. split; [|done]. simpl.
    rewrite alter_all_notin; [done|].
    eapply audience_other; [apply Hinv|done|]. simpl. congruence.
  - (* the download of another job goes on *)
    destruct (resume_summary _ _ _ Hinv Hstep) as (job0 & job' & t & msgs & closes & Hsum).
    destruct Hsum as [Hjob0 _ _ Hjobs' _ Hstreams' Hresps' _].
    assert (jobId' ≠ jobId) as Hne by congruence.
    assert (r ∉ audience σ jobId') as Hout.
    { eapply audience_other; [apply Hinv|done|]. simpl. congruence. }
    split; [done|]. split.
    + rewrite Hresps'. destruct closes; simpl.
      * by rewrite alter_all_notin, send_all_notin.
      * by rewrite send_all_notin.
    + unfold audience in *. rewrite Hstreams'. destruct closes; [|done].
      by rewrite lookup_delete_ne.
  - (* another response is attached *)
    case_decide as Hfresh; [|done]. injection Hstep as <-.
    assert (r' ≠ r) as Hne by congruence.
    rewrite get_stream_eq. split; [done|]. split; simpl.
    + by rewrite lookup_insert_ne.
    + rewrite <- Hin. unfold audience. simpl.
      destruct (decide (jobId' = jobId)) as [->|Hne'].
      * rewrite lookup_insert_eq. simpl. rewrite elem_of_set_add.
        unfold audience. split; [intros [?|?]; [done|congruence]|by left].
      * by rewrite lookup_insert_ne.
  - apply on_close_eq in Hstep as (res' & Hres' & ->).
    split; [done|]. split; [done|]. rewrite audience_detach.
    destruct (decide (r' = r)) as [->|Hne].
    + rewrite bool_decide_eq_true_2, orb_true_r by done.
      assert (req_jobId res' = jobId) as Hid by (rewrite Hres in Hres'; by injection Hres' as <-).
      split; [intros [_ Hr]; by destruct (Hr Hid)|done].
    + rewrite bool_decide_eq_false_2, orb_false_r by done. rewrite <- Hin.
      split; [by intros [? _]|]. intros ?. split; [done|congruence].
Qed.

Lemma run_unanswered ls : ∀ jobId r closed σ σ',
  inv σ → unanswered jobId r closed σ → run W ls σ = Some σ' →
  youtubeJobs σ' !! jobId = None →
  unanswered jobId r (closed || existsb (is_close r) ls) σ'.
Proof.
  induction ls as [|l ls IH]; intros jobId r closed σ σ' Hinv Hun Hrun Hjob';
    simpl in Hrun.
  - injection Hrun as <-. simpl. by rewrite orb_false_r.
  - destruct (step W l σ) as [σ1|] eqn:Hstep; [|done]. simpl in Hrun.
    pose proof (step_inv _ _ _ Hinv Hstep) as Hinv1.
    assert (youtubeJobs σ1 !! jobId = None) as Hjob1.
    { destruct (youtubeJobs σ1 !! jobId) as [job1|] eqn:Hjob1; [|done].
      destruct (run_job _ _ _ _ _ Hinv1 Hrun Hjob1) as (job' & Hsome & _). congruence. }
    simpl. rewrite orb_assoc. eapply IH; [done| |done|done].
    exact (step_unanswered _ _ _ _ _ _ Hinv Hun Hstep Hjob1).
Qed.

(** C7, as amended.  A stream request for a job id unknown to the
    registry is answered with one [error] event, "Unknown jobId", at once;
    the handler does not end the response, which is attached under that
    id.  As long as no job is created under the id, whatever else
    happens, nothing more is written to the response and it is not ended;
    it stays attached under the id until its request is closed. *)
Theorem unknown_job_stream (σ σ' : State) (jobId : string) (r : nat) (ls : list Label) :
  reachable W σ → youtubeJobs σ !! jobId = None → responses σ !! r = None →
  run W ls (get_stream jobId r σ) = Some σ' →
  (step W (GetStream jobId r) σ = Some (get_stream jobId r σ)
   ∧ responses (get_stream jobId r σ) !! r
     = Some {| req_jobId := jobId;
               written := [(error_ev, ErrorData "Unknown jobId")];
               ended := false |}
   ∧ r ∈ audience (get_stream jobId r σ) jobId
   ∧ youtubeJobs (get_stream jobId r σ) = youtubeJobs σ)
  ∧ (youtubeJobs σ' !! jobId = None →
     responses σ' !! r
     = Some {| req_jobId := jobId;
               written := [(error_ev, ErrorData "Unknown jobId")];
               ended := false |}
     ∧ (r ∈ audience σ' jobId ↔ existsb (is_close r) ls = false)).
Proof.
  intros Hreach Hjob Hfresh Hrun.
  pose proof (get_stream_unanswered jobId r σ Hjob) as Hun.
  assert (step W (GetStream jobId r) σ = Some (get_stream jobId r σ)) as Hstep.
  { simpl. by rewrite decide_True. }
  split.
  - destruct Hun as (_ & Hres & Hin). split; [done|]. split; [done|]. split; [by apply Hin|].
    by rewrite get_stream_eq.
  - intros Hjob'.
    pose proof (step_inv _ _ _ (reachable_inv _ Hreach) Hstep) as Hinv1.
    by destruct (run_unanswered ls jobId r false _ σ' Hinv1 Hun Hrun Hjob') as (_ & ? & ?).
Qed.

End Properties.

(** ** The claims on concrete runs *)
Section Scenarios.
Import Js Server.

(** The job of [one_job] over [three_videos]: three units, one failing. *)
Lemma batch_runs_to_completion_witness :
  (∃ n σ', (n ≤ 7)%nat
           ∧ run three_videos_each (repeat (Settle "job-1") n) one_job = Some σ'
           ∧ tasks σ' !! "job-1" = Some Settled)
  ∧ ∃ job', (run three_videos_each (repeat (Settle "job-1") 6) one_job
               ≫= λ σ', youtubeJobs σ' !! "job-1") = Some job'
            ∧ status job' = Done
            ∧ completed job' = 3
            ∧ total job' = 3
            ∧ length (results job') = 3%nat
            ∧ error_entries (results job') = 1%nat.
Proof.
  destruct (batch_runs_to_completion three_videos_each one_job "job-1" job_1
              ["a1"; "b2"; "c3"]) as (Hsettles & Hdone & _).
  - exists [PostJobs "job-1" "2026-01-01T00:00:00.000Z" request_body]. by vm_compute.
  - by vm_compute.
  - by vm_compute.
  - split; [exact Hsettles|].
    destruct (run three_videos_each (repeat (Settle "job-1") 6) one_job) as [σ'|] eqn:Hrun;
      [|by vm_compute in Hrun].
    destruct (Hdone _ σ' Hrun) as (job' & Hjob' & Hst & Hc & Ht & Hlen & Herrors & _).
    + assert (option_map (λ σ', tasks σ' !! "job-1")
                (run three_videos_each (repeat (Settle "job-1") 6) one_job)
              = Some (Some Settled)) as Htask by by vm_compute.
      rewrite Hrun in Htask. by injection Htask.
    + exists job'. change (Some σ' ≫= λ σ', youtubeJobs σ' !! "job-1")
        with (youtubeJobs σ' !! "job-1").
      repeat (split; [assumption|]). rewrite Herrors. by vm_compute.
Defined.

Lemma job_invariants_witness :
  0 ≤ completed job_1 ≤ total job_1
  ∧ (status job_1 ≠ Running → Z.of_nat (length (results job_1)) = completed job_1)
  ∧ (∀ l σ', step three_videos_each l one_job = Some σ' →
       ∃ job', youtubeJobs σ' !! "job-1" = Some job'
               ∧ (status job_1 ≠ Running → job' = job_1)
               ∧ (status job' = Running → status job_1 = Running))
  ∧ (∀ ls σ', run three_videos_each ls one_job = Some σ' → status job_1 ≠ Running →
       youtubeJobs σ' !! "job-1" = Some job_1)
  ∧ (∃ n σ' job',
       run three_videos_each (repeat (Settle "job-1") n) one_job = Some σ'
       ∧ youtubeJobs σ' !! "job-1" = Some job'
       ∧ (status job' = Done ∨ status job' = Error)).
Proof.
  apply (job_invariants three_videos_each one_job "job-1" job_1).
  - exists [PostJobs "job-1" "2026-01-01T00:00:00.000Z" request_body]. by vm_compute.
  - by vm_compute.
Defined.

(** The tool cannot be run: the job ends in [Error] with the message. *)
Lemma enumeration_outcome_witness :
  ∃ job', (run tool_down [Settle "job-1"] one_job ≫= λ σ', youtubeJobs σ' !! "job-1")
          = Some job'
          ∧ status job' = Error ∧ completed job' = 0 ∧ results job' = []
          ∧ error job' = Some "yt-dlp exited with code 1".
Proof.
  destruct (enumeration_outcome tool_down one_job "job-1" job_1) as (_ & _ & Hsettled & _).
  - exists [PostJobs "job-1" "2026-01-01T00:00:00.000Z" request_body]. by vm_compute.
  - by vm_compute.
  - destruct (run tool_down [Settle "job-1"] one_job) as [σ'|] eqn:Hrun;
      [|by vm_compute in Hrun].
    destruct (Hsettled _ σ' Hrun) as (job' & Hjob' & Houtcome).
    + assert (option_map (λ σ', tasks σ' !! "job-1") (run tool_down [Settle "job-1"] one_job)
              = Some (Some Settled)) as Htask by by vm_compute.
      rewrite Hrun in Htask. by injection Htask.
    + exists job'. split; [exact Hjob'|]. exact Houtcome.
Defined.

(** C2 fails as stated: a listing without entries is no enumeration
    error; the enumeration is empty and the job ends [Done] with
    [total = 0]. *)
Lemma empty_listing_job_done :
  Downloader.listVideoIds (empty_channel "job-1") (JStr "https://www.youtube.com/@ch")
    (JNum (number_of_Z 10)) = Return []
  ∧ (run empty_channel [Settle "job-1"] one_job ≫= λ σ', youtubeJobs σ' !! "job-1")
    = Some {| status := Done; total := 0; completed := 0; results := [];
              createdAt := "2026-01-01T00:00:00.000Z"; error := None;
              channelUrl := "https://www.youtube.com/@ch"; maxVideos := 10 |}.
Proof. by vm_compute. Qed.

(** A stream is requested for "job-2", which does not exist; the
    download of "job-1" then runs to its end, and a second stream is
    requested for "job-2". *)
Lemma unknown_job_stream_witness :
  ∃ σ',
    run three_videos_each (repeat (Settle "job-1") 6 ++ [GetStream "job-2" 1])
      (get_stream "job-2" 0 one_job) = Some σ'
    ∧ responses σ' !! 0%nat
      = Some {| req_jobId := "job-2";
                written := [(error_ev, ErrorData "Unknown jobId")];
                ended := false |}
    ∧ 0%nat ∈ audience σ' "job-2".
Proof.
  assert (∃ σ', run three_videos_each (repeat (Settle "job-1") 6 ++ [GetStream "job-2" 1])
                  (get_stream "job-2" 0 one_job) = Some σ'
                ∧ youtubeJobs σ' !! "job-2" = None) as (σ' & Hrun & Hjob).
  { eexists. split; [by vm_compute|]. by vm_compute. }
  exists σ'. split; [exact Hrun|].
  destruct (unknown_job_stream three_videos_each one_job σ' "job-2" 0
              (repeat (Settle "job-1") 6 ++ [GetStream "job-2" 1])) as (_ & H).
  - exists [PostJobs "job-1" "2026-01-01T00:00:00.000Z" request_body]. by vm_compute.
  - by vm_compute.
  - by vm_compute.
  - exact Hrun.
  - destruct (H Hjob) as (Hres & Hin). split; [exact Hres|]. by apply Hin.
Defined.

(** C7 fails as stated: after the [error] event the response of a
    request for an unknown job is not ended; it stays in the set kept for
    that id. *)
Lemma unknown_job_stream_stays_open :
  (run three_videos_each [GetStream "job-2" 0] one_job ≫= λ σ', responses σ' !! 0%nat)
  = Some {| req_jobId := "job-2";
            written := [(error_ev, ErrorData "Unknown jobId")];
            ended := false |}
  ∧ (run three_videos_each [GetStream "job-2" 0] one_job
       ≫= λ σ', youtubeStreams σ' !! "job-2") = Some [0%nat].
Proof. by vm_compute. Qed.

(** C6 fails as stated: a response attached after the first of three
    units has finished receives the snapshot with [completed = 1] and then
    the progress events 2 and 3, not 1, 2, 3. *)
Lemma late_subscriber_misses_first_progress :
  (run three_videos_each
     (repeat (Settle "job-1") 3 ++ GetStream "job-1" 0 :: repeat (Settle "job-1") 3) one_job
     ≫= λ σ', written <$> responses σ' !! 0%nat)
  = Some [ (status_ev, Snapshot Running 1 3);
           progress_msg (Downloader.process_unit three_videos 3 1 "b2").2;
           progress_msg (Downloader.process_unit three_videos 3 2 "c3").2;
           (done_ev, DoneData "job-1" 3) ]
  ∧ Downloader.p_completed (Downloader.process_unit three_videos 3 1 "b2").2 = 2
  ∧ Downloader.p_completed (Downloader.process_unit three_videos 3 2 "c3").2 = 3.
Proof. by vm_compute. Qed.

(** A response attached before the first unit has finished and kept
    open to the end. *)
Lemma subscriber_event_sequence_witness :
  ∃ σ' res job ps term,
    run three_videos_each (GetStream "job-1" 0 :: repeat (Settle "job-1") 6) one_job = Some σ'
    ∧ responses σ' !! 0%nat = Some res
    ∧ youtubeJobs σ' !! "job-1" = Some job
    ∧ written res = (status_ev, Snapshot Running 0 10) :: (map progress_msg ps ++ term)
    ∧ in_sequence (map fst (written res)) = true
    ∧ map Downloader.p_completed ps = [1; 2; 3]
    ∧ term = [(done_ev, DoneData "job-1" 3)].
Proof.
  destruct (run three_videos_each (GetStream "job-1" 0 :: repeat (Settle "job-1") 6) one_job)
    as [σ'|] eqn:Hrun; [|by vm_compute in Hrun].
  destruct (subscriber_event_sequence three_videos_each one_job σ' "job-1" job_1 0
              (repeat (Settle "job-1") 6))
    as (res & job & ps & term & Hres & Hjob & Hlog & Hseq & Hcompleted & _ & Hrunning).
  - exists [PostJobs "job-1" "2026-01-01T00:00:00.000Z" request_body]. by vm_compute.
  - by vm_compute.
  - by vm_compute.
  - exact Hrun.
  - destruct (Hrunning eq_refl) as (_ & Hend).
    assert (option_map (λ σ', youtubeJobs σ' !! "job-1")
              (run three_videos_each (GetStream "job-1" 0 :: repeat (Settle "job-1") 6) one_job)
            = Some (Some (job_done job_1 3 (all_pushed three_videos_each "job-1" ["a1"; "b2"; "c3"]))))
      as Hfinal by by vm_compute.
    rewrite Hrun in Hfinal. simpl in Hfinal. injection Hfinal as Hfinal.
    rewrite Hfinal in Hjob. injection Hjob as <-.
    destruct Hend as (-> & Htotal); [done|done|].
    specialize (Htotal eq_refl). simpl in Htotal, Hcompleted.
    assert (length ps = 3%nat) as Hlen by lia. rewrite Hlen in Hcompleted.
    exists σ', res,
      (job_done job_1 3 (all_pushed three_videos_each "job-1" ["a1"; "b2"; "c3"])), ps,
      [(done_ev, DoneData "job-1" 3)].
    split; [reflexivity|]. split; [exact Hres|]. split; [assumption|].
    split; [exact Hlog|]. split; [exact Hseq|]. split; [exact Hcompleted|reflexivity].
Defined.

End Scenarios.

(** * Further properties of the code *)

(** ** The helpers of [youtubeDownloader.js] *)

Section DownloaderCoverage.
Import Js Downloader Server.

(** *** Strings and [trim] *)

Lemma string_app_assoc (a b c : string) : (a +:+ b) +:+ c = a +:+ (b +:+ c).
Proof.
  induction a as [|x a IH]; [done|]. by rewrite !append_cons, IH.
Qed.

Lemma string_rev_app_rev a : ∀ c, String.rev_app a c = String.rev a +:+ c.
Proof.
  induction a as [|x a IH]; intros c; [done|].
  unfold String.rev. simpl. rewrite (IH (String x c)), (IH (String x "")).
  by rewrite string_app_assoc, append_cons.
Qed.

Lemma string_rev_cons x a : String.rev (String x a) = String.rev a +:+ String x "".
Proof. unfold String.rev at 1. simpl. by rewrite string_rev_app_rev. Qed.

Lemma string_rev_append a b : String.rev (a +:+ b) = String.rev b +:+ String.rev a.
Proof.
  induction a as [|x a IH].
  - change ("" +:+ b) with b. by rewrite append_empty_r.
  - by rewrite append_cons, !string_rev_cons, IH, string_app_assoc.
Qed.

Lemma string_rev_involutive s : String.rev (String.rev s) = s.
Proof.
  induction s as [|x s IH]; [done|].
  rewrite string_rev_cons, string_rev_append, IH. done.
Qed.

Lemma trimStart_clean s : starts_clean s → trimStart s = s.
Proof. destruct s as [|c s]; [done|]. simpl. intros ->. done. Qed.

Lemma trimStart_starts_clean s : starts_clean (trimStart s).
Proof.
  induction s as [|c s IH]; [done|]. rewrite trimStart_cons.
  destruct (StrWhiteSpaceChar c) eqn:E; [done|]. done.
Qed.

Lemma trimStart_suffix s : ∃ p, s = p +:+ trimStart s.
Proof.
  induction s as [|c s [p IH]]; [by exists ""|]. rewrite trimStart_cons.
  destruct (StrWhiteSpaceChar c).
  - exists (String c p). by rewrite append_cons, <- IH.
  - by exists "".
Qed.

Lemma starts_clean_app a b : a ≠ "" → starts_clean a → starts_clean (a +:+ b).
Proof. destruct a as [|c a]; [done|]. intros _. by rewrite append_cons. Qed.

Lemma string_rev_empty s : String.rev s = "" → s = "".
Proof. intros H. by rewrite <- (string_rev_involutive s), H. Qed.

Lemma ends_clean_app a b : b ≠ "" → ends_clean b → ends_clean (a +:+ b).
Proof.
  unfold ends_clean. intros Hb H. rewrite string_rev_append. apply starts_clean_app; [|done].
  intros E. by apply Hb, string_rev_empty.
Qed.

Lemma trimEnd_clean s : ends_clean s → trimEnd s = s.
Proof. unfold trimEnd, ends_clean. intros H. by rewrite trimStart_clean, string_rev_involutive. Qed.

Lemma trimEnd_ends_clean s : ends_clean (trimEnd s).
Proof. unfold ends_clean, trimEnd. rewrite string_rev_involutive. apply trimStart_starts_clean. Qed.

Lemma trimEnd_prefix s : ∃ q, s = trimEnd s +:+ q.
Proof.
  unfold trimEnd. destruct (trimStart_suffix (String.rev s)) as [p Hp].
  exists (String.rev p). rewrite <- string_rev_append, <- Hp. by rewrite string_rev_involutive.
Qed.

Lemma trimEnd_starts_clean s : starts_clean s → starts_clean (trimEnd s).
Proof.
  intros H. destruct (trimEnd_prefix s) as [q Hq].
  destruct (trimEnd s) as [|c t] eqn:E; [done|].
  rewrite Hq in H. by rewrite append_cons in H.
Qed.

Lemma trim_clean s : starts_clean (trim s) ∧ ends_clean (trim s).
Proof.
  unfold trim. split.
  - apply trimEnd_starts_clean, trimStart_starts_clean.
  - apply trimEnd_ends_clean.
Qed.

Lemma trim_fixed s : starts_clean s → ends_clean s → trim s = s.
Proof. intros H1 H2. unfold trim. by rewrite (trimStart_clean _ H1), trimEnd_clean. Qed.

Lemma trim_idempotent s : trim (trim s) = trim s.
Proof. destruct (trim_clean s). by apply trim_fixed. Qed.

(** ** [ensureVideosTabUrl] *)

Lemma string_prefix_refl s : String.prefix s s = true.
Proof. induction s as [|c s IH]; [done|]. simpl. by destruct (ascii_dec c c). Qed.

Lemma includes_unfold sub s :
  includes sub s
  = (String.prefix sub s
     || match s with String _ r => includes sub r | EmptyString => false end).
Proof. by destruct s. Qed.

Lemma includes_app_r sub a : includes sub (a +:+ sub) = true.
Proof.
  induction a as [|c a IH].
  - change ("" +:+ sub) with sub. rewrite includes_unfold, string_prefix_refl. done.
  - rewrite append_cons, includes_unfold, IH. apply orb_true_r.
Qed.

Lemma strip_final_slash_head u :
  strip_final_slash u = "" ∨ ∃ c t t', u = String c t ∧ strip_final_slash u = String c t'.
Proof.
  destruct u as [|c [|d r]]; [by left| |].
  - simpl. destruct (Ascii.eqb c "/"); [by left|]. right. by exists c, "", "".
  - right. by exists c, (String d r), (strip_final_slash (String d r)).
Qed.

Lemma videos_tab_clean u :
  starts_clean u →
  starts_clean (strip_final_slash u +:+ "/videos")
  ∧ ends_clean (strip_final_slash u +:+ "/videos")
  ∧ strip_final_slash u +:+ "/videos" ≠ "".
Proof.
  intros Hu. split; [|split].
  - destruct (strip_final_slash_head u) as [->|(c & t & t' & -> & ->)]; [done|].
    by rewrite append_cons.
  - by apply ends_clean_app.
  - destruct (strip_final_slash u); [done|]. by rewrite append_cons.
Qed.

Lemma ensureVideosTabUrl_Throw v e :
  ToString (js_or v (JStr "")) = Throw e → ensureVideosTabUrl v = Throw e.
Proof. intros H. unfold ensureVideosTabUrl. by rewrite H. Qed.

Lemma ensureVideosTabUrl_cases v s :
  ToString (js_or v (JStr "")) = Return s →
  let u := trim s in
  (u = "" ∧ ensureVideosTabUrl v = Return "")
  ∨ (u ≠ "" ∧ includes "/videos" u = true ∧ ensureVideosTabUrl v = Return u)
  ∨ (u ≠ "" ∧ includes "/videos" u = false
     ∧ ensureVideosTabUrl v = Return (strip_final_slash u +:+ "/videos")).
Proof.
  intros Hs u. unfold ensureVideosTabUrl. rewrite Hs. cbn [bind]. fold u.
  destruct (String.eqb u "") eqn:E.
  - apply String.eqb_eq in E. left. by rewrite E.
  - apply String.eqb_neq in E. right.
    destruct (includes "/videos" u) eqn:I; [by left|by right].
Qed.

Lemma ensureVideosTabUrl_clean (channelUrl : JsValue) (url : string) :
  ensureVideosTabUrl channelUrl = Return url →
  (url = "" ∨ includes "/videos" url = true) ∧ trim url = url.
Proof.
  intros H. destruct (ToString (js_or channelUrl (JStr ""))) as [e|s] eqn:Hs.
  { by rewrite (ensureVideosTabUrl_Throw _ _ Hs) in H. }
  pose proof (trim_clean s) as [Hstart Hend].
  destruct (ensureVideosTabUrl_cases channelUrl s Hs)
    as [[Hu Hr]|[(Hu & Hi & Hr)|(Hu & Hi & Hr)]];
    rewrite Hr in H; injection H as <-.
  - split; [by left|done].
  - split; [by right|]. by apply trim_fixed.
  - destruct (videos_tab_clean _ Hstart) as (H1 & H2 & H3).
    split; [right; apply includes_app_r|]. by apply trim_fixed.
Qed.

(** X1.  The URL handed to yt-dlp is empty, exactly when the string form
    of the channel URL (of [''] for a falsy one) is white space only, or
    it names the videos tab; it has no white space at either end.  There
    is no URL when the channel URL has no string form: the function
    throws what [String] throws. *)
Theorem ensureVideosTabUrl_videos_tab (channelUrl : JsValue) :
  match ToString (js_or channelUrl (JStr "")) with
  | Throw e => ensureVideosTabUrl channelUrl = Throw e
  | Return s =>
      ∃ url, ensureVideosTabUrl channelUrl = Return url
             ∧ (url = "" ↔ trim s = "")
             ∧ (url = "" ∨ includes "/videos" url = true)
             ∧ trim url = url
  end.
Proof.
  destruct (ToString (js_or channelUrl (JStr ""))) as [e|s] eqn:Hs.
  { by apply ensureVideosTabUrl_Throw. }
  pose proof (trim_clean s) as [Hstart _].
  destruct (ensureVideosTabUrl_cases channelUrl s Hs)
    as [[Hu Hr]|[(Hu & Hi & Hr)|(Hu & Hi & Hr)]];
    eexists; (split; [exact Hr|]);
    (split; [|by apply (ensureVideosTabUrl_clean channelUrl)]).
  - done.
  - done.
  - destruct (videos_tab_clean _ Hstart) as (_ & _ & Hne). split; intros H; by destruct Hne || done.
Qed.

(** X2.  Normalising a normalised URL changes nothing. *)
Theorem ensureVideosTabUrl_idempotent (channelUrl : JsValue) (url : string) :
  ensureVideosTabUrl channelUrl = Return url →
  ensureVideosTabUrl (JStr url) = Return url.
Proof.
  intros H. destruct (ensureVideosTabUrl_clean channelUrl url H) as (Hcase & Htrim).
  destruct Hcase as [->|Hr]; [done|].
  assert (url ≠ "") as Hne by (intros E; by rewrite E in Hr).
  unfold ensureVideosTabUrl, js_or. simpl.
  destruct (String.eqb url "") eqn:E; [by apply String.eqb_eq in E|]. simpl.
  by rewrite Htrim, E, Hr.
Qed.

(** A channel root gets the videos tab, and the result is kept. *)
Lemma ensureVideosTabUrl_idempotent_witness :
  ensureVideosTabUrl (JStr " https://www.youtube.com/@ch/ ")
  = Return "https://www.youtube.com/@ch/videos"
  ∧ ensureVideosTabUrl (JStr "https://www.youtube.com/@ch/videos")
    = Return "https://www.youtube.com/@ch/videos".
Proof.
  assert (ensureVideosTabUrl (JStr " https://www.youtube.com/@ch/ ")
          = Return "https://www.youtube.com/@ch/videos") as H by (by vm_compute).
  split; [exact H|].
  exact (ensureVideosTabUrl_idempotent _ _ H).
Defined.

(** ** [listVideoIds] *)

Lemma truthy_strings_spec l :
  Forall (λ id, id ≠ "" ∧ JStr id ∈ l) (truthy_strings l).
Proof.
  induction l as [|v l IH]; [constructor|].
  assert (Forall (λ id, id ≠ "" ∧ JStr id ∈ v :: l) (truthy_strings l)) as IH'.
  { eapply Forall_impl; [exact IH|]. intros id [? ?]. split; [done|]. by right. }
  destruct v; try exact IH'. simpl.
  destruct (String.eqb s "") eqn:E; simpl; [exact IH'|].
  constructor; [|exact IH']. split; [by apply String.eqb_neq|]. by left.
Qed.

Lemma entry_id_string e id : entry_id e = JStr id → get_opt e "id" = JStr id.
Proof.
  unfold entry_id. destruct (truthy e); [|done].
  destruct (get_opt e "id"); congruence.
Qed.

(** What [listVideoIds] returns, from the listing. *)
Lemma listVideoIds_Return (w : World) (channelUrl maxVideos : JsValue) (ids : list string) :
  listVideoIds w channelUrl maxVideos = Return ids →
  ∃ max url parsed parsed_entries,
    clampInt maxVideos 1 100 10 = Return max
    ∧ ensureYtDlp w = Return tt
    ∧ ensureVideosTabUrl channelUrl = Return url
    ∧ exec_listing w url max = Return parsed
    ∧ get parsed "entries" = Return parsed_entries
    ∧ ids = take (Z.to_nat max)
              (truthy_strings (map entry_id match parsed_entries with
                                            | JArr xs => xs
                                            | _ => []
                                            end)).
Proof.
  unfold listVideoIds. intros H.
  destruct (clampInt maxVideos 1 100 10) as [e|max] eqn:Hmax; [done|]. cbn [bind] in H.
  destruct (ensureYtDlp w) as [e|[]] eqn:Hensure; [done|]. cbn [bind] in H.
  destruct (ensureVideosTabUrl channelUrl) as [e|url] eqn:Hurl; [done|]. cbn [bind] in H.
  destruct (exec_listing w url max) as [e|parsed] eqn:Hexec; [done|]. cbn [bind] in H.
  destruct (get parsed "entries") as [e|parsed_entries] eqn:Hentries; [done|]. cbn [bind] in H.
  injection H as <-. by exists max, url, parsed, parsed_entries.
Qed.

Lemma listVideoIds_size (w : World) (channelUrl maxVideos : JsValue) (ids : list string) :
  listVideoIds w channelUrl maxVideos = Return ids →
  (∃ max, clampInt maxVideos 1 100 10 = Return max ∧ Z.of_nat (length ids) ≤ max ≤ 100)
  ∧ Forall (λ id, id ≠ "") ids.
Proof.
  intros H.
  destruct (listVideoIds_Return _ _ _ _ H) as (max & url & parsed & entries & Hmax & _ & _ & _ & _ & ->).
  pose proof (clampInt_range _ _ Hmax) as Hrange. split.
  - exists max. split; [done|]. rewrite length_take. lia.
  - apply Forall_take. eapply Forall_impl; [apply truthy_strings_spec|]. by intros id [? _].
Qed.

(** X3.  The enumeration yields at most as many identifiers as the clamped
    maximum, so at most 100; none is the empty string; each is the [id] of
    an entry of the listing. *)
Theorem listVideoIds_bounded (w : World) (channelUrl maxVideos : JsValue) (ids : list string) :
  listVideoIds w channelUrl maxVideos = Return ids →
  ∃ max url parsed,
    clampInt maxVideos 1 100 10 = Return max
    ∧ ensureVideosTabUrl channelUrl = Return url
    ∧ exec_listing w url max = Return parsed
    ∧ Z.of_nat (length ids) ≤ max ≤ 100
    ∧ Forall (λ id, id ≠ "") ids
    ∧ Forall (listed parsed) ids.
Proof.
  intros H.
  destruct (listVideoIds_size _ _ _ _ H) as [(max' & Hmax' & Hlen) Hne].
  destruct (listVideoIds_Return _ _ _ _ H)
    as (max & url & parsed & entries & Hmax & _ & Hurl & Hexec & Hentries & ->).
  assert (max' = max) as -> by congruence.
  exists max, url, parsed. do 5 (split; [done|]).
  apply Forall_take. eapply Forall_impl; [apply truthy_strings_spec|].
  intros id [_ Hin]. apply list_elem_of_fmap in Hin as (e & He & Hin).
  destruct entries; try by apply elem_of_nil in Hin.
  exists xs, e. split; [done|]. split; [done|]. by apply entry_id_string.
Qed.

Lemma listVideoIds_bounded_witness :
  ∃ ids, listVideoIds three_videos (JStr "https://www.youtube.com/@ch") (JStr "2") = Return ids
         ∧ Z.of_nat (length ids) ≤ 2
         ∧ Forall (λ id, id ≠ "") ids.
Proof.
  exists ["a1"; "b2"].
  assert (listVideoIds three_videos (JStr "https://www.youtube.com/@ch") (JStr "2")
          = Return ["a1"; "b2"]) as H by (by vm_compute).
  split; [done|].
  destruct (listVideoIds_bounded _ _ _ _ H) as (max & url & parsed & Hmax & _ & _ & Hlen & Hne & _).
  split; [|done].
  assert (max = 2) as -> by (by injection Hmax as <-).
  lia.
Defined.

(** ** [fetchTranscriptBestEffort] *)

Lemma join_cons sep s r :
  r ≠ [] → join sep (s :: r) = s +:+ sep +:+ join sep r.
Proof. by destruct r. Qed.

Lemma join_clean l :
  Forall (λ s, s ≠ "" ∧ starts_clean s ∧ ends_clean s) l →
  (l ≠ [] → join " " l ≠ "") ∧ starts_clean (join " " l) ∧ ends_clean (join " " l).
Proof.
  induction 1 as [|s r (Hne & Hs & He) Hr (IHne & IHs & IHe)]; [done|].
  destruct (decide (r = [])) as [->|Hnil]; [done|].
  rewrite join_cons by done.
  split; [|split].
  - intros _. destruct s; [done|]. by rewrite append_cons.
  - by apply starts_clean_app.
  - rewrite <- string_app_assoc. apply ends_clean_app; [by apply IHne|done].
Qed.

Lemma map_segments_Return xs :
  Forall has_value xs →
  ∃ texts, map_segments xs = Return texts
           ∧ Forall (λ s, starts_clean s ∧ ends_clean s) texts.
Proof.
  induction 1 as [|t xs [Hnull Hundef] _ (texts & IH & Hclean)]; [by exists []|].
  simpl. unfold segment_text.
  assert (∃ text, get t "text" = Return text) as [text ->] by (destruct t; by eauto).
  simpl. rewrite IH. simpl. eexists. split; [done|]. constructor; [|done].
  destruct text; try done. apply trim_clean.
Qed.

Lemma map_segments_has_value xs texts :
  map_segments xs = Return texts → Forall has_value xs.
Proof.
  revert texts. induction xs as [|t xs IH]; intros texts H; [constructor|].
  simpl in H. unfold segment_text in H.
  destruct (get t "text") as [e|text] eqn:Hget; [done|]. simpl in H.
  destruct (map_segments xs) as [e|rest] eqn:Hrest; [done|].
  constructor; [|by eapply IH]. split; intros ->; done.
Qed.

Lemma fetchTranscriptBestEffort_cases (w : World) (i : nat) (videoId : string) :
  fetchTranscriptBestEffort w i videoId = JNull
  ∨ ∃ s, fetchTranscriptBestEffort w i videoId = JStr s.
Proof.
  unfold fetchTranscriptBestEffort.
  destruct (fetch_transcript w i videoId) as [e|items]; [by left|].
  destruct items as [| | | | |xs| |]; try by left.
  destruct xs as [|x xs]; [by left|].
  destruct (map_segments (x :: xs)); [by left|right; by eexists].
Qed.

(** X4.  The transcript is null or a string.  It is a string exactly when
    the fetch returned a non-empty array none of whose elements is null or
    undefined; the string then has no white space at either end (it may be
    empty). *)
Theorem transcript_null_or_trimmed (w : World) (i : nat) (videoId : string) :
  (fetchTranscriptBestEffort w i videoId = JNull
   ∨ ∃ s, fetchTranscriptBestEffort w i videoId = JStr s ∧ trim s = s)
  ∧ (fetchTranscriptBestEffort w i videoId ≠ JNull
     ↔ ∃ xs, fetch_transcript w i videoId = Return (JArr xs)
             ∧ xs ≠ [] ∧ Forall has_value xs).
Proof.
  unfold fetchTranscriptBestEffort.
  destruct (fetch_transcript w i videoId) as [e|items];
    [split; [by left|split; [done|by intros (? & ? & _)]]|].
  destruct items as [| | | | |xs| |];
    try (split; [by left|split; [done|by intros (? & ? & _)]]).
  destruct xs as [|x xs].
  { split; [by left|]. split; [done|]. intros (? & H & Hne & _). congruence. }
  destruct (map_segments (x :: xs)) as [e|texts] eqn:Hmap.
  - split; [by left|]. split; [done|]. intros (ys & H & _ & Hall).
    injection H as <-. destruct (map_segments_Return _ Hall) as (? & Hr & _). congruence.
  - split.
    + right. eexists. split; [done|].
      pose proof (map_segments_has_value _ _ Hmap) as Hall.
      destruct (map_segments_Return _ Hall) as (texts' & Hr & Hclean).
      assert (texts' = texts) as -> by congruence.
      assert (Forall (λ s, s ≠ "" ∧ starts_clean s ∧ ends_clean s)
                (filter (λ s, s ≠ "") texts)) as Hf.
      { apply Forall_forall. intros s Hs. apply list_elem_of_filter in Hs as [Hne Hs].
        split; [done|]. by apply (proj1 (Forall_forall _ _) Hclean). }
      destruct (join_clean _ Hf) as (_ & H1 & H2). by apply trim_fixed.
    + split; [|done]. intros _. exists (x :: xs). split; [done|]. split; [done|].
      by eapply map_segments_has_value.
Qed.


(** ** The records of a batch *)

Ltac completion_inv H :=
  repeat (let x := fresh "x" in let Hx := fresh "H" x in
          apply bind_Return in H as (x & Hx & H)).

Lemma js_or_truthy a b : truthy b = true → truthy (js_or a b) = true.
Proof. unfold js_or. by destruct (truthy a) eqn:E. Qed.

Lemma js_or_empty a : truthy_or_empty (js_or a (JStr "")) = true.
Proof. unfold js_or, truthy_or_empty. destruct (truthy a) eqn:E; [by rewrite E|done]. Qed.

Lemma js_or_null a : null_or truthy (js_or a JNull) = true.
Proof. unfold js_or. destruct (truthy a) eqn:E; [|done]. by destruct a. Qed.

Lemma number_or_null_shape x : null_or is_number (number_or_null x) = true.
Proof. by destruct x. Qed.

Lemma string_or_null_shape x : null_or is_string (string_or_null x) = true.
Proof. by destruct x. Qed.

Lemma parseUploadDate_shape u : null_or is_string (parseUploadDate u) = true.
Proof. destruct u; try done. simpl. by destruct (Nat.eqb (String.length s) 8). Qed.

Lemma uploadDate_of_shape v d :
  uploadDate_of v = Return d → null_or is_string d = true.
Proof.
  unfold uploadDate_of. intros H. completion_inv H.
  destruct (truthy (parseUploadDate x)).
  - injection H as <-. apply parseUploadDate_shape.
  - completion_inv H. destruct (truthy x0); [|by injection H as <-].
    completion_inv H. destruct x1; [by injection H as <-|done].
Qed.

Lemma normalizeVideoUrl_truthy videoId : truthy (JStr (normalizeVideoUrl videoId)) = true.
Proof. done. Qed.

Lemma fetchVideoMeta_shape w i videoId item :
  videoId ≠ "" → fetchVideoMeta w i videoId = Return item →
  record_shape item = true ∧ transcript item = JNull ∧ Downloader.error item = JUndefined.
Proof.
  intros Hid. unfold fetchVideoMeta. intros H. completion_inv H. injection H as <-.
  split; [|done]. unfold record_shape. simpl.
  rewrite !js_or_empty, !number_or_null_shape, string_or_null_shape, js_or_null.
  rewrite (uploadDate_of_shape _ _ Hx1).
  rewrite !js_or_truthy; [done|done|].
  simpl. by destruct (String.eqb_spec videoId "").
Qed.

Lemma set_transcript_shape item t :
  record_shape item = true → null_or is_string t = true →
  record_shape (set_transcript item t) = true.
Proof.
  unfold record_shape. simpl. rewrite !andb_true_iff. tauto.
Qed.

Lemma process_unit_shape w total i videoId :
  videoId ≠ "" → record_shape (process_unit w total i videoId).1 = true.
Proof.
  intros Hid. unfold process_unit.
  destruct (fetchVideoMeta w i videoId) as [e|item] eqn:Hfetch.
  - simpl. unfold record_shape. simpl. by destruct (String.eqb_spec videoId "").
  - destruct (fetchVideoMeta_shape _ _ _ _ Hid Hfetch) as (Hshape & _ & _).
    simpl. apply set_transcript_shape; [done|].
    by destruct (fetchTranscriptBestEffort_cases w i videoId) as [->|(s & ->)].
Qed.

(** X5.  Every record of a batch, fetched or failed, has a truthy
    [video_id] and [video_url]; its [title] and [description] are truthy
    or the empty string, never null; [transcript], [duration_iso] and
    [release_date] are null or strings; the duration and the three counts
    are null or numbers; [thumbnail_url] is null or truthy. *)
Theorem batch_record_shape (w : World) (channelUrl maxVideos : JsValue) (total : Z)
    (results : list VideoItem) (reported : list Progress) :
  downloadChannelData w channelUrl maxVideos = (Return (total, results), reported) →
  Forall (λ item, record_shape item = true) results.
Proof.
  intros H. unfold downloadChannelData in H.
  destruct (listVideoIds w channelUrl maxVideos) as [e|ids] eqn:Hids; [done|].
  rewrite fetch_loop_spec in H. injection H as _ <- _. simpl.
  destruct (listVideoIds_size _ _ _ _ Hids) as (_ & Hne).
  apply Forall_forall. intros item Hin.
  apply list_elem_of_lookup in Hin as [j Hj].
  rewrite list_lookup_imap in Hj.
  destruct (ids !! j) as [videoId|] eqn:Hid; [|done]. injection Hj as <-.
  apply process_unit_shape.
  apply (proj1 (Forall_forall _ _) Hne). by eapply list_elem_of_lookup_2.
Qed.

Lemma batch_record_shape_witness :
  ∃ results reported,
    downloadChannelData three_videos (JStr "https://www.youtube.com/@ch") JUndefined
    = (Return (3, results), reported)
    ∧ Forall (λ item, record_shape item = true) results.
Proof.
  eexists _, _.
  assert (downloadChannelData three_videos (JStr "https://www.youtube.com/@ch") JUndefined
          = (Return (3, _), _)) as H by (vm_compute; reflexivity).
  split; [exact H|]. exact (batch_record_shape _ _ _ _ _ _ H).
Defined.

(** ** The failures of [fetchVideoMeta] *)

Lemma get_has_value v p : has_value v → get v p = Return (get_opt v p).
Proof. intros [? ?]. unfold get_opt. by destruct v. Qed.

Lemma thumb_of_has_value v : has_value v → ∃ t, thumb_of v = Return t.
Proof.
  intros Hv. unfold thumb_of. rewrite !(get_has_value _ _ Hv). simpl.
  destruct (truthy _); by eexists.
Qed.

Lemma eight_chars_dec u : eight_chars u ∨ ¬ eight_chars u.
Proof.
  unfold eight_chars. destruct u as [| | | |s| | |]; try (right; intros (s' & ? & ?); done).
  destruct (Nat.eq_dec (String.length s) 8%nat) as [Hlen|Hlen].
  - left. by exists s.
  - right. intros (s' & [= <-] & ?). done.
Qed.

(** What becomes of the release date of metadata that is an object. *)
Lemma uploadDate_of_has_value v :
  has_value v →
  match uploadDate_of v with
  | Throw e =>
      timestamp_number v (Throw e)
      ∨ ∃ x, timestamp_number v (Return x)
             ∧ time_value (dmul x (double_of_Z 1000)) = None
             ∧ e = RangeError "Invalid time value"
  | Return _ =>
      (∀ e, ¬ timestamp_number v (Throw e))
      ∧ ∀ x, timestamp_number v (Return x) →
             time_value (dmul x (double_of_Z 1000)) ≠ None
  end.
Proof.
  intros Hv. unfold timestamp_number.
  destruct (eight_chars_dec (get_opt v "upload_date")) as [(s & Hs & Hlen)|Hno].
  - rewrite (uploadDate_of_eight v s); [|by rewrite get_has_value, Hs|done].
    split; [intros e (Hno & _)|intros x (Hno & _)]; destruct Hno; by exists s.
  - rewrite (uploadDate_of_timestamp v _ _ (get_has_value v _ Hv) (get_has_value v _ Hv) Hno).
    destruct (truthy (get_opt v "timestamp")) eqn:Et.
    + unfold scaled_time_value.
      destruct (ToNumber (get_opt v "timestamp")) as [e|x] eqn:Hx; cbn [bind].
      * by left.
      * destruct (time_value (dmul x (double_of_Z 1000))) as [tv|] eqn:Htv.
        -- split; [by intros e (_ & _ & ?)|]. intros x' (_ & _ & [= <-]). congruence.
        -- right. by exists x.
    + split; [intros e (_ & ? & _)|intros x (_ & ? & _)]; congruence.
Qed.

Lemma fetchVideoMeta_has_value w i videoId v :
  exec_meta w i videoId = Return v → has_value v →
  match uploadDate_of v with
  | Throw e => fetchVideoMeta w i videoId = Throw e
  | Return _ => ∃ item, fetchVideoMeta w i videoId = Return item
  end.
Proof.
  intros Hexec Hv. unfold fetchVideoMeta. rewrite Hexec. cbn [bind].
  destruct (thumb_of_has_value v Hv) as [t ->]. cbn [bind].
  destruct (uploadDate_of v) as [e|d]; [done|]. cbn [bind].
  rewrite !(get_has_value _ _ Hv). cbn [bind]. by eexists.
Qed.

Lemma fetchVideoMeta_no_value w i videoId v :
  exec_meta w i videoId = Return v → ¬ has_value v →
  fetchVideoMeta w i videoId
  = Throw (TypeError ("Cannot read properties of " +:+ nullish_name v
                      +:+ " (reading 'thumbnail')")).
Proof.
  intros Hexec Hv. unfold fetchVideoMeta. rewrite Hexec. simpl.
  destruct v; try (destruct Hv; by split); done.
Qed.

(** X6.  The metadata fetch of a video fails in four cases only: the
    yt-dlp run or the parsing of its output throws, and the fetch throws
    the same; the output is [null], and reading [thumbnail] throws a
    [TypeError]; the metadata has no eight-character [upload_date] and a
    truthy [timestamp] that cannot be made a number, and the product
    throws; or such a [timestamp] is a number but 1000 times it is no
    valid time, and [toISOString] throws a [RangeError]. *)
Theorem fetchVideoMeta_throws (w : World) (i : nat) (videoId : string) (e : JsError) :
  fetchVideoMeta w i videoId = Throw e
  ↔ exec_meta w i videoId = Throw e
    ∨ ∃ v, exec_meta w i videoId = Return v
           ∧ ((¬ has_value v
               ∧ e = TypeError ("Cannot read properties of " +:+ nullish_name v
                                +:+ " (reading 'thumbnail')"))
              ∨ (has_value v ∧ timestamp_number v (Throw e) ∧ e = cannot_convert)
              ∨ (has_value v
                 ∧ ∃ x, timestamp_number v (Return x)
                        ∧ time_value (dmul x (double_of_Z 1000)) = None
                        ∧ e = RangeError "Invalid time value")).
Proof.
  destruct (exec_meta w i videoId) as [e0|v] eqn:Hexec.
  - unfold fetchVideoMeta. rewrite Hexec. simpl. split; [intros [= ->]; by left|].
    intros [[= ->]|(v & H & _)]; done.
  - assert (has_value v ∨ ¬ has_value v) as [Hv|Hv].
    { unfold has_value. destruct v; (by left; split) || (right; intros [? ?]; done). }
    + pose proof (fetchVideoMeta_has_value _ _ _ _ Hexec Hv) as Hfetch.
      pose proof (uploadDate_of_has_value v Hv) as Hdate.
      destruct (uploadDate_of v) as [e1|d].
      * rewrite Hfetch. split.
        -- intros [= <-]. right. exists v. split; [done|]. right.
           destruct Hdate as [Hthrow|(x & Hx & Htv & ->)].
           ++ left. split; [done|]. split; [done|].
              destruct Hthrow as (_ & _ & Hn).
              by apply ToNumber_Throw, ToString_Throw in Hn as [_ ->].
           ++ right. split; [done|]. by exists x.
        -- intros [H|(v' & [= <-] & [[Hno _]|[(_ & Hthrow & _)|(_ & x & Hx & Htv & ->)]])];
             [done|done| |].
           ++ destruct Hdate as [(_ & _ & Hn)|(x & (_ & _ & Hn) & _)];
                destruct Hthrow as (_ & _ & Hn'); congruence.
           ++ destruct Hdate as [(_ & _ & Hn)|(x' & _ & _ & ->)]; [|done].
              destruct Hx as (_ & _ & Hn'). congruence.
      * destruct Hfetch as [item ->]. destruct Hdate as [Hnothrow Hvalid]. split; [done|].
        intros [H|(v' & [= <-] & [[Hno _]|[(_ & Hthrow & _)|(_ & x & Hx & Htv & _)]])];
          [done|done| |].
        -- by destruct (Hnothrow e).
        -- by destruct (Hvalid x Hx).
    + rewrite (fetchVideoMeta_no_value _ _ _ _ Hexec Hv). split.
      * intros [= <-]. right. exists v. split; [done|]. by left.
      * intros [H|(v' & [= <-] & [[_ ->]|[(Hyes & _)|(Hyes & _)]])]; done.
Qed.

End DownloaderCoverage.

(** ** The registry, the endpoints and the streams of [index.js] *)

Section ServerCoverage.
Import Js Downloader Server Reply.
#[local] Set Default Proof Using "Type".

Variable W : string → World.

Lemma enumeration_bound jobId job ids :
  1 ≤ maxVideos job ≤ 100 → enumeration W jobId job = Return ids →
  Z.of_nat (length ids) ≤ maxVideos job.
Proof.
  unfold enumeration. intros Hmax H.
  destruct (listVideoIds_size _ _ _ _ H) as ((max & Hclamp & Hlen) & _).
  rewrite clampInt_number_of_Z in Hclamp by done. injection Hclamp as <-. lia.
Qed.

Lemma job_inv_size jobId job t :
  job_inv W jobId job t →
  1 ≤ maxVideos job ≤ 100
  ∧ total job ≤ maxVideos job
  ∧ Z.of_nat (length (results job)) ≤ maxVideos job
  ∧ (status job = Running → completed job < total job ∧ error job = None)
  ∧ (status job = Done → completed job = total job ∧ error job = None)
  ∧ (status job = Error → completed job = 0 ∧ total job = maxVideos job ∧ results job = []).
Proof.
  intros [Hmax Ht]. split; [done|].
  destruct t as [url max|ids i results'|ids i results' item|].
  - destruct Ht as (-> & -> & Hst & Htotal & Hdone & Hresults & Herr).
    rewrite Hst, Htotal, Hdone, Hresults. simpl. repeat split; (done || lia).
  - destruct Ht as (Henum & Hlt & Hres & Hst & Hdone & Htotal & Hresults & Herr).
    pose proof (enumeration_bound _ _ _ Hmax Henum).
    rewrite Hst, Htotal, Hdone, Hresults. simpl.
    repeat split; try done; case_decide; lia.
  - destruct Ht as ((Henum & Hlt & Hres & Hst & Hdone & Htotal & Hresults & Herr) & _).
    pose proof (enumeration_bound _ _ _ Hmax Henum).
    rewrite Hst, Htotal, Hdone, Hresults. simpl.
    repeat split; try done; case_decide; lia.
  - destruct (enumeration W jobId job) as [e|ids] eqn:Henum.
    + destruct Ht as (Hst & Herr & Hdone & Hresults & Htotal).
      rewrite Hst, Htotal, Hdone, Hresults. simpl. repeat split; (done || lia).
    + destruct Ht as (Hst & Herr & Htotal & Hdone & Hresults).
      pose proof (enumeration_bound _ _ _ Hmax Henum).
      rewrite Hst, Htotal, Hdone, Hresults, all_pushed_length. repeat split; (done || lia).
Qed.

(** X7.  No job ever holds or announces more than was asked for: in every
    reachable state [maxVideos] is between 1 and 100, [total] is at most
    [maxVideos], and so is the number of results. *)
Theorem job_size_bound (σ : State) (jobId : string) (job : Job) :
  reachable W σ → youtubeJobs σ !! jobId = Some job →
  1 ≤ maxVideos job ≤ 100
  ∧ total job ≤ maxVideos job
  ∧ Z.of_nat (length (results job)) ≤ maxVideos job.
Proof.
  intros Hreach Hjob. pose proof (reachable_inv _ _ Hreach) as Hinv.
  destruct (jobs_ok_lookup _ _ _ _ _ (proj1 Hinv) Hjob) as (t & _ & Hjinv).
  destruct (job_inv_size _ _ _ Hjinv) as (? & ? & ? & _). done.
Qed.

(** X8.  The status and the result endpoints agree in every reachable
    state: both answer 404 for an unknown id; while the job runs, the
    result is refused and [completed] is below [total]; once it is done,
    the result has exactly [total = completed] records and no error is
    reported; after an enumeration error nothing was completed. *)
Theorem status_and_result_agree (σ : State) (jobId : string) :
  reachable W σ →
  match get_status jobId σ, get_result jobId σ with
  | StatusNotFound, ResultNotFound => youtubeJobs σ !! jobId = None
  | StatusOk Running c t err, ResultNotDone Running => 0 ≤ c < t ∧ t ≤ 100 ∧ err = None
  | StatusOk Done c t err, ResultOk rs =>
      c = t ∧ Z.of_nat (length rs) = t ∧ t ≤ 100 ∧ err = None
  | StatusOk Error c t err, ResultNotDone Error => c = 0 ∧ 1 ≤ t ≤ 100
  | _, _ => False
  end.
Proof.
  intros Hreach. pose proof (reachable_inv _ _ Hreach) as Hinv.
  unfold get_status, get_result.
  destruct (youtubeJobs σ !! jobId) as [job|] eqn:Hjob; [|done].
  destruct (jobs_ok_lookup _ _ _ _ _ (proj1 Hinv) Hjob) as (t & _ & Hjinv).
  destruct (job_inv_size _ _ _ Hjinv) as (Hmax & Htotal & Hlen & Hrun & Hdone & Herr).
  destruct (job_inv_bounds _ _ _ _ Hjinv) as (Hle & Hres & _).
  destruct (status job) eqn:Hst.
  - destruct (Hrun eq_refl) as [? ->]. repeat split; lia.
  - destruct (Hdone eq_refl) as [? ->]. specialize (Hres ltac:(done)).
    repeat split; lia.
  - destruct (Herr eq_refl) as (? & ? & ?). repeat split; lia.
Qed.

Lemma audience_created jobId now url max σ j :
  audience (created jobId now url max σ) j = audience σ j.
Proof. done. Qed.

(** A step that does not run code of the job of a response leaves the
    response as it is. *)
Lemma step_response_frame l r res σ σ' :
  inv W σ → step W l σ = Some σ' → responses σ !! r = Some res →
  drives l (req_jobId res) = false ∨ r ∉ audience σ (req_jobId res) →
  responses σ' !! r = Some res.
Proof.
  intros Hinv Hstep Hres Hout.
  assert (∀ j, drives l j = true → r ∉ audience σ j) as Hnot.
  { intros j Hj. destruct (decide (j = req_jobId res)) as [->|Hne].
    - destruct Hout as [Hout|Hout]; [congruence|done].
    - eapply audience_other; [apply Hinv|done|congruence]. }
  destruct l as [jobId' now body|jobId'|jobId' r'|r']; simpl in Hstep.
  - case_decide as Hfresh; [|done]. injection Hstep as <-.
    destruct (post_jobs_cases jobId' now body σ) as [->|(url & max & _ & _ & Hclamp & ->)]; [done|].
    simpl. rewrite alter_all_notin; [done|]. apply Hnot. simpl. by apply bool_decide_eq_true.
  - destruct (resume_summary _ _ _ _ Hinv Hstep) as (job0 & job' & t & msgs & closes & Hsum).
    destruct Hsum as [_ _ _ _ _ _ Hresps' _].
    assert (r ∉ audience σ jobId') as Hr by (apply Hnot; simpl; by apply bool_decide_eq_true).
    rewrite Hresps'. destruct closes; simpl.
    + by rewrite alter_all_notin, send_all_notin.
    + by rewrite send_all_notin.
  - case_decide as Hfresh; [|done]. injection Hstep as <-.
    rewrite get_stream_eq. simpl. rewrite lookup_insert_ne; [done|]. congruence.
  - apply on_close_eq in Hstep as (res' & Hres' & ->). done.
Qed.

(** X9.  Jobs do not interfere: a step that is neither the creation nor a
    resumption of a job leaves the record of the job, the suspension of
    its download and every response of its subscribers unchanged. *)
Theorem step_leaves_other_jobs (σ σ' : State) (l : Label) (jobId : string) :
  reachable W σ → step W l σ = Some σ' → drives l jobId = false →
  youtubeJobs σ' !! jobId = youtubeJobs σ !! jobId
  ∧ tasks σ' !! jobId = tasks σ !! jobId
  ∧ ∀ r res, responses σ !! r = Some res → req_jobId res = jobId →
      responses σ' !! r = Some res.
Proof.
  intros Hreach Hstep Hl. pose proof (reachable_inv _ _ Hreach) as Hinv.
  split; [|split].
  - destruct l as [jobId' now body|jobId'|jobId' r'|r']; simpl in Hstep, Hl.
    + apply bool_decide_eq_false in Hl.
      case_decide as Hfresh; [|done]. injection Hstep as <-.
      destruct (post_jobs_cases jobId' now body σ) as [->|(url & max & _ & _ & Hclamp & ->)]; [done|].
      simpl. by rewrite lookup_insert_ne.
    + apply bool_decide_eq_false in Hl.
      destruct (resume_summary _ _ _ _ Hinv Hstep) as (job0 & job' & t & msgs & closes & Hsum).
      destruct Hsum as [_ _ _ -> _ _ _ _]. by rewrite lookup_insert_ne.
    + case_decide as Hfresh; [|done]. injection Hstep as <-. by rewrite get_stream_eq.
    + by apply on_close_eq in Hstep as (res' & Hres' & ->).
  - destruct l as [jobId' now body|jobId'|jobId' r'|r']; simpl in Hstep, Hl.
    + apply bool_decide_eq_false in Hl.
      case_decide as Hfresh; [|done]. injection Hstep as <-.
      destruct (post_jobs_cases jobId' now body σ) as [->|(url & max & _ & _ & Hclamp & ->)]; [done|].
      simpl. by rewrite lookup_insert_ne.
    + apply bool_decide_eq_false in Hl.
      destruct (resume_summary _ _ _ _ Hinv Hstep) as (job0 & job' & t & msgs & closes & Hsum).
      destruct Hsum as [_ _ _ _ -> _ _ _]. by rewrite lookup_insert_ne.
    + case_decide as Hfresh; [|done]. injection Hstep as <-. by rewrite get_stream_eq.
    + by apply on_close_eq in Hstep as (res' & Hres' & ->).
  - intros r res Hres Hid. eapply step_response_frame; [done|done|done|]. left. by rewrite Hid.
Qed.

(** What the resumption of a job does to the responses: every response
    attached to the job is sent the same events; it is ended when the
    resumption closes the streams. *)
Lemma summary_responses jobId σ σ' job job' t msgs closes r res :
  inv W σ → summary W jobId σ σ' job job' t msgs closes →
  responses σ !! r = Some res →
  responses σ' !! r
  = Some (if decide (r ∈ audience σ jobId)
          then {| req_jobId := req_jobId res; written := written res ++ msgs;
                  ended := closes |}
          else res).
Proof.
  intros Hinv Hsum Hres. destruct Hsum as [_ _ _ _ _ _ -> _].
  case_decide as Hin.
  - destruct (audience_open _ _ _ (proj2 Hinv) Hin) as (Hnodup & res0 & Hres0 & _ & Hopen).
    assert (res0 = res) as -> by congruence.
    pose proof (send_all_in msgs _ _ _ _ Hnodup Hin Hres Hopen) as Hsent.
    destruct closes; simpl.
    + by rewrite alter_all_in, Hsent.
    + done.
  - destruct closes; simpl.
    + by rewrite alter_all_notin, send_all_notin.
    + by rewrite send_all_notin.
Qed.

(** X10.  One resumption of a download sends the same events, in the same
    order, to every response attached to the job, and nothing to any
    other response. *)
Theorem settle_fan_out (σ σ' : State) (jobId : string) :
  reachable W σ → step W (Settle jobId) σ = Some σ' →
  ∃ msgs, ∀ r res, responses σ !! r = Some res →
    ∃ res', responses σ' !! r = Some res'
            ∧ written res'
              = written res ++ (if decide (r ∈ audience σ jobId) then msgs else []).
Proof.
  intros Hreach Hstep. pose proof (reachable_inv _ _ Hreach) as Hinv. simpl in Hstep.
  destruct (resume_summary _ _ _ _ Hinv Hstep) as (job0 & job' & t & msgs & closes & Hsum).
  exists msgs. intros r res Hres.
  rewrite (summary_responses _ _ _ _ _ _ _ _ _ _ Hinv Hsum Hres).
  eexists. split; [done|]. case_decide; [done|]. by rewrite app_nil_r.
Qed.

(** X11.  The resumption that ends a job ends every response attached to
    it, the terminal event being the last thing written to each, and
    drops the stream set of the job. *)
Theorem settle_ends_streams (σ σ' : State) (jobId : string) (job' : Job) :
  reachable W σ → step W (Settle jobId) σ = Some σ' →
  youtubeJobs σ' !! jobId = Some job' → status job' ≠ Running →
  youtubeStreams σ' !! jobId = None
  ∧ ∀ r, r ∈ audience σ jobId →
      ∃ res', responses σ' !! r = Some res' ∧ ended res' = true
              ∧ last (written res') = Some (terminal_msg jobId job').
Proof.
  intros Hreach Hstep Hjob' Hst. pose proof (reachable_inv _ _ Hreach) as Hinv.
  simpl in Hstep.
  destruct (resume_summary _ _ _ _ Hinv Hstep) as (job0 & job1 & t & msgs & closes & Hsum).
  pose proof Hsum as [_ _ Hrunning Hjobs _ Hstreams _ Htrans].
  rewrite Hjobs, lookup_insert_eq in Hjob'. injection Hjob' as ->.
  destruct (transition_job _ _ _ _ _ Htrans) as (_ & _ & Hcloses).
  assert (closes = true) as -> by by apply (Hcloses Hrunning).
  split; [by rewrite Hstreams, lookup_delete_eq|].
  intros r Hin.
  destruct (audience_open _ _ _ (proj2 Hinv) Hin) as (_ & res & Hres & _ & _).
  rewrite (summary_responses _ _ _ _ _ _ _ _ _ _ Hinv Hsum Hres).
  rewrite decide_True by done. eexists. split; [done|]. split; [done|]. simpl.
  destruct (transition_msgs _ _ _ _ _ Htrans Hrunning) as (ps & -> & _).
  by rewrite !app_assoc, last_snoc.
Qed.

(** A response attached to a job that is not running is left as it is
    by every step, and the stream set of the job stays. *)
Lemma step_response_settled l jobId r σ σ' job res :
  inv W σ → youtubeJobs σ !! jobId = Some job → status job ≠ Running →
  responses σ !! r = Some res → req_jobId res = jobId →
  is_Some (youtubeStreams σ !! jobId) →
  step W l σ = Some σ' →
  responses σ' !! r = Some res ∧ is_Some (youtubeStreams σ' !! jobId).
Proof.
  intros Hinv Hjob Hst Hres Hid Hset Hstep.
  assert (drives l jobId = false) as Hl.
  { destruct l as [jobId' now body|jobId'|jobId' r'|r']; simpl in *; try done.
    - case_decide as Hfresh; [|done]. apply bool_decide_eq_false. congruence.
    - destruct (resume_summary _ _ _ _ Hinv Hstep) as (job0 & job' & t & msgs & closes & Hsum).
      destruct Hsum as [Hjob0 _ Hrunning _ _ _ _ _].
      apply bool_decide_eq_false. intros ->. congruence. }
  split.
  - eapply step_response_frame; [done|done|done|]. left. by rewrite Hid.
  - destruct l as [jobId' now body|jobId'|jobId' r'|r']; simpl in Hstep, Hl.
    + case_decide as Hfresh; [|done]. injection Hstep as <-.
      by destruct (post_jobs_cases jobId' now body σ) as [->|(url & max & _ & _ & Hclamp & ->)].
    + apply bool_decide_eq_false in Hl.
      destruct (resume_summary _ _ _ _ Hinv Hstep) as (job0 & job' & t & msgs & closes & Hsum).
      destruct Hsum as [_ _ _ _ _ -> _ _]. destruct closes; [|done].
      by rewrite lookup_delete_ne.
    + case_decide as Hfresh; [|done]. injection Hstep as <-. rewrite get_stream_eq. simpl.
      destruct (decide (jobId' = jobId)) as [->|Hne];
        [by rewrite lookup_insert_eq|by rewrite lookup_insert_ne].
    + apply on_close_eq in Hstep as (res' & Hres' & ->). simpl.
      destruct (decide (req_jobId res' = jobId)) as [->|Hne].
      * rewrite lookup_alter_eq. destruct Hset as [set ->]. by eexists.
      * by rewrite lookup_alter_ne.
Qed.

Lemma run_response_settled ls : ∀ jobId r σ σ' job res,
  inv W σ → youtubeJobs σ !! jobId = Some job → status job ≠ Running →
  responses σ !! r = Some res → req_jobId res = jobId →
  is_Some (youtubeStreams σ !! jobId) →
  run W ls σ = Some σ' →
  responses σ' !! r = Some res ∧ is_Some (youtubeStreams σ' !! jobId).
Proof.
  induction ls as [|l ls IH]; intros jobId r σ σ' job res Hinv Hjob Hst Hres Hid Hset Hrun;
    simpl in Hrun.
  - by injection Hrun as <-.
  - destruct (step W l σ) as [σ1|] eqn:Hstep; [|done]. simpl in Hrun.
    destruct (step_response_settled _ _ _ _ _ _ _ Hinv Hjob Hst Hres Hid Hset Hstep)
      as (Hres1 & Hset1).
    destruct (step_job _ _ _ _ _ _ Hinv Hstep Hjob) as (job1 & Hjob1 & _ & _ & Hfix & _).
    rewrite (Hfix Hst) in Hjob1.
    by apply (IH jobId r σ1 σ' job res (step_inv _ _ _ _ Hinv Hstep) Hjob1 Hst Hres1 Hid Hset1).
Qed.

(** X12.  The server ends a response only when its job ends: a response
    attached to a job that is no longer running gets the replay and is
    never ended nor written to again, whatever happens next; the stream
    set its attachment created for the job is never removed. *)
Theorem late_subscriber_stays_open (σ σ' : State) (jobId : string) (job : Job) (r : nat)
    (ls : list Label) :
  reachable W σ → youtubeJobs σ !! jobId = Some job → status job ≠ Running →
  responses σ !! r = None →
  run W (GetStream jobId r :: ls) σ = Some σ' →
  responses σ' !! r
  = Some {| req_jobId := jobId; written := replay jobId (Some job); ended := false |}
  ∧ is_Some (youtubeStreams σ' !! jobId).
Proof.
  intros Hreach Hjob Hst Hfresh Hrun. pose proof (reachable_inv _ _ Hreach) as Hinv.
  simpl in Hrun. rewrite decide_True in Hrun by done. simpl in Hrun.
  assert (step W (GetStream jobId r) σ = Some (get_stream jobId r σ)) as Hstep.
  { simpl. by rewrite decide_True. }
  pose proof (step_inv _ _ _ _ Hinv Hstep) as Hinv1.
  eapply (run_response_settled ls jobId r (get_stream jobId r σ) σ' job); try done.
  - by rewrite get_stream_eq.
  - rewrite get_stream_eq. simpl. by rewrite lookup_insert_eq, Hjob.
  - rewrite get_stream_eq. simpl. by rewrite lookup_insert_eq.
Qed.

(** A response that no stream set holds is left as it is by every step,
    and no stream set takes it up. *)
Lemma step_detached l r res σ σ' :
  inv W σ → responses σ !! r = Some res → detached r σ → step W l σ = Some σ' →
  responses σ' !! r = Some res ∧ detached r σ'.
Proof.
  intros Hinv Hres Hout Hstep. split.
  - eapply step_response_frame; [done|done|done|]. right. apply Hout.
  - intros j. specialize (Hout j).
    destruct l as [jobId' now body|jobId'|jobId' r'|r']; simpl in Hstep.
    + case_decide as Hfresh; [|done]. injection Hstep as <-.
      by destruct (post_jobs_cases jobId' now body σ) as [->|(url & max & _ & _ & Hclamp & ->)].
    + destruct (resume_summary _ _ _ _ Hinv Hstep) as (job0 & job' & t & msgs & closes & Hsum).
      destruct Hsum as [_ _ _ _ _ Hstreams _ _]. unfold audience. destruct closes.
      * rewrite (audience_delete σ j jobId' _ Hstreams). case_decide; [|done]. apply not_elem_of_nil.
      * by rewrite Hstreams.
    + case_decide as Hfresh; [|done]. injection Hstep as <-. rewrite get_stream_eq.
      unfold audience. simpl. destruct (decide (jobId' = j)) as [->|Hne].
      * rewrite lookup_insert_eq. simpl. rewrite elem_of_set_add. intros [? | ->]; [done|].
        congruence.
      * by rewrite lookup_insert_ne.
    + apply on_close_eq in Hstep as (res' & Hres' & ->).
      rewrite audience_detach. by intros [? _].
Qed.

Lemma run_detached ls : ∀ r res σ σ',
  inv W σ → responses σ !! r = Some res → detached r σ → run W ls σ = Some σ' →
  responses σ' !! r = Some res ∧ detached r σ'.
Proof.
  induction ls as [|l ls IH]; intros r res σ σ' Hinv Hres Hout Hrun; simpl in Hrun.
  - by injection Hrun as <-.
  - destruct (step W l σ) as [σ1|] eqn:Hstep; [|done]. simpl in Hrun.
    destruct (step_detached _ _ _ _ _ Hinv Hres Hout Hstep) as (Hres1 & Hout1).
    by apply (IH r res σ1 σ' (step_inv _ _ _ _ Hinv Hstep) Hres1 Hout1).
Qed.

(** X13.  After the close of its request a response is in no stream set,
    and nothing is written to it and it is not ended by anything that
    happens later. *)
Theorem closed_subscriber_receives_nothing (σ σ1 σ' : State) (r : nat) (ls : list Label) :
  reachable W σ → step W (Close r) σ = Some σ1 → run W ls σ1 = Some σ' →
  responses σ' !! r = responses σ !! r
  ∧ is_Some (responses σ !! r)
  ∧ detached r σ'.
Proof.
  intros Hreach Hstep Hrun. pose proof (reachable_inv _ _ Hreach) as Hinv.
  pose proof (step_inv _ _ _ _ Hinv Hstep) as Hinv1.
  simpl in Hstep. apply on_close_eq in Hstep as (res & Hres & ->).
  assert (detached r (set_streams (alter (set_delete r) (req_jobId res)) σ)) as Hout.
  { intros j. rewrite audience_detach. intros [Hin Hne].
    destruct (decide (req_jobId res = j)) as [E|E]; [by apply Hne|].
    by apply (audience_other σ j r res (proj2 Hinv) Hres E). }
  destruct (run_detached ls r res _ σ' Hinv1 Hres Hout Hrun) as (Hres' & Hout').
  rewrite Hres, Hres'. by eauto.
Qed.

(** X14.  Along every run a job stays in the registry with the request it
    was created for, and its [completed] count never goes down. *)
Theorem job_progress_monotone (σ σ' : State) (jobId : string) (job : Job) (ls : list Label) :
  reachable W σ → youtubeJobs σ !! jobId = Some job → run W ls σ = Some σ' →
  ∃ job', youtubeJobs σ' !! jobId = Some job'
          ∧ channelUrl job' = channelUrl job
          ∧ maxVideos job' = maxVideos job
          ∧ createdAt job' = createdAt job
          ∧ completed job ≤ completed job'.
Proof.
  intros Hreach Hjob Hrun. pose proof (reachable_inv _ _ Hreach) as Hinv.
  destruct (run_job _ _ _ _ _ _ Hinv Hrun Hjob) as (job' & Hjob' & (? & ? & ?) & ? & _).
  by exists job'.
Qed.

(** X25.  The [status] event with [starting], broadcast when a job is
    created, reaches nobody unless a stream was requested for the id
    before the job existed: when no response was requested for the id,
    creating the job writes to no response. *)
Theorem starting_event_unheard (σ : State) (jobId now : string) (body : JsValue) :
  reachable W σ →
  (∀ r res, responses σ !! r = Some res → req_jobId res ≠ jobId) →
  responses (post_jobs jobId now body σ) = responses σ
  ∧ youtubeStreams (post_jobs jobId now body σ) = youtubeStreams σ.
Proof.
  intros Hreach Hnone. pose proof (reachable_inv _ _ Hreach) as Hinv.
  destruct (post_jobs_cases jobId now body σ) as [->|(url & max & _ & _ & Hclamp & ->)]; [done|].
  simpl. split; [|done].
  assert (audience σ jobId = []) as ->; [|done].
  destruct (audience σ jobId) as [|r set] eqn:Haud; [done|].
  destruct (audience_open σ jobId r (proj2 Hinv)) as (_ & res & Hres & Hid & _).
  { rewrite Haud. by left. }
  by destruct (Hnone r res Hres).
Qed.

End ServerCoverage.

(** ** The text of the events *)

Section WireCoverage.
Import Js Server Wire.

Lemma one_line_app a b : one_line a → one_line b → one_line (a +:+ b).
Proof.
  unfold one_line. intros Ha Hb. induction a as [|c a IH]; [done|].
  rewrite append_cons. simpl in *. apply Forall_cons in Ha as [Hc Ha].
  constructor; [done|]. by apply IH.
Qed.

Lemma one_line_cons c s : one_line (String c s) ↔ (c ≠ line_feed ∧ c ≠ carriage_return) ∧ one_line s.
Proof. unfold one_line. simpl. by rewrite Forall_cons. Qed.

Lemma one_line_empty : one_line "".
Proof. constructor. Qed.

Lemma quote_unit_one_line c : one_line (quote_unit c).
Proof.
  destruct c as [[] [] [] [] [] [] [] []]; vm_compute; repeat constructor; discriminate.
Qed.

Lemma quote_units_one_line s : one_line (quote_units s).
Proof.
  induction s as [|c s IH]; [constructor|]. simpl.
  apply one_line_app; [apply quote_unit_one_line|done].
Qed.

Lemma QuoteJSONString_one_line s : one_line (QuoteJSONString s).
Proof.
  unfold QuoteJSONString. apply one_line_app.
  - apply one_line_cons. split; [by split|]. apply quote_units_one_line.
  - apply one_line_cons. split; [by split|]. constructor.
Qed.

Lemma digit_char_one_line d s :
  (d < 10)%nat → one_line s → one_line (String (digit_char d) s).
Proof.
  intros Hd Hs. apply one_line_cons. split; [|done].
  do 10 (destruct d as [|d]; [by split|]). lia.
Qed.

Lemma digits_string_one_line ds :
  Forall (λ d, (d < 10)%nat) ds → one_line (digits_string ds).
Proof.
  induction 1 as [|d ds Hd _ IH]; [constructor|]. simpl. by apply digit_char_one_line.
Qed.

Lemma zeros_one_line n : one_line (zeros n).
Proof.
  induction n as [|n IH]; [constructor|]. simpl. apply one_line_cons. by split.
Qed.

Lemma nat_digits_below_ten fuel : ∀ n acc,
  Forall (λ d, (d < 10)%nat) acc → Forall (λ d, (d < 10)%nat) (nat_digits fuel n acc).
Proof.
  induction fuel as [|fuel IH]; intros n acc Hacc; [done|]. simpl.
  assert (Forall (λ d, (d < 10)%nat) (Z.to_nat (n mod 10) :: acc)) as Hacc'.
  { constructor; [|done]. pose proof (Z.mod_pos_bound n 10). lia. }
  destruct (n <? 10); [done|]. by apply IH.
Qed.

Lemma decimal_one_line n : one_line (decimal n).
Proof. apply digits_string_one_line, nat_digits_below_ten. constructor. Qed.

Lemma sign_prefix_one_line neg : one_line (sign_prefix neg).
Proof. destruct neg; [|constructor]. apply one_line_cons. split; [by split|]. constructor. Qed.

Lemma literal_one_line s :
  forallb (λ c, negb (Ascii.eqb c line_feed) && negb (Ascii.eqb c carriage_return))
    (String.list_ascii_of_string s) = true →
  one_line s.
Proof.
  unfold one_line. induction (String.list_ascii_of_string s) as [|c l IH]; [constructor|].
  simpl. rewrite !andb_true_iff, !negb_true_iff. intros [[H1 H2] Hl].
  constructor; [|by apply IH]. split; intros ->; by rewrite Ascii.eqb_refl in *.
Qed.

Lemma Number_toString_one_line neg ds n :
  Forall (λ d, (d < 10)%nat) ds → one_line (Number_toString (Finite neg ds n)).
Proof.
  intros Hds. unfold Number_toString.
  apply one_line_app; [apply sign_prefix_one_line|].
  destruct ((-5 <=? n) && (n <=? 21)).
  - destruct (Z.of_nat (length ds) <=? n).
    + apply one_line_app; [by apply digits_string_one_line|apply zeros_one_line].
    + destruct (0 <? n).
      * apply one_line_app; [apply digits_string_one_line; by apply Forall_take|].
        apply one_line_app; [by apply literal_one_line|].
        apply digits_string_one_line. by apply Forall_drop.
      * apply one_line_app; [by apply literal_one_line|].
        apply one_line_app; [apply zeros_one_line|by apply digits_string_one_line].
  - assert (one_line ((if n - 1 <? 0 then "-" else "+") +:+ decimal (Z.abs (n - 1)))) as He.
    { apply one_line_app; [destruct (n - 1 <? 0); by apply literal_one_line|].
      apply decimal_one_line. }
    destruct ds as [|d [|d' r]]; [constructor| |].
    + apply Forall_cons in Hds as [Hd _].
      apply one_line_app; [by apply digits_string_one_line; constructor|].
      apply one_line_app; [by apply literal_one_line|done].
    + apply Forall_cons in Hds as [Hd Hr].
      apply one_line_app; [by apply digits_string_one_line; constructor|].
      apply one_line_app; [by apply literal_one_line|].
      apply one_line_app; [by apply digits_string_one_line|].
      apply one_line_app; [by apply literal_one_line|done].
Qed.

Lemma join_one_line sep l :
  one_line sep → Forall one_line l → one_line (Downloader.join sep l).
Proof.
  intros Hsep. induction 1 as [|s r Hs Hr IH]; [constructor|].
  destruct r as [|s' r']; [done|]. rewrite join_cons by done.
  apply one_line_app; [done|]. by apply one_line_app.
Qed.

Lemma stringify_one_line : ∀ v s, digits_ok v → stringify v = Some s → one_line s.
Proof.
  fix IH 1. intros v s Hv Hs. destruct v as [| |b|x|t|xs|fields|name]; simpl in Hs;
    try discriminate; injection Hs as <-.
  - by apply literal_one_line.
  - destruct b; by apply literal_one_line.
  - destruct x as [|neg|neg|neg ds n]; try by apply literal_one_line.
    by apply Number_toString_one_line.
  - apply QuoteJSONString_one_line.
  - apply one_line_app; [by apply literal_one_line|].
    apply one_line_app; [|by apply literal_one_line].
    apply join_one_line; [by apply literal_one_line|].
    simpl in Hv. induction xs as [|x xs IHxs]; [constructor|].
    destruct Hv as [Hx Hxs]. constructor; [|by apply IHxs].
    destruct (stringify x) as [sx|] eqn:Ex; [by apply (IH x)|by apply literal_one_line].
  - apply one_line_app; [by apply literal_one_line|].
    apply one_line_app; [|by apply literal_one_line].
    apply join_one_line; [by apply literal_one_line|].
    simpl in Hv. induction fields as [|[k x] fields IHf]; [constructor|].
    destruct Hv as [Hx Hf].
    destruct (stringify x) as [sx|] eqn:Ex; [|by apply IHf].
    constructor; [|by apply IHf].
    apply one_line_app; [apply QuoteJSONString_one_line|].
    apply one_line_app; [by apply literal_one_line|by apply (IH x)].
Qed.

Lemma number_of_Z_digits_ok z : digits_ok (JNum (number_of_Z z)).
Proof.
  unfold number_of_Z. destruct (z =? 0); [done|]. simpl.
  apply nat_digits_below_ten. constructor.
Qed.

(** The data of every event but [progress] has its numbers in decimal
    form; the data of a [progress] event has, when the error and the
    record it carries have. *)
Lemma data_object_digits_ok d :
  match d with
  | ProgressData p =>
      digits_ok (Downloader.p_error p)
      ∧ match Downloader.p_item p with
        | Some item => digits_ok (item_object item)
        | None => True
        end
  | _ => True
  end →
  digits_ok (data_object d).
Proof.
  destruct d as [|st c t|p|jobId t|msg]; simpl; intros H;
    repeat split; try apply number_of_Z_digits_ok; try done.
  - apply H.
  - destruct (Downloader.p_item p); [apply H|done].
Qed.

(** X26.  The text [sseSend] writes for an event is one [event:] line with
    one of the four names, one [data:] line with the JSON text of the
    data, and an empty line; the JSON text holds no line feed and no
    carriage return, whatever strings the data carry, so that the event
    cannot be cut in two or followed by a forged one. *)
Theorem sse_text_one_event (m : EventName * Data) :
  digits_ok (data_object m.2) →
  ∃ json,
    stringify (data_object m.2) = Some json
    ∧ one_line json
    ∧ one_line (event_name m.1)
    ∧ sse_text m
      = ("event: " +:+ event_name m.1 +:+ String line_feed "")
        +:+ ("data: " +:+ json +:+ String line_feed (String line_feed "")).
Proof.
  intros Hok. destruct m as [e d]. simpl in *.
  assert (∃ json, stringify (data_object d) = Some json) as [json Hjson].
  { destruct d; by eexists. }
  exists json. split; [done|]. split; [by apply (stringify_one_line _ _ Hok)|].
  split; [destruct e; by apply literal_one_line|].
  unfold sse_text. simpl. by rewrite Hjson.
Qed.

Lemma sse_text_one_event_witness :
  ∃ json,
    stringify (data_object (ErrorData ("yt-dlp failed" +:+ String line_feed "event: done")))
    = Some json
    ∧ one_line json.
Proof.
  destruct (sse_text_one_event
              (error_ev, ErrorData ("yt-dlp failed" +:+ String line_feed "event: done")))
    as (json & Hjson & Hline & _).
  - by apply data_object_digits_ok.
  - by exists json.
Defined.

End WireCoverage.

(** ** The answer to a new job, and the client *)

Section ClientCoverage.
Import Js Downloader Server Reply Client.

(** X15.  The answer of [POST /api/youtube/jobs] tells what it did: a
    request answered 400 changed nothing; nor did one answered 500, which
    is the answer when [maxVideos] has no string form; an accepted
    request created the job under the id it answers, running, with
    nothing completed and a [total] equal to the [maxVideos] of the
    answer, between 1 and 100, and left every other job alone. *)
Theorem post_jobs_reply_tells (σ : State) (jobId now : string) (body : JsValue) :
  youtubeJobs σ !! jobId = None →
  match post_jobs_reply jobId body with
  | JobsBadRequest _ => post_jobs jobId now body σ = σ
  | JobsServerError msg =>
      post_jobs jobId now body σ = σ
      ∧ msg = "Cannot convert object to primitive value"
      ∧ unprintable (get_opt (js_or body (JObj [])) "maxVideos") = true
  | JobsAccepted jobId' max =>
      jobId' = jobId ∧ 1 ≤ max ≤ 100
      ∧ get_status jobId (post_jobs jobId now body σ) = StatusOk Running 0 max None
      ∧ get_result jobId (post_jobs jobId now body σ) = ResultNotDone Running
      ∧ ∀ j, j ≠ jobId →
          youtubeJobs (post_jobs jobId now body σ) !! j = youtubeJobs σ !! j
  end.
Proof.
  intros Hfresh. unfold post_jobs_reply, post_jobs.
  set (b := js_or body (JObj [])).
  destruct (get_opt b "channelUrl") as [| | | |url| | |] eqn:Hurl;
    try (unfold is_string; cbv [negb]; by rewrite ?orb_true_r).
  unfold is_string. replace (negb true) with false by done. rewrite orb_false_r.
  destruct (truthy (JStr url)) eqn:Htruthy; simpl; [|done].
  destruct (clampInt (get_opt b "maxVideos") 1 100 10) as [e|max] eqn:Hclamp.
  - split; [done|].
    unfold clampInt, parseInt10 in Hclamp.
    destruct (ToString (get_opt b "maxVideos")) as [e'|s] eqn:Hs; [|done].
    injection Hclamp as <-. by apply ToString_Throw in Hs as [-> ->].
  - pose proof (clampInt_range _ _ Hclamp) as Hmax.
    split; [done|]. split; [done|].
    unfold get_status, get_result. rewrite broadcast_eq. simpl.
    rewrite lookup_insert_eq. simpl. repeat split.
    intros j Hj. by rewrite lookup_insert_ne.
Qed.



Lemma all_safe_cons c s : all_safe (String c s) ↔ safe_char c = true ∧ all_safe s.
Proof. unfold all_safe, chars. simpl. by rewrite Forall_cons. Qed.

Lemma replace_unsafe_safe s : ∀ in_run, all_safe (replace_unsafe in_run s).
Proof.
  induction s as [|c s IH]; intros in_run; [constructor|]. simpl.
  destruct (safe_char c) eqn:Hc.
  - apply all_safe_cons. by split.
  - destruct in_run; [apply IH|]. apply all_safe_cons. by split.
Qed.

Lemma replace_unsafe_fixed s : ∀ in_run, all_safe s → replace_unsafe in_run s = s.
Proof.
  induction s as [|c s IH]; intros in_run Hs; [done|].
  apply all_safe_cons in Hs as [Hc Hs]. simpl. rewrite Hc. by rewrite IH.
Qed.

Lemma substring_0_spec n : ∀ s,
  all_safe s → all_safe (String.substring 0 n s)
  ∧ (String.length (String.substring 0 n s) ≤ n)%nat
  ∧ ((String.length s ≤ n)%nat → String.substring 0 n s = s).
Proof.
  induction n as [|n IH]; intros s Hs.
  - destruct s; simpl; (split; [constructor|]); split; try done; try lia.
  - destruct s as [|c s]; simpl; [split; [constructor|]; split; [lia|done]|].
    apply all_safe_cons in Hs as [Hc Hs]. destruct (IH s Hs) as (H1 & H2 & H3).
    split; [by apply all_safe_cons|]. split; [lia|]. intros Hlen. rewrite H3; [done|lia].
Qed.

Lemma strip_scheme_cases s :
  strip_scheme s = s
  ∨ ∃ r, s = String "h" (String "t" (String "t" (String "p" r)))
         ∧ ∃ c r', r = String c r' ∧ (c = ":"%char ∨ ∃ r'', r' = String ":" r'').
Proof.
  destruct s as [|[[] [] [] [] [] [] [] []] s]; try (by left).
  destruct s as [|[[] [] [] [] [] [] [] []] s]; try (by left).
  destruct s as [|[[] [] [] [] [] [] [] []] s]; try (by left).
  destruct s as [|[[] [] [] [] [] [] [] []] s]; try (by left).
  destruct s as [|[[] [] [] [] [] [] [] []] s]; try (by left).
  - destruct s as [|[[] [] [] [] [] [] [] []] s]; try (by left).
    right. eexists. split; [done|]. eexists _, _. split; [done|]. right. by eexists.
  - right. eexists. split; [done|]. eexists _, _. split; [done|]. by left.
Qed.

Lemma strip_scheme_fixed s : all_safe s → strip_scheme s = s.
Proof.
  intros Hs. destruct (strip_scheme_cases s) as [H|(r & -> & c & r' & -> & Hc)]; [done|].
  exfalso. do 4 (apply all_safe_cons in Hs as [_ Hs]).
  apply all_safe_cons in Hs as [Hc' Hs].
  destruct Hc as [->|(r'' & ->)]; [done|].
  apply all_safe_cons in Hs as [Hc'' _]. done.
Qed.

Lemma safeFilename_Return s name :
  safeFilename s = Return name → all_safe name ∧ (String.length name ≤ 60)%nat.
Proof.
  unfold safeFilename. destruct (ToString (js_or s (JStr "channel"))) as [e|t]; [done|].
  cbn [bind]. intros [= <-].
  destruct (substring_0_spec 60 _ (replace_unsafe_safe (strip_scheme t) false))
    as (H1 & H2 & _).
  done.
Qed.

(** X17.  The file name made from a channel URL has at most 60
    characters, each of them a letter, a digit, an underscore, a dot or a
    hyphen.  There is no file name only for a value without a string
    form, for which [String] throws. *)
Theorem safeFilename_safe (s : JsValue) :
  match safeFilename s with
  | Return name =>
      Forall (λ c, safe_char c = true) (chars name) ∧ (String.length name ≤ 60)%nat
  | Throw e => unprintable s = true ∧ e = cannot_convert
  end.
Proof.
  destruct (safeFilename s) as [e|name] eqn:H.
  - unfold safeFilename, js_or in H. destruct (truthy s); [|done].
    destruct (ToString s) as [e'|t] eqn:Hs; [|done].
    injection H as <-. by apply ToString_Throw.
  - by apply safeFilename_Return in H.
Qed.

(** X18.  A file name that is not empty is left as it is when it is made
    safe again. *)
Theorem safeFilename_idempotent (s : JsValue) (name : string) :
  safeFilename s = Return name → name ≠ "" → safeFilename (JStr name) = Return name.
Proof.
  intros H Hne. destruct (safeFilename_Return _ _ H) as [Hsafe Hlen].
  unfold safeFilename, js_or, truthy.
  destruct (String.eqb_spec name ""); [done|]. cbn [negb ToString bind].
  rewrite (strip_scheme_fixed _ Hsafe), (replace_unsafe_fixed _ _ Hsafe).
  f_equal. by apply substring_0_spec.
Qed.

Lemma safeFilename_idempotent_witness :
  safeFilename (JStr "https://www.youtube.com/@veritasium")
  = Return "www.youtube.com_veritasium"
  ∧ safeFilename (JStr "www.youtube.com_veritasium") = Return "www.youtube.com_veritasium".
Proof.
  assert (safeFilename (JStr "https://www.youtube.com/@veritasium")
          = Return "www.youtube.com_veritasium") as H by (by vm_compute).
  split; [exact H|].
  by apply (safeFilename_idempotent (JStr "https://www.youtube.com/@veritasium")).
Defined.

(** ** [getYouTubeStreamUrl] *)

Lemma chars_app a b : chars (a +:+ b) = chars a ++ chars b.
Proof.
  induction a as [|c a IH]; [done|]. rewrite append_cons. unfold chars in *. simpl.
  by rewrite IH.
Qed.

Lemma hex_digit_uri d : (d < 16)%nat → uri_char (hex_digit d) = true.
Proof. intros Hd. do 16 (destruct d as [|d]; [by vm_compute|]). lia. Qed.

Lemma percent_uri b : (b < 256)%nat → Forall (λ c, uri_char c = true) (chars (percent b)).
Proof.
  intros Hb. unfold percent, chars.
  change (String.list_ascii_of_string (String ?a (String ?b (String ?c ""))))
    with [a; b; c].
  constructor; [done|]. constructor; [|constructor; [|constructor]]; apply hex_digit_uri.
  - apply Nat.Div0.div_lt_upper_bound. lia.
  - apply Nat.mod_upper_bound. lia.
Qed.

Lemma encode_unit_uri c : Forall (λ c, uri_char c = true) (chars (encode_unit c)).
Proof.
  unfold encode_unit.
  pose proof (nat_ascii_bounded c) as Hc.
  destruct (uri_unreserved c) eqn:Hu.
  - unfold chars. simpl. repeat constructor. unfold uri_char. by rewrite Hu.
  - destruct (Nat.ltb_spec (nat_of_ascii c) 128).
    + apply percent_uri. lia.
    + rewrite chars_app. apply Forall_app. split; apply percent_uri.
      * assert (nat_of_ascii c / 64 < 4)%nat by (apply Nat.Div0.div_lt_upper_bound; lia). lia.
      * pose proof (Nat.mod_upper_bound (nat_of_ascii c) 64). lia.
Qed.

Lemma encodeURIComponent_uri s :
  Forall (λ c, uri_char c = true) (chars (encodeURIComponent s)).
Proof.
  induction s as [|c s IH]; [constructor|]. simpl. rewrite chars_app.
  apply Forall_app. split; [apply encode_unit_uri|done].
Qed.

Lemma encodeURIComponent_unreserved s :
  Forall (λ c, uri_unreserved c = true) (chars s) → encodeURIComponent s = s.
Proof.
  induction s as [|c s IH]; [done|]. unfold chars. simpl. intros H.
  apply Forall_cons in H as [Hc Hs]. unfold encode_unit. rewrite Hc.
  rewrite append_cons. change ("" +:+ ?x) with x. by rewrite IH.
Qed.

(** X19.  The id in a stream URL is written with unreserved characters
    and escape sequences only, so it holds no slash, question mark or
    hash and the URL keeps its shape; an id made of unreserved characters
    only, as the server generates them, stands in the URL as it is. *)
Theorem stream_url_shape (API jobId : string) :
  Forall (λ c, uri_char c = true) (chars (encodeURIComponent jobId))
  ∧ Forall (λ c, c ≠ "/"%char ∧ c ≠ "?"%char ∧ c ≠ "#"%char)
      (chars (encodeURIComponent jobId))
  ∧ (Forall (λ c, uri_unreserved c = true) (chars jobId) →
     getYouTubeStreamUrl API jobId = API +:+ "/api/youtube/jobs/" +:+ jobId +:+ "/stream").
Proof.
  split; [apply encodeURIComponent_uri|]. split.
  - eapply Forall_impl; [apply encodeURIComponent_uri|].
    intros c Hc. repeat split; intros ->; done.
  - intros H. unfold getYouTubeStreamUrl. by rewrite encodeURIComponent_unreserved.
Qed.

Lemma stream_url_shape_witness :
  getYouTubeStreamUrl "" "1767225600000-9f3a5c" = "/api/youtube/jobs/1767225600000-9f3a5c/stream"
  ∧ getYouTubeStreamUrl "" "a/b" = "/api/youtube/jobs/a%2Fb/stream".
Proof.
  split; [|by vm_compute].
  apply (stream_url_shape "" "1767225600000-9f3a5c").
  unfold chars. simpl. repeat constructor.
Defined.

End ClientCoverage.

(** ** [fetchWithRetry] *)

Section RetryCoverage.
Import Js Retry.

Lemma rate_limited_dec net i : rate_limited net i ∨ ¬ rate_limited net i.
Proof.
  unfold rate_limited. destruct (fetch net i) as [e|resp]; [right; by intros (? & ? & _)|].
  destruct (ok resp) eqn:Hok; [right; intros (? & [= <-] & ? & _); congruence|].
  destruct (decide (status resp = 429)) as [Hs|Hs].
  - left. by exists resp.
  - right. intros (? & [= <-] & _ & ?). done.
Qed.

Lemma retry_loop_rate_limited net base m a last resp ms :
  fetch net a = Return resp → ok resp = false → status resp = 429 →
  delay net base a = Return ms →
  retry_loop net base (S m) a last
  = ((retry_loop net base m (S a) (Some (429, json_of resp))).1,
     round net base a ++ (retry_loop net base m (S a) (Some (429, json_of resp))).2).
Proof.
  intros Hf Hok Hst Hms. unfold round. rewrite Hms. unfold delay in Hms. rewrite Hf in Hms.
  simpl. rewrite Hf, Hok, Hst. simpl. rewrite Hms.
  by destruct (retry_loop net base m (S a) _).
Qed.

Lemma retry_loop_rejects net base m a last e :
  rate_limited net a → delay net base a = Throw e →
  retry_loop net base (S m) a last = (Throw e, [Fetch a]).
Proof.
  intros (resp & Hf & Hok & Hst) He. unfold delay in He. rewrite Hf in He.
  simpl. rewrite Hf, Hok, Hst. simpl. by rewrite He.
Qed.

Lemma retry_loop_answer net base m a last :
  ¬ rate_limited net a →
  retry_loop net base (S m) a last = (answer net a, [Fetch a]).
Proof.
  intros Hno. simpl. unfold answer. destruct (fetch net a) as [e|resp] eqn:Hf; [done|].
  destruct (ok resp) eqn:Hok; [done|].
  destruct (Z.eqb_spec (status resp) 429) as [Hs|Hs]; [|done].
  destruct Hno. by exists resp.
Qed.

Lemma rounds_S net base a m :
  rounds net base a (S m) = round net base a ++ rounds net base (S a) m.
Proof. done. Qed.

(** After [k] retried attempts the loop goes on with the next. *)
Lemma retry_loop_prefix net base : ∀ k m a last,
  (∀ i, (a ≤ i < a + k)%nat → retried net base i) →
  ∃ last',
    retry_loop net base (k + m) a last
    = ((retry_loop net base m (a + k) last').1,
       rounds net base a k ++ (retry_loop net base m (a + k) last').2).
Proof.
  induction k as [|k IH]; intros m a last Hbusy.
  - exists last. rewrite Nat.add_0_r. change (0 + m)%nat with m.
    by destruct (retry_loop net base m a last).
  - destruct (Hbusy a ltac:(lia)) as ((resp & Hf & Hok & Hst) & ms & Hms).
    change (S k + m)%nat with (S (k + m)).
    rewrite (retry_loop_rate_limited _ _ _ _ _ _ _ Hf Hok Hst Hms).
    destruct (IH m (S a) (Some (429, json_of resp))) as [last' ->];
      [intros i Hi; apply Hbusy; lia|].
    exists last'. cbn [fst snd]. replace (S a + k)%nat with (a + S k)%nat by lia.
    by rewrite rounds_S, <- app_assoc.
Qed.

Lemma retry_loop_gives_up net base : ∀ m a last,
  (∀ i, (a ≤ i < a + m)%nat → retried net base i) →
  retry_loop net base m a last
  = (Return (gave_up (match m with
                      | O => last
                      | S m' => Some (429, last_json net (a + m'))
                      end)),
     rounds net base a m).
Proof.
  induction m as [|m IH]; intros a last Hbusy; [done|].
  destruct (Hbusy a ltac:(lia)) as ((resp & Hf & Hok & Hst) & ms & Hms).
  rewrite (retry_loop_rate_limited _ _ _ _ _ _ _ Hf Hok Hst Hms).
  rewrite (IH (S a)); [|intros i Hi; apply Hbusy; lia].
  cbn [fst snd]. rewrite rounds_S. f_equal. do 2 f_equal.
  destruct m as [|m'].
  - rewrite Nat.add_0_r. unfold last_json. by rewrite Hf.
  - by replace (S a + m')%nat with (a + S m')%nat by lia.
Qed.

Lemma retry_loop_fetches net base : ∀ m a last,
  ∃ k, (k ≤ m)%nat
       ∧ filter (λ e, is_fetch e = true) (retry_loop net base m a last).2
         = map Fetch (seq a k)
       ∧ ∀ i, (a ≤ i)%nat → (S i < a + k)%nat → rate_limited net i.
Proof.
  induction m as [|m IH]; intros a last.
  - exists 0%nat. split; [done|]. split; [done|]. intros; lia.
  - destruct (rate_limited_dec net a) as [Hlim|Hno].
    + destruct (delay net base a) as [e|ms] eqn:Hms.
      * rewrite (retry_loop_rejects _ _ _ _ _ _ Hlim Hms). exists 1%nat.
        split; [lia|]. split; [done|]. intros; lia.
      * destruct Hlim as (resp & Hf & Hok & Hst).
        rewrite (retry_loop_rate_limited _ _ _ _ _ _ _ Hf Hok Hst Hms).
        destruct (IH (S a) (Some (429, json_of resp))) as (k & Hk & Hfetches & Hbusy).
        exists (S k). split; [lia|]. split.
        -- unfold round. rewrite Hms. simpl. rewrite filter_cons_True by done.
           rewrite filter_cons_False by done. by rewrite Hfetches.
        -- intros i Hi1 Hi2. destruct (decide (i = a)) as [->|Hne]; [by exists resp|].
           apply Hbusy; lia.
    + rewrite (retry_loop_answer _ _ _ _ _ Hno). exists 1%nat.
      split; [lia|]. split; [done|]. intros; lia.
Qed.

(** X20.  Whatever the network answers, [fetchWithRetry] makes its
    requests one after the other, at most [maxRetries] of them; every
    request but the last it made was answered 429. *)
Theorem fetchWithRetry_bounded (net : Net) (maxRetries baseDelayMs : Z) :
  ∃ k, Z.of_nat k ≤ Z.max 0 maxRetries
       ∧ filter (λ e, is_fetch e = true) (fetchWithRetry net maxRetries baseDelayMs).2
         = map Fetch (seq 0 k)
       ∧ ∀ i, (S i < k)%nat → rate_limited net i.
Proof.
  unfold fetchWithRetry.
  destruct (retry_loop_fetches net baseDelayMs (Z.to_nat maxRetries) 0 None)
    as (k & Hk & Hfetches & Hbusy).
  exists k. split; [lia|]. split; [done|]. intros i Hi. apply Hbusy; lia.
Qed.

(** X21.  [fetchWithRetry] stops at the first answer that is not a 429:
    when the first [k] requests are answered 429, with a delay that can
    be computed, and request [k], within the bound, is not, it returns
    the [ok] flag, the status and the body of that answer (an empty
    object when the body is not JSON), or throws what that [fetch] threw;
    it has made [k + 1] requests and slept after each of the first [k],
    for the time [getRetryDelayMs] computed. *)
Theorem fetchWithRetry_first_answer (net : Net) (maxRetries baseDelayMs : Z) (k : nat) :
  (∀ i, (i < k)%nat → retried net baseDelayMs i) → Z.of_nat k < maxRetries →
  ¬ rate_limited net k →
  fetchWithRetry net maxRetries baseDelayMs
  = (answer net k, rounds net baseDelayMs 0 k ++ [Fetch k]).
Proof.
  intros Hbusy Hk Hno. unfold fetchWithRetry.
  replace (Z.to_nat maxRetries) with (k + S (Z.to_nat maxRetries - S k))%nat by lia.
  destruct (retry_loop_prefix net baseDelayMs k (S (Z.to_nat maxRetries - S k)) 0 None)
    as [last' ->]; [intros i Hi; apply Hbusy; lia|].
  cbn [Nat.add]. by rewrite retry_loop_answer.
Qed.

(** X27.  A 429 answer whose delay cannot be computed ends the retries:
    when the first [k] requests are answered 429, with a delay that can
    be computed, and request [k], within the bound, is answered 429 with
    a [RetryInfo] delay that makes [Number] throw, [fetchWithRetry]
    rejects with that error after [k + 1] requests, without a sleep
    after the last. *)
Theorem fetchWithRetry_rejects (net : Net) (maxRetries baseDelayMs : Z) (k : nat)
    (e : JsError) :
  (∀ i, (i < k)%nat → retried net baseDelayMs i) → Z.of_nat k < maxRetries →
  rate_limited net k → delay net baseDelayMs k = Throw e →
  fetchWithRetry net maxRetries baseDelayMs
  = (Throw e, rounds net baseDelayMs 0 k ++ [Fetch k]).
Proof.
  intros Hbusy Hk Hlim He. unfold fetchWithRetry.
  replace (Z.to_nat maxRetries) with (k + S (Z.to_nat maxRetries - S k))%nat by lia.
  destruct (retry_loop_prefix net baseDelayMs k (S (Z.to_nat maxRetries - S k)) 0 None)
    as [last' ->]; [intros i Hi; apply Hbusy; lia|].
  cbn [Nat.add]. by rewrite (retry_loop_rejects _ _ _ _ _ e).
Qed.

Lemma getRetryDelayMs_no_hint resp e fallbackMs :
  retry_after resp = None → body resp = Throw e →
  getRetryDelayMs resp (json_of resp) fallbackMs = Return fallbackMs.
Proof. intros Hh Hb. unfold getRetryDelayMs, json_of. by rewrite Hh, Hb. Qed.

Lemma no_hint_delay net base i :
  no_hint net i → delay net base i = Return (fallback_ms base i).
Proof.
  intros (resp & e & Hf & Hh & Hb). unfold delay. rewrite Hf.
  by apply getRetryDelayMs_no_hint with e.
Qed.

Lemma rounds_no_hint net base : ∀ m a,
  (∀ i, (a ≤ i < a + m)%nat → no_hint net i) →
  rounds net base a m = flat_map (λ i, [Fetch i; Sleep (fallback_ms base i)]) (seq a m).
Proof.
  induction m as [|m IH]; intros a Hnone; [done|].
  rewrite rounds_S, IH by (intros i Hi; apply Hnone; lia).
  unfold round. by rewrite no_hint_delay by (apply Hnone; lia).
Qed.

(** X22.  When every request is answered 429, with a delay that can be
    computed, [fetchWithRetry] gives up after [maxRetries] requests with
    [ok: false], status 429 and the last body (an empty object when that
    is falsy or not JSON), having slept after every one of them, the last
    included; when no answer tells a delay, the sleep after attempt [i]
    is [baseDelayMs * 2^i].  With [maxRetries] zero or less it makes no
    request at all. *)
Theorem fetchWithRetry_gives_up (net : Net) (maxRetries baseDelayMs : Z) :
  (∀ i, Z.of_nat i < maxRetries → retried net baseDelayMs i) →
  let n := Z.to_nat maxRetries in
  fetchWithRetry net maxRetries baseDelayMs
  = (Return {| out_ok := false; out_status := 429;
               out_json := match n with
                           | O => JObj []
                           | S n' => js_or (last_json net n') (JObj [])
                           end |},
     rounds net baseDelayMs 0 n)
  ∧ ((∀ i, Z.of_nat i < maxRetries → no_hint net i) →
     (fetchWithRetry net maxRetries baseDelayMs).2
     = flat_map (λ i, [Fetch i; Sleep (fallback_ms baseDelayMs i)]) (seq 0 n)).
Proof.
  intros Hbusy n. unfold fetchWithRetry. fold n.
  rewrite (retry_loop_gives_up net baseDelayMs n 0 None);
    [|intros i Hi; apply Hbusy; lia].
  split.
  - by destruct n.
  - intros Hnone. cbn [snd]. apply rounds_no_hint. intros i Hi. apply Hnone. lia.
Qed.

Lemma fetchWithRetry_first_answer_witness :
  fetchWithRetry busy_twice 3 1000
  = (Return {| out_ok := true; out_status := 200; out_json := JObj [] |},
     [Fetch 0; Sleep (double_of_Z 1500); Fetch 1; Sleep (double_of_Z 2000); Fetch 2]).
Proof.
  apply (fetchWithRetry_first_answer busy_twice 3 1000 2).
  - intros i Hi. destruct i as [|[|i]]; [| |lia]; (split; [by eexists|by eexists]).
  - lia.
  - intros (resp & [= <-] & Hok & _). done.
Defined.

Lemma fetchWithRetry_gives_up_witness :
  fetchWithRetry always_busy 3 1000
  = (Return {| out_ok := false; out_status := 429; out_json := JObj [] |},
     [Fetch 0; Sleep (double_of_Z 1000); Fetch 1; Sleep (double_of_Z 2000);
      Fetch 2; Sleep (double_of_Z 4000)]).
Proof.
  destruct (fetchWithRetry_gives_up always_busy 3 1000) as [H _].
  - intros i _. split; by eexists.
  - exact H.
Defined.

Lemma fetchWithRetry_rejects_witness :
  fetchWithRetry bad_hint 3 1000 = (Throw cannot_convert, [Fetch 0]).
Proof.
  apply (fetchWithRetry_rejects bad_hint 3 1000 0).
  - intros i Hi. lia.
  - lia.
  - by eexists.
  - done.
Defined.

End RetryCoverage.

(** ** Users and messages *)

Section ChatCoverage.
Import Js Downloader Chat.

Lemma lower_char_spec c :
  StrWhiteSpaceChar (lower_char c) = StrWhiteSpaceChar c
  ∧ lower_char (lower_char c) = lower_char c.
Proof. destruct c as [[] [] [] [] [] [] [] []]; by vm_compute. Qed.

Lemma toLowerCase_app a b : toLowerCase (a +:+ b) = toLowerCase a +:+ toLowerCase b.
Proof.
  induction a as [|c a IH]; [done|]. rewrite append_cons. simpl. by rewrite IH, append_cons.
Qed.

Lemma toLowerCase_rev s : toLowerCase (String.rev s) = String.rev (toLowerCase s).
Proof.
  induction s as [|c s IH]; [done|]. simpl. by rewrite !string_rev_cons, toLowerCase_app, IH.
Qed.

Lemma toLowerCase_trimStart s : toLowerCase (trimStart s) = trimStart (toLowerCase s).
Proof.
  induction s as [|c s IH]; [done|]. simpl toLowerCase at 2. rewrite !trimStart_cons.
  rewrite (proj1 (lower_char_spec c)). by destruct (StrWhiteSpaceChar c).
Qed.

Lemma toLowerCase_trim s : toLowerCase (trim s) = trim (toLowerCase s).
Proof.
  unfold trim, trimEnd.
  by rewrite <- toLowerCase_trimStart, <- toLowerCase_rev, <- toLowerCase_trimStart,
    <- toLowerCase_rev.
Qed.

Lemma toLowerCase_idempotent s : toLowerCase (toLowerCase s) = toLowerCase s.
Proof.
  induction s as [|c s IH]; [done|]. simpl. by rewrite IH, (proj2 (lower_char_spec c)).
Qed.

(** X23.  Registration and login agree on the name of a user: for a
    string both compute the same key; a truthy user name that is no
    string is registered under its string form, if it has one (if not,
    [String] throws), but a login with it throws.  The registered name is
    trimmed and in lower case, and computing it again changes nothing. *)
Theorem login_finds_registered_name (username : JsValue) :
  truthy username = true →
  match username with
  | JStr _ =>
      ∃ name, register_name username = Return name ∧ login_name username = Return name
  | _ =>
      login_name username = Throw (TypeError "username.trim is not a function")
      ∧ if unprintable username then register_name username = Throw cannot_convert
        else ∃ name, register_name username = Return name
  end
  ∧ ∀ name, register_name username = Return name →
      trim name = name ∧ toLowerCase name = name
      ∧ register_name (JStr name) = Return name.
Proof.
  intros _. split.
  - assert (if unprintable username then register_name username = Throw cannot_convert
            else ∃ name, register_name username = Return name) as H.
    { unfold register_name. pose proof (ToString_unprintable username) as H.
      destruct (unprintable username); [by rewrite H|].
      destruct H as [s ->]. by eexists. }
    destruct username; try (split; [done|exact H]). by eexists.
  - unfold register_name. intros name H.
    destruct (ToString username) as [e|s]; [done|]. injection H as <-.
    cbn [ToString bind].
    rewrite <- !toLowerCase_trim, !toLowerCase_idempotent, !trim_idempotent. done.
Qed.

Lemma login_finds_registered_name_witness :
  register_name (JNum (number_of_Z 2024)) = Return "2024"
  ∧ login_name (JNum (number_of_Z 2024)) = Throw (TypeError "username.trim is not a function")
  ∧ login_name (JStr " Alice ") = Return "alice"
  ∧ register_name (JObj [("toString", JStr "Alice")]) = Throw cannot_convert.
Proof.
  split; [by vm_compute|]. split; [|split].
  - by destruct (login_finds_registered_name (JNum (number_of_Z 2024))) as [[H _] _].
  - by vm_compute.
  - by destruct (login_finds_registered_name (JObj [("toString", JStr "Alice")]))
      as [[_ H] _].
Defined.

Lemma map_images_Return imgs :
  Forall has_value imgs →
  ∃ views, map_images imgs = Return views ∧ length views = length imgs.
Proof.
  induction 1 as [|img imgs Hv _ (views & IH & Hlen)]; [by exists []|].
  simpl. unfold image_view. rewrite !(get_has_value _ _ Hv). simpl. rewrite IH. simpl.
  eexists. split; [done|]. simpl. by rewrite Hlen.
Qed.

Lemma map_images_Throw imgs :
  ¬ Forall has_value imgs → ∃ e, map_images imgs = Throw e.
Proof.
  induction imgs as [|img imgs IH]; intros H; [by destruct H|].
  simpl. unfold image_view.
  destruct (get img "data") as [e|data] eqn:Hdata; [by eexists|].
  assert (has_value img) as Hv by (split; intros ->; done).
  rewrite (get_has_value _ _ Hv). simpl.
  destruct (map_images imgs) as [e|rest] eqn:Hrest; [by eexists|].
  destruct IH as [e He]; [|done]. intros Hall. apply H. by constructor.
Qed.

Lemma destructure_has_value body p :
  has_value body → destructure body p = Return (get_opt body p).
Proof. intros [? ?]. unfold get_opt. by destruct body. Qed.

Lemma if_length_spread v name :
  if_length (assoc name (spread_if (length_opt v) name v)) = if_length v.
Proof.
  unfold spread_if, if_length. destruct (truthy (length_opt v)) eqn:E; simpl.
  - rewrite String.eqb_refl. by rewrite E.
  - done.
Qed.

(** X24.  What is posted comes back: the view [GET /api/messages] makes
    of the message [POST /api/messages] stores has the role and the
    content of the request and the time of the post; [images] has one
    entry per posted image (a single image counts as one), and is absent
    when none was posted; [charts] and [toolCalls] are there exactly when
    they have a truthy length.  If a posted image is null, making the
    view throws. *)
Theorem posted_message_view (now : string) (body msg : JsValue) (docId : string) (i : nat) :
  new_message now body = Return (Some msg) →
  let imgs := posted_images (get_opt body "imageData") in
  (Forall has_value imgs →
   ∃ views,
     map_images imgs = Return views ∧ length views = length imgs
     ∧ message_view docId i msg
       = Return (JObj [("id", JStr (docId +:+ "-" +:+ decimal (Z.of_nat i)));
                       ("role", get_opt body "role");
                       ("content", get_opt body "content");
                       ("timestamp", JStr now);
                       ("images", match imgs with [] => JUndefined | _ => JArr views end);
                       ("charts", if_length (get_opt body "charts"));
                       ("toolCalls", if_length (get_opt body "toolCalls"))]))
  ∧ (¬ Forall has_value imgs → ∃ e, message_view docId i msg = Throw e).
Proof.
  intros H imgs. unfold new_message in H.
  assert (has_value body) as Hb.
  { destruct body; try (by split). all: done. }
  rewrite !(destructure_has_value _ _ Hb) in H. cbv [bind] in H.
  set (role := get_opt body "role") in *. set (content := get_opt body "content") in *.
  set (imageData := get_opt body "imageData") in *.
  set (charts := get_opt body "charts") in *.
  set (toolCalls := get_opt body "toolCalls") in *.
  destruct (negb (truthy (get_opt body "session_id")) || negb (truthy role)
            || match content with JUndefined => true | _ => false end); [done|].
  injection H as <-.
  assert (message_view docId i
            (JObj (("role", role) :: ("content", content) :: ("timestamp", JStr now)
                   :: (spread_if imageData "imageData" (JArr (as_array imageData))
                       ++ spread_if (length_opt charts) "charts" charts
                       ++ spread_if (length_opt toolCalls) "toolCalls" toolCalls)))
          = let* images := match imgs with
                           | [] => Return JUndefined
                           | _ => let* views := map_images imgs in Return (JArr views)
                           end in
            Return (JObj [("id", JStr (docId +:+ "-" +:+ decimal (Z.of_nat i)));
                          ("role", role); ("content", content); ("timestamp", JStr now);
                          ("images", images);
                          ("charts", if_length charts);
                          ("toolCalls", if_length toolCalls)])) as ->.
  { unfold message_view, imgs, posted_images.
    rewrite <- (if_length_spread charts "charts"), <- (if_length_spread toolCalls "toolCalls").
    unfold spread_if.
    destruct (truthy imageData) eqn:Ei; destruct (truthy (length_opt charts));
      destruct (truthy (length_opt toolCalls)); done. }
  split.
  - intros Hall. destruct (map_images_Return _ Hall) as (views & Hviews & Hlen).
    exists views. split; [done|]. split; [done|].
    destruct imgs; [done|]. by rewrite Hviews.
  - intros Hno. destruct (map_images_Throw _ Hno) as [e He].
    destruct imgs; [by destruct Hno|]. rewrite He. by eexists.
Qed.

Lemma posted_message_view_witness :
  ∃ msg views,
    new_message "2026-01-01T00:00:00.000Z"
      (JObj [("session_id", JStr "65f0c0ffee65f0c0ffee65f0"); ("role", JStr "user");
             ("content", JStr "hello");
             ("imageData", JObj [("data", JStr "AAAA"); ("mimeType", JStr "image/png")]);
             ("charts", JArr [])]) = Return (Some msg)
    ∧ message_view "65f0c0ffee65f0c0ffee65f0" 0 msg
      = Return (JObj [("id", JStr "65f0c0ffee65f0c0ffee65f0-0");
                      ("role", JStr "user"); ("content", JStr "hello");
                      ("timestamp", JStr "2026-01-01T00:00:00.000Z");
                      ("images", JArr views);
                      ("charts", JUndefined); ("toolCalls", JUndefined)])
    ∧ length views = 1%nat.
Proof.
  eexists.
  assert (new_message "2026-01-01T00:00:00.000Z"
            (JObj [("session_id", JStr "65f0c0ffee65f0c0ffee65f0"); ("role", JStr "user");
                   ("content", JStr "hello");
                   ("imageData", JObj [("data", JStr "AAAA"); ("mimeType", JStr "image/png")]);
                   ("charts", JArr [])]) = Return (Some _)) as H by (vm_compute; reflexivity).
  destruct (posted_message_view _ _ _ "65f0c0ffee65f0c0ffee65f0" 0 H) as [Hok _].
  destruct Hok as (views & _ & Hlen & Hview).
  { repeat constructor; done. }
  exists views. split; [exact H|]. split; [exact Hview|exact Hlen].
Defined.

End ChatCoverage.

(** ** The further properties on concrete runs *)

Section MoreScenarios.
Import Js Server Reply.

Lemma one_job_reachable W : reachable W one_job.
Proof. exists [PostJobs "job-1" "2026-01-01T00:00:00.000Z" request_body]. by vm_compute. Qed.

Lemma watched_job_reachable W : reachable W watched_job.
Proof.
  exists [PostJobs "job-1" "2026-01-01T00:00:00.000Z" request_body; GetStream "job-1" 0].
  by vm_compute.
Qed.

Lemma two_jobs_reachable W : reachable W two_jobs.
Proof.
  exists [PostJobs "job-1" "2026-01-01T00:00:00.000Z" request_body; GetStream "job-1" 0;
          PostJobs "job-2" "2026-01-01T00:00:01.000Z" request_body].
  by vm_compute.
Qed.

Lemma job_size_bound_witness :
  ∃ job, (run three_videos_each (repeat (Settle "job-1") 6) one_job
            ≫= λ σ, youtubeJobs σ !! "job-1") = Some job
         ∧ 1 ≤ maxVideos job ≤ 100
         ∧ total job ≤ maxVideos job
         ∧ Z.of_nat (length (results job)) ≤ maxVideos job.
Proof.
  destruct (run three_videos_each (repeat (Settle "job-1") 6) one_job) as [σ|] eqn:Hrun;
    [|by vm_compute in Hrun].
  change (Some σ ≫= λ σ, youtubeJobs σ !! "job-1") with (youtubeJobs σ !! "job-1").
  destruct (youtubeJobs σ !! "job-1") as [job|] eqn:Hjob.
  - exists job. split; [done|].
    apply (job_size_bound three_videos_each σ "job-1" job); [|done].
    eapply reachable_run; [apply one_job_reachable|done].
  - exfalso.
    assert ((run three_videos_each (repeat (Settle "job-1") 6) one_job
               ≫= λ σ, youtubeJobs σ !! "job-1") ≠ None) as H by by vm_compute.
    rewrite Hrun in H. by apply H.
Defined.

Lemma status_and_result_agree_witness :
  get_status "job-1" one_job = StatusOk Running 0 10 None
  ∧ get_result "job-1" one_job = ResultNotDone Running
  ∧ (0 ≤ 0 < 10 ∧ 10 ≤ 100 ∧ @None string = None).
Proof.
  split; [by vm_compute|]. split; [by vm_compute|].
  exact (status_and_result_agree three_videos_each one_job "job-1"
           (one_job_reachable three_videos_each)).
Defined.

Lemma step_leaves_other_jobs_witness :
  ∃ σ', step three_videos_each (Settle "job-1") two_jobs = Some σ'
        ∧ youtubeJobs σ' !! "job-2" = youtubeJobs two_jobs !! "job-2"
        ∧ tasks σ' !! "job-2" = tasks two_jobs !! "job-2"
        ∧ ∀ r res, responses two_jobs !! r = Some res → req_jobId res = "job-2" →
            responses σ' !! r = Some res.
Proof.
  destruct (step three_videos_each (Settle "job-1") two_jobs) as [σ'|] eqn:Hstep;
    [|by vm_compute in Hstep].
  exists σ'. split; [done|].
  apply (step_leaves_other_jobs three_videos_each two_jobs σ' (Settle "job-1") "job-2");
    [apply two_jobs_reachable|done|by vm_compute].
Defined.

Lemma settle_fan_out_witness :
  ∃ σ' msgs, step tool_down (Settle "job-1") watched_job = Some σ'
    ∧ ∀ r res, responses watched_job !! r = Some res →
        ∃ res', responses σ' !! r = Some res'
                ∧ written res'
                  = written res ++ (if decide (r ∈ audience watched_job "job-1") then msgs else []).
Proof.
  destruct (step tool_down (Settle "job-1") watched_job) as [σ'|] eqn:Hstep;
    [|by vm_compute in Hstep].
  destruct (settle_fan_out tool_down watched_job σ' "job-1") as [msgs Hmsgs];
    [apply watched_job_reachable|done|].
  by exists σ', msgs.
Defined.

Lemma settle_ends_streams_witness :
  ∃ σ', step tool_down (Settle "job-1") watched_job = Some σ'
    ∧ youtubeJobs σ' !! "job-1" = Some job_1_failed
    ∧ youtubeStreams σ' !! "job-1" = None
    ∧ ∀ r, r ∈ audience watched_job "job-1" →
        ∃ res', responses σ' !! r = Some res' ∧ ended res' = true
                ∧ last (written res') = Some (terminal_msg "job-1" job_1_failed).
Proof.
  destruct (step tool_down (Settle "job-1") watched_job) as [σ'|] eqn:Hstep;
    [|by vm_compute in Hstep].
  assert (youtubeJobs σ' !! "job-1" = Some job_1_failed) as Hjob'.
  { assert ((step tool_down (Settle "job-1") watched_job ≫= λ σ, youtubeJobs σ !! "job-1")
            = Some job_1_failed) as H by by vm_compute.
    by rewrite Hstep in H. }
  exists σ'. split; [done|]. split; [done|].
  apply (settle_ends_streams tool_down watched_job σ' "job-1" job_1_failed);
    [apply watched_job_reachable|done|done|by vm_compute].
Defined.

Lemma late_subscriber_stays_open_witness :
  ∃ σ', (run tool_down [Settle "job-1"] one_job
           ≫= run tool_down [GetStream "job-1" 0;
                             PostJobs "job-2" "2026-01-01T00:00:01.000Z" request_body;
                             Settle "job-2"]) = Some σ'
    ∧ responses σ' !! 0%nat
      = Some {| req_jobId := "job-1"; written := replay "job-1" (Some job_1_failed);
                ended := false |}
    ∧ is_Some (youtubeStreams σ' !! "job-1").
Proof.
  destruct (run tool_down [Settle "job-1"] one_job) as [σ|] eqn:Hσ; [|by vm_compute in Hσ].
  assert (youtubeJobs σ !! "job-1" = Some job_1_failed ∧ responses σ !! 0%nat = None)
    as [Hjob Hfresh].
  { assert ((run tool_down [Settle "job-1"] one_job
               ≫= λ σ, Some (youtubeJobs σ !! "job-1", responses σ !! 0%nat))
            = Some (Some job_1_failed, None)) as H by by vm_compute.
    rewrite Hσ in H. by injection H as -> ->. }
  change (Some σ ≫= ?f) with (f σ).
  destruct (run tool_down [GetStream "job-1" 0;
                           PostJobs "job-2" "2026-01-01T00:00:01.000Z" request_body;
                           Settle "job-2"] σ) as [σ'|] eqn:Hrun.
  - exists σ'. split; [done|].
    apply (late_subscriber_stays_open tool_down σ σ' "job-1" job_1_failed 0
             [PostJobs "job-2" "2026-01-01T00:00:01.000Z" request_body; Settle "job-2"]);
      [|done|by vm_compute|done|done].
    eapply reachable_run; [apply one_job_reachable|done].
  - exfalso.
    assert ((run tool_down [Settle "job-1"] one_job
               ≫= run tool_down [GetStream "job-1" 0;
                                 PostJobs "job-2" "2026-01-01T00:00:01.000Z" request_body;
                                 Settle "job-2"]) ≠ None) as H by by vm_compute.
    rewrite Hσ in H. by apply H.
Defined.

Lemma closed_subscriber_receives_nothing_witness :
  ∃ σ1 σ', step tool_down (Close 0) watched_job = Some σ1
    ∧ run tool_down [Settle "job-1"] σ1 = Some σ'
    ∧ responses σ' !! 0%nat = responses watched_job !! 0%nat
    ∧ is_Some (responses watched_job !! 0%nat)
    ∧ detached 0 σ'.
Proof.
  destruct (step tool_down (Close 0) watched_job) as [σ1|] eqn:Hstep;
    [|by vm_compute in Hstep].
  destruct (run tool_down [Settle "job-1"] σ1) as [σ'|] eqn:Hrun.
  - exists σ1, σ'. split; [done|]. split; [done|].
    apply (closed_subscriber_receives_nothing tool_down watched_job σ1 σ' 0
             [Settle "job-1"]); [apply watched_job_reachable|done|done].
  - exfalso.
    assert ((step tool_down (Close 0) watched_job ≫= run tool_down [Settle "job-1"]) ≠ None)
      as H by by vm_compute.
    rewrite Hstep in H. by apply H.
Defined.

Lemma job_progress_monotone_witness :
  ∃ σ' job', run three_videos_each (repeat (Settle "job-1") 6) one_job = Some σ'
    ∧ youtubeJobs σ' !! "job-1" = Some job'
    ∧ channelUrl job' = channelUrl job_1
    ∧ maxVideos job' = maxVideos job_1
    ∧ createdAt job' = createdAt job_1
    ∧ completed job_1 ≤ completed job'.
Proof.
  destruct (run three_videos_each (repeat (Settle "job-1") 6) one_job) as [σ'|] eqn:Hrun;
    [|by vm_compute in Hrun].
  destruct (job_progress_monotone three_videos_each one_job σ' "job-1" job_1
              (repeat (Settle "job-1") 6)) as (job' & H);
    [apply one_job_reachable|by vm_compute|exact Hrun|].
  exists σ', job'. split; [reflexivity|exact H].
Defined.

Lemma post_jobs_reply_tells_witness :
  post_jobs_reply "job-1" request_body = JobsAccepted "job-1" 10
  ∧ get_status "job-1" one_job = StatusOk Running 0 10 None
  ∧ get_result "job-1" one_job = ResultNotDone Running
  ∧ post_jobs_reply "job-2"
      (JObj [("channelUrl", JStr "https://www.youtube.com/@ch");
             ("maxVideos", JObj [("toString", JNum (Zero false))])])
    = JobsServerError "Cannot convert object to primitive value"
  ∧ post_jobs "job-2" "2026-01-01T00:00:01.000Z"
      (JObj [("channelUrl", JStr "https://www.youtube.com/@ch");
             ("maxVideos", JObj [("toString", JNum (Zero false))])]) one_job
    = one_job.
Proof.
  split; [by vm_compute|].
  pose proof (post_jobs_reply_tells init "job-1" "2026-01-01T00:00:00.000Z" request_body
                ltac:(by vm_compute)) as H.
  replace (post_jobs_reply "job-1" request_body) with (JobsAccepted "job-1" 10) in H
    by (by vm_compute).
  destruct H as (_ & _ & Hstatus & Hresult & _).
  split; [done|]. split; [done|]. split; [by vm_compute|].
  pose proof (post_jobs_reply_tells one_job "job-2" "2026-01-01T00:00:01.000Z"
                (JObj [("channelUrl", JStr "https://www.youtube.com/@ch");
                       ("maxVideos", JObj [("toString", JNum (Zero false))])])
                ltac:(by vm_compute)) as H.
  replace (post_jobs_reply "job-2" _)
    with (JobsServerError "Cannot convert object to primitive value") in H
    by (by vm_compute).
  by destruct H as (H & _).
Defined.

Lemma starting_event_unheard_witness :
  responses two_jobs = responses watched_job
  ∧ youtubeStreams two_jobs = youtubeStreams watched_job.
Proof.
  apply (starting_event_unheard three_videos_each watched_job "job-2"
           "2026-01-01T00:00:01.000Z" request_body).
  - apply watched_job_reachable.
  - intros r res Hres. unfold watched_job in Hres. rewrite get_stream_eq in Hres.
    cbn [responses] in Hres. destruct (decide (r = 0%nat)) as [->|Hne].
    + rewrite lookup_insert_eq in Hres. by injection Hres as <-.
    + rewrite lookup_insert_ne in Hres by done.
      change (responses one_job) with (∅ : gmap nat Response) in Hres.
      by rewrite lookup_empty in Hres.
Defined.

End MoreScenarios.
